(** * clickhouse-operator: macro expansion and the ZooKeeper client

  A shallow embedding of two packages of the operator:

  - [pkg/model/common/namer/macro] (module [Macro]): the macro engine that
    expands [{namespace}]-like placeholders for a scope object;
  - [pkg/model/zookeeper] (module [Zookeeper]): the session-resilient
    ZooKeeper client ([Connection], [retry], [ensureConnection], [dial],
    [connect], [connectionEventsProcessor], [Close]).

  Go code is sequential inside one goroutine, so every method is embedded
  as a function in a small state monad over a [World]; what other
  goroutines and the outside world do is given by an environment of
  oracles.  Many callers on one client are the same methods, cut at the
  points where another goroutine can move and run in any interleaving
  (module [Gate]). *)

From Stdlib Require Import ZArith Lia Ascii.
From stdpp Require Import base option list gmap strings pretty.

Local Open Scope string_scope.
Local Open Scope Z_scope.

(** ** Go's [strings] package, as far as the two packages use it *)

Module Strings.

Fixpoint HasPrefix (s prefix : string) : bool :=
  match prefix with
  | EmptyString => true
  | String p prefix' =>
      match s with
      | EmptyString => false
      | String a s' => if decide (a = p) then HasPrefix s' prefix' else false
      end
  end.

(** [strings.Contains(s, substr)] *)
Fixpoint Contains (s substr : string) : bool :=
  HasPrefix s substr ||
  match s with
  | EmptyString => false
  | String _ s' => Contains s' substr
  end.

(** The scanning loop of [strings.Split] for a non-empty separator:
    [skip] counts the bytes of a separator just matched that are still to
    be dropped, [cur] is the piece collected so far. *)
Fixpoint split_from (sep : string) (skip : nat) (cur s : string) : list string :=
  match s with
  | EmptyString => [cur]
  | String a s' =>
      match skip with
      | S k => split_from sep k cur s'
      | O =>
          if HasPrefix s sep
          then cur :: split_from sep (String.length sep - 1) "" s'
          else split_from sep 0 (cur +:+ String a "") s'
      end
  end.

(** [strings.Split(s, sep)], [sep] non-empty (both call sites pass a
    one-byte separator). *)
Definition Split (s sep : string) : list string := split_from sep 0 "" s.

Fixpoint drop (n : nat) (s : string) : string :=
  match n, s with
  | O, _ => s
  | S _, EmptyString => EmptyString
  | S k, String _ s' => drop k s'
  end.

(** The pieces before and after the first occurrence of [sep]. *)
Fixpoint cut (s sep : string) : option (string * string) :=
  if HasPrefix s sep then Some ("", drop (String.length sep) s)
  else match s with
       | EmptyString => None
       | String a s' =>
           match cut s' sep with
           | Some (before, after) => Some (String a before, after)
           | None => None
           end
       end.

(** [strings.SplitN(s, sep, 2)] *)
Definition SplitN2 (s sep : string) : list string :=
  match cut s sep with
  | Some (before, after) => [before; after]
  | None => [s]
  end.

Fixpoint has_byte (cutset : string) (a : Ascii.ascii) : bool :=
  match cutset with
  | EmptyString => false
  | String b cutset' => if decide (a = b) then true else has_byte cutset' a
  end.

(** [strings.TrimRight(s, cutset)] *)
Fixpoint TrimRight (s cutset : string) : string :=
  match s with
  | EmptyString => EmptyString
  | String a s' =>
      match TrimRight s' cutset with
      | EmptyString => if has_byte cutset a then EmptyString else String a EmptyString
      | t => String a t
      end
  end.

End Strings.

(** ** Package [macro] *)

Module Macro.

(** Go's [int] on the 64-bit targets the operator is built for. *)
Definition int_min : Z := - 2 ^ 63.
Definition int_max : Z := 2 ^ 63 - 1.
Definition is_int (z : Z) : Prop := int_min <= z <= int_max.
Definition wrap (z : Z) : Z := (z + 2 ^ 63) mod 2 ^ 64 - 2 ^ 63.
Definition int_sub (a b : Z) : Z := wrap (a - b).

(** What [GetRuntime().GetAddress()] answers: the getters [macro.go]
    calls, each an [int]. *)
Record Address := mkAddress {
  GetClusterIndex : Z;
  GetShardIndex : Z;
  GetShardScopeIndex : Z;
  GetReplicaIndex : Z;
  GetReplicaScopeIndex : Z;
  GetCRScopeIndex : Z;
  GetCRScopeCycleIndex : Z;
  GetCRScopeCycleOffset : Z;
  GetClusterScopeIndex : Z;
  GetClusterScopeCycleIndex : Z;
  GetClusterScopeCycleOffset : Z
}.

(** The name parts [short.Namer.Name] is asked for. *)
Inductive NamePart :=
  Namespace | CRName | ClusterName | ShardName | ReplicaName | HostName.

(** The four interfaces of package [api] the type switch tests: an
    object of each answers the namer and (all but the custom resource)
    has a runtime address. *)
Record ICustomResource := { cr_name : NamePart -> string }.
Record ICluster := { cluster_name : NamePart -> string; cluster_address : Address }.
Record IShard := { shard_name : NamePart -> string; shard_address : Address }.
Record IHost := { host_name : NamePart -> string; host_address : Address }.

(** A value of type [any]: which of the four interfaces its dynamic type
    implements (a [nil] scope implements none).  A type switch takes the
    first case that matches. *)
Record any := mkAny {
  asICustomResource : option ICustomResource;
  asICluster : option ICluster;
  asIShard : option IShard;
  asIHost : option IHost
}.

(** What [macro.go] uses and the source tree does not hold: the macro
    names (constants of the package), [strconv.Itoa], the replacer of
    [strings.NewReplacer] and [util.MapReplacer]. *)
Class Deps := {
  MacrosNamespace : string;
  MacrosChiName : string;
  MacrosClusterName : string;
  MacrosClusterIndex : string;
  MacrosShardName : string;
  MacrosShardIndex : string;
  MacrosShardScopeIndex : string;
  MacrosReplicaName : string;
  MacrosReplicaIndex : string;
  MacrosReplicaScopeIndex : string;
  MacrosHostName : string;
  MacrosChiScopeIndex : string;
  MacrosChiScopeCycleIndex : string;
  MacrosChiScopeCycleOffset : string;
  MacrosClusterScopeIndex : string;
  MacrosClusterScopeCycleIndex : string;
  MacrosClusterScopeCycleOffset : string;
  MacrosClusterScopeCycleHeadPointsToPreviousCycleTail : string;
  Itoa : Z -> string;
  (** [strings.NewReplacer(oldnew...).Replace(line)] *)
  Replace : list (string * string) -> string -> string;
  (** [util.NewMapReplacer(r).Replace(m)] *)
  MapReplace : (string -> string) -> gmap string string -> gmap string string
}.

(** clusterScopeIndexOfPreviousCycleTail gets cluster-scope index of
    previous cycle tail *)
Definition clusterScopeIndexOfPreviousCycleTail (host : IHost) : Z :=
  if GetClusterScopeCycleOffset (host_address host) =? 0 then
    if GetClusterScopeIndex (host_address host) =? 0 then
      GetClusterScopeIndex (host_address host)
    else
      int_sub (GetClusterScopeIndex (host_address host)) 1
  else
    GetClusterScopeIndex (host_address host).

Section Engine.
Context `{Deps}.

Definition newLineMacroReplacerCR (cr : ICustomResource) : string -> string :=
  Replace [
    (MacrosNamespace, cr_name cr Namespace);
    (MacrosChiName, cr_name cr CRName)
  ].

Definition newMapMacroReplacerCR (cr : ICustomResource) :=
  MapReplace (newLineMacroReplacerCR cr).

Definition newLineMacroReplacerCluster (cluster : ICluster) : string -> string :=
  Replace [
    (MacrosNamespace, cluster_name cluster Namespace);
    (MacrosChiName, cluster_name cluster CRName);
    (MacrosClusterName, cluster_name cluster ClusterName);
    (MacrosClusterIndex, Itoa (GetClusterIndex (cluster_address cluster)))
  ].

Definition newMapMacroReplacerCluster (cluster : ICluster) :=
  MapReplace (newLineMacroReplacerCluster cluster).

Definition newLineMacroReplacerShard (shard : IShard) : string -> string :=
  Replace [
    (MacrosNamespace, shard_name shard Namespace);
    (MacrosChiName, shard_name shard CRName);
    (MacrosClusterName, shard_name shard ClusterName);
    (MacrosClusterIndex, Itoa (GetClusterIndex (shard_address shard)));
    (MacrosShardName, shard_name shard ShardName);
    (MacrosShardIndex, Itoa (GetShardIndex (shard_address shard)))
  ].

Definition newMapMacroReplacerShard (shard : IShard) :=
  MapReplace (newLineMacroReplacerShard shard).

Definition newLineMacroReplacerHost (host : IHost) : string -> string :=
  let a := host_address host in
  Replace [
    (MacrosNamespace, host_name host Namespace);
    (MacrosChiName, host_name host CRName);
    (MacrosClusterName, host_name host ClusterName);
    (MacrosClusterIndex, Itoa (GetClusterIndex a));
    (MacrosShardName, host_name host ShardName);
    (MacrosShardIndex, Itoa (GetShardIndex a));
    (MacrosShardScopeIndex, Itoa (GetShardScopeIndex a));
    (MacrosReplicaName, host_name host ReplicaName);
    (MacrosReplicaIndex, Itoa (GetReplicaIndex a));
    (MacrosReplicaScopeIndex, Itoa (GetReplicaScopeIndex a));
    (MacrosHostName, host_name host HostName);
    (MacrosChiScopeIndex, Itoa (GetCRScopeIndex a));
    (MacrosChiScopeCycleIndex, Itoa (GetCRScopeCycleIndex a));
    (MacrosChiScopeCycleOffset, Itoa (GetCRScopeCycleOffset a));
    (MacrosClusterScopeIndex, Itoa (GetClusterScopeIndex a));
    (MacrosClusterScopeCycleIndex, Itoa (GetClusterScopeCycleIndex a));
    (MacrosClusterScopeCycleOffset, Itoa (GetClusterScopeCycleOffset a));
    (MacrosClusterScopeCycleHeadPointsToPreviousCycleTail,
       Itoa (clusterScopeIndexOfPreviousCycleTail host))
  ].

Definition newMapMacroReplacerHost (host : IHost) :=
  MapReplace (newLineMacroReplacerHost host).

(** MacrosEngine; the namer is the fixed [short.NewNamer(short.TargetNames)],
    reached through the [_name] fields of the scope objects. *)
Record MacrosEngine := { scope : any }.

Definition Macro (scope : any) : MacrosEngine := {| scope := scope |}.

(** Line expands line with macros(es) *)
Definition Line (m : MacrosEngine) (line : string) : string :=
  match asICustomResource (scope m) with
  | Some t => newLineMacroReplacerCR t line
  | None =>
  match asICluster (scope m) with
  | Some t => newLineMacroReplacerCluster t line
  | None =>
  match asIShard (scope m) with
  | Some t => newLineMacroReplacerShard t line
  | None =>
  match asIHost (scope m) with
  | Some t => newLineMacroReplacerHost t line
  | None => "unknown scope"
  end end end end.

(** Map expands map with macros(es) *)
Definition Map (m : MacrosEngine) (_map : gmap string string) : gmap string string :=
  match asICustomResource (scope m) with
  | Some t => newMapMacroReplacerCR t _map
  | None =>
  match asICluster (scope m) with
  | Some t => newMapMacroReplacerCluster t _map
  | None =>
  match asIShard (scope m) with
  | Some t => newMapMacroReplacerShard t _map
  | None =>
  match asIHost (scope m) with
  | Some t => newMapMacroReplacerHost t _map
  | None => {[ "unknown scope" := "unknown scope" ]}
  end end end end.

End Engine.

End Macro.

(** ** The driver, [github.com/z-division/go-zookeeper/zk]

  Only what the client uses of it: handles, session states, the
  distinguished fault and the argument and result types of the requests. *)

Module zk.

(** A [*zk.Conn]: the identity of the handle. *)
Definition Conn := nat.

Inductive State :=
| StateUnknown
| StateDisconnected
| StateConnecting
| StateAuthFailed
| StateConnectedReadOnly
| StateSaslAuthenticated
| StateExpired
| StateConnected
| StateHasSession.

(** A notification of the session's event channel; [Delay] is the time,
    in nanoseconds, that passes between the previous notification (or
    the connect call) and this one. *)
Record Event := mkEvent { Delay : Z; EventState : State }.

(** Faults of a request: [ErrConnectionClosed] and all the others. *)
Inductive Error := ErrConnectionClosed | ErrCode (code : Z).

Record Stat := mkStat { Version : Z }.
Record ACL := mkACL { Perms : Z; Scheme : string; ID : string }.

#[global] Instance State_eq_dec : EqDecision State.
Proof. solve_decision. Defined.
#[global] Instance Error_eq_dec : EqDecision Error.
Proof. solve_decision. Defined.

End zk.

(** ** The counting semaphore, [golang.org/x/sync/semaphore] *)

Module semaphore.

Record Weighted := mkWeighted { size : Z; cur : Z }.

Definition NewWeighted (n : Z) : Weighted := {| size := n; cur := 0 |}.

(** A permit is taken at once when one is free. *)
Definition TryAcquire (s : Weighted) : option Weighted :=
  if cur s + 1 <=? size s then Some {| size := size s; cur := cur s + 1 |} else None.

(** [Release(1)]; releasing more than is held panics. *)
Definition Release (s : Weighted) : option Weighted :=
  if cur s - 1 <? 0 then None else Some {| size := size s; cur := cur s - 1 |}.

End semaphore.

(** ** Package [zookeeper] *)

Module Zookeeper.
Import Strings.

Definition second : Z := 1000000000.

Definition maxRetriesNum : nat := 3.

(** The package variables. *)
Class Globals := {
  maxConcurrentRequests : Z;
  timeoutConnect : Z;
  timeoutKeepAlive : Z;
  certFile : string;
  keyFile : string;
  caFile : string;
  authFile : string
}.

(** Their initial values. *)
Definition defaults : Globals := {|
  maxConcurrentRequests := 32;
  timeoutConnect := 30 * second;
  timeoutKeepAlive := 30 * second;
  certFile := "";
  keyFile := "";
  caFile := "";
  authFile := ""
|}.

Inductive ctxError := Canceled | DeadlineExceeded.

Inductive error :=
| ErrZk (e : zk.Error)        (* a fault of a request *)
| ErrConnect (code : Z)       (* [zk.Connect] failed *)
| ErrCtx (e : ctxError)       (* [ctx.Err()] *)
| ErrStateAuthFailed          (* "zk ensureConnection failed: StateAuthFailed" *)
| ErrMaxRetries.              (* "max retries number reached" *)

#[global] Instance ctxError_eq_dec : EqDecision ctxError.
Proof. solve_decision. Defined.
#[global] Instance error_eq_dec : EqDecision error.
Proof. solve_decision. Defined.

(** A [context.Context]: the instant its [Done] channel is closed, if
    ever, and what [Err] answers from then on. *)
Record Context := mkContext { done_at : option Z; cause : ctxError }.

Definition Background : Context := {| done_at := None; cause := Canceled |}.

Definition Done (ctx : Context) (t : Z) : bool :=
  match done_at ctx with
  | Some d => d <=? t
  | None => false
  end.

(** [context.WithTimeout(ctx, timeout)] called at instant [t]. *)
Definition WithTimeout (ctx : Context) (t timeout : Z) : Context :=
  if Done ctx (t + timeout) then ctx
  else {| done_at := Some (t + timeout); cause := DeadlineExceeded |}.

(** The outside world: the ensemble behind the driver, the file system,
    the random source and the other goroutines.  The [nat] of an oracle
    is the number of earlier uses, so two uses may be answered
    differently. *)
Class Env := {
  (** [zk.Connect]: the notifications of the new session, or a fault *)
  zk_Connect : nat -> list string -> list zk.Event + Z;
  zk_Get : nat -> zk.Conn -> string -> (list Byte.byte * option zk.Stat) * option zk.Error;
  zk_Exists : nat -> zk.Conn -> string -> (bool * option zk.Stat) * option zk.Error;
  zk_Create : nat -> zk.Conn -> string -> list Byte.byte -> Z -> list zk.ACL -> string * option zk.Error;
  zk_Set : nat -> zk.Conn -> string -> list Byte.byte -> Z -> option zk.Stat * option zk.Error;
  zk_Delete : nat -> zk.Conn -> string -> Z -> option zk.Error;
  zk_AddAuth : zk.Conn -> string -> string -> bool;
  (** what the session monitors and the concurrent callers have made of
      [c.connection] by the time a request returns ([mu] is not held
      while a request is in flight) *)
  concurrently : nat -> option zk.Conn -> option zk.Conn;
  (** [rand.Int64N] *)
  rand_Int64 : nat -> Z;
  (** [tls.LoadX509KeyPair] succeeds *)
  tls_LoadX509KeyPair : string -> string -> bool;
  (** [os.ReadFile]: the content, or a fault *)
  os_ReadFile : string -> option string;
  (** a caller that starts to wait on a saturated gate at the given
      instant is handed a permit by another one after this delay *)
  permit_after : Z -> option Z;
  (** [Acquire] fails on a context that is done already, also when a
      permit is free (the newer releases of the semaphore do) *)
  acquire_checks_done : bool
}.

(** The struct; [mu] is implicit: a block that holds it is one step. *)
Record Connection := mkConnection {
  address : string;
  sema : semaphore.Weighted;
  connection : option zk.Conn
}.

(** One turn of the loop of [retry], as it ended. *)
Inductive Attempt :=
| DialFailed (err : error)
| Called (conn : zk.Conn) (err : option error).

(** The state one goroutine works on: the [Connection] it shares, the
    clock, and the record of what was done to the outside world, newest
    first.  The clock counts what the client itself waits for: its
    sleeps, the [select] of [dial] and the wait in [Acquire]; the time the
    driver and the file system take is not counted, so the clock bounds
    durations from below only. *)
Record World := mkWorld {
  c : Connection;
  now : Z;
  connects : list (list string * option string); (* [zk.Connect]: servers, TLS server name *)
  calls : list zk.Conn;                          (* requests sent, by handle *)
  sleeps : list Z;                               (* [time.Sleep] durations *)
  closed : list zk.Conn;                         (* handles closed *)
  monitors : list (zk.Conn * list zk.Event);     (* monitors started, with the events left to them *)
  auths : list (zk.Conn * string * string);      (* [AddAuth] calls *)
  attempts : list Attempt                        (* turns of [retry] *)
}.

Definition with_c (f : Connection -> Connection) (w : World) : World :=
  mkWorld (f (c w)) (now w) (connects w) (calls w) (sleeps w) (closed w)
          (monitors w) (auths w) (attempts w).
Definition set_connection (v : option zk.Conn) : World -> World :=
  with_c (fun x => mkConnection (address x) (sema x) v).
Definition set_sema (s : semaphore.Weighted) : World -> World :=
  with_c (fun x => mkConnection (address x) s (connection x)).
Definition set_now (t : Z) (w : World) : World :=
  mkWorld (c w) t (connects w) (calls w) (sleeps w) (closed w)
          (monitors w) (auths w) (attempts w).
Definition add_connect (x : list string * option string) (w : World) : World :=
  mkWorld (c w) (now w) (x :: connects w) (calls w) (sleeps w) (closed w)
          (monitors w) (auths w) (attempts w).
Definition add_call (x : zk.Conn) (w : World) : World :=
  mkWorld (c w) (now w) (connects w) (x :: calls w) (sleeps w) (closed w)
          (monitors w) (auths w) (attempts w).
Definition add_sleep (d : Z) (w : World) : World :=
  mkWorld (c w) (now w + d) (connects w) (calls w) (d :: sleeps w) (closed w)
          (monitors w) (auths w) (attempts w).
Definition add_closed (x : zk.Conn) (w : World) : World :=
  mkWorld (c w) (now w) (connects w) (calls w) (sleeps w) (x :: closed w)
          (monitors w) (auths w) (attempts w).
Definition add_monitor (x : zk.Conn * list zk.Event) (w : World) : World :=
  mkWorld (c w) (now w) (connects w) (calls w) (sleeps w) (closed w)
          (x :: monitors w) (auths w) (attempts w).
Definition add_auth (x : zk.Conn * string * string) (w : World) : World :=
  mkWorld (c w) (now w) (connects w) (calls w) (sleeps w) (closed w)
          (monitors w) (x :: auths w) (attempts w).
Definition add_attempt (x : Attempt) (w : World) : World :=
  mkWorld (c w) (now w) (connects w) (calls w) (sleeps w) (closed w)
          (monitors w) (auths w) (x :: attempts w).

(** How a computation ends: it returns; the process exits in
    [log.Fatalf]; it panics; or it waits for ever. *)
Inductive Outcome (A : Type) :=
| Ret (a : A) (w : World)
| Fatal (w : World)
| Panic (w : World)
| Blocked (w : World).
Arguments Ret {A} a w.
Arguments Fatal {A} w.
Arguments Panic {A} w.
Arguments Blocked {A} w.

Definition M (A : Type) : Type := World -> Outcome A.

Definition ret {A} (a : A) : M A := fun w => Ret a w.

Definition bind {A B} (m : M A) (k : A -> M B) : M B :=
  fun w =>
    match m w with
    | Ret a w' => k a w'
    | Fatal w' => Fatal w'
    | Panic w' => Panic w'
    | Blocked w' => Blocked w'
    end.

Notation "'do' x <- m ; k" := (bind m (fun x => k))
  (at level 10, x pattern, m at level 100, k at level 200).

Definition modify (f : World -> World) : M unit := fun w => Ret tt (f w).
Definition Fatalf {A} : M A := fun w => Fatal w.

Definition panic {A} : M A := fun w => Panic w.

Section Client.
Context `{Globals} `{Env}.

(** *** The driver's side *)

(** [zk.Connect(servers, timeoutKeepAlive, dialer, hostProvider)]; the
    handle of the k-th call is [k]: no two calls answer the same one. *)
Definition zkConnect (servers : list string) (tlsServerName : option string)
  : M (zk.Conn * list zk.Event + error) :=
  fun w =>
    let k := length (connects w) in
    let w' := add_connect (servers, tlsServerName) w in
    match zk_Connect k servers with
    | inl events => Ret (inl (k, events)) w'
    | inr code => Ret (inr (ErrConnect code)) w'
    end.

(** [connection.Close()] *)
Definition zkClose (connection : zk.Conn) : M unit :=
  modify (add_closed connection).

(** One blocking request on a handle. *)
Definition request {R} (f : nat -> zk.Conn -> R * option zk.Error)
    (conn : zk.Conn) : M (R * option error) :=
  fun w =>
    let k := length (calls w) in
    let '(r, e) := f k conn in
    Ret (r, ErrZk <$> e)
        (set_connection (concurrently k (connection (c w))) (add_call conn w)).

(** *** The client *)

Definition NewConnection (address : string) : Connection := {|
  address := address;
  sema := semaphore.NewWeighted maxConcurrentRequests;
  connection := None
|}.

(** [c.sema.Acquire(ctx, 1)] *)
Definition Acquire (ctx : Context) : M (option error) :=
  fun w =>
    let s := sema (c w) in
    if acquire_checks_done && Done ctx (now w) then
      Ret (Some (ErrCtx (cause ctx))) w
    else
      match semaphore.TryAcquire s with
      | Some s' => Ret None (set_sema s' w)
      | None =>
          (* the caller waits: for a permit, or for the context *)
          let handed := if 1 <=? semaphore.size s then permit_after (now w) else None in
          match done_at ctx, handed with
          | Some d, Some p =>
              if d <=? now w + Z.max 0 p
              then Ret (Some (ErrCtx (cause ctx))) (set_now (Z.max (now w) d) w)
              else Ret None (set_now (now w + Z.max 0 p) w)
          | Some d, None => Ret (Some (ErrCtx (cause ctx))) (set_now (Z.max (now w) d) w)
          | None, Some p => Ret None (set_now (now w + Z.max 0 p) w)
          | None, None => Blocked w
          end
      end.

(** [c.sema.Release(1)] *)
Definition Release : M unit :=
  fun w =>
    match semaphore.Release (sema (c w)) with
    | Some s' => Ret tt (set_sema s' w)
    | None => Panic w
    end.

(** [time.Sleep(2*time.Second + time.Duration(rand.Int64N(5e9)))] *)
Definition Sleep : M unit :=
  fun w =>
    let jitter := rand_Int64 (length (sleeps w)) mod (5 * second) in
    Ret tt (add_sleep (2 * second + jitter) w).

Definition connect (address : string) : M (zk.Conn * list zk.Event + error) :=
  let servers := Split address "," in
  if bool_decide (certFile ≠ "") && bool_decide (keyFile ≠ "") then
    if Contains address "," then
      Fatalf (* "This TLS zk code requires that the all the zk servers
                 validate to a single server name." *)
    else
      let serverName := hd "" (Split address ":") in
      if negb (tls_LoadX509KeyPair certFile keyFile) then
        Fatalf (* "Unable to load cert %v and key %v, err: %v" *)
      else
        match os_ReadFile caFile with
        | None => Fatalf (* "Unable to open ca cert %v, err %v" *)
        | Some clientCACert => zkConnect servers (Some serverName)
        end
  else
    zkConnect servers None.

(** The [select] loop of [dial].  The context wins over a notification
    that arrives at the very instant it is done; when no notification is
    left the loop waits for the context. *)
Fixpoint dial_select (ctx : Context) (connection : zk.Conn) (events : list zk.Event)
  : M (zk.Conn * list zk.Event + error) :=
  fun w =>
    let arrival :=
      match events with
      | event :: _ => Some (now w + Z.max 0 (zk.Delay event))
      | [] => None
      end in
    let ctx_first :=
      match done_at ctx, arrival with
      | Some d, Some t => d <=? t
      | Some _, None => true
      | None, _ => false
      end in
    if ctx_first then
      (* case <-ctx.Done() *)
      (do _ <- modify (set_now (Z.max (now w) (default 0 (done_at ctx))));
       do _ <- zkClose connection;
       ret (inr (ErrCtx (cause ctx)))) w
    else
      match events with
      | [] => Blocked w
      | event :: events' =>
          (* case event := <-events *)
          (do _ <- modify (set_now (now w + Z.max 0 (zk.Delay event)));
           match zk.EventState event with
           | zk.StateConnected => ret (inl (connection, events'))
           | zk.StateAuthFailed =>
               do _ <- zkClose connection;
               ret (inr ErrStateAuthFailed)
           | _ => dial_select ctx connection events'
           end) w
      end.

Definition dial (ctx : Context) (address : string)
  : M (zk.Conn * list zk.Event + error) :=
  fun w =>
    let ctx := WithTimeout ctx (now w) timeoutConnect in
    (do r <- connect address;
     match r with
     | inr err => ret (inr err)
     | inl (connection, events) => dial_select ctx connection events
     end) w.

Definition connectionAddAuth (ctx : Context) : M unit :=
  if bool_decide (authFile = "") then ret tt
  else
    match os_ReadFile authFile with
    | None => ret tt (* log.Errorf("auth file: %v", err) *)
    | Some authFileContent =>
        let authInfo := TrimRight authFileContent (String "010"%char "") in
        match SplitN2 authInfo ":" with
        | [scheme; auth] =>
            fun w =>
              match connection (c w) with
              | Some conn =>
                  (* a fault of AddAuth is logged only *)
                  let _ := zk_AddAuth conn scheme auth in
                  Ret tt (add_auth (conn, scheme, auth) w)
              | None => Panic w (* nil handle *)
              end
        | _ => ret tt (* "failed to parse auth file content ..." *)
        end
    end.

(** The block [mu.Lock(); if c.connection == connection { c.connection =
    nil }; mu.Unlock()] of [retry] and of the monitor. *)
Definition invalidate (conn : zk.Conn) : M unit :=
  fun w =>
    if bool_decide (connection (c w) = Some conn)
    then Ret tt (set_connection None w)
    else Ret tt w.

Definition ensureConnection (ctx : Context) : M (zk.Conn + error) :=
  fun w =>
    match connection (c w) with
    | None =>
        (do r <- dial ctx (address (c w));
         match r with
         | inr err => ret (inr err)
         | inl (conn, events) =>
             do _ <- modify (set_connection (Some conn));
             do _ <- modify (add_monitor (conn, events)); (* go c.connectionEventsProcessor *)
             do _ <- connectionAddAuth ctx;
             ret (inl conn)
         end) w
    | Some conn => Ret (inl conn) w
    end.

(** The loop of [retry]: turn [i], with [left] turns to go; [r] is what
    the closure has assigned to the caller's results so far. *)
Fixpoint retry_loop {R} (ctx : Context) (fn : zk.Conn -> M (R * option error))
    (left i : nat) (r : R) : M (R * option error) :=
  match left with
  | O => ret (r, Some ErrMaxRetries)
  | S left' =>
      do _ <- (if (0 <? i)%nat then Sleep else ret tt);
      do ce <- ensureConnection ctx;
      match ce with
      | inr err =>
          do _ <- modify (add_attempt (DialFailed err));
          retry_loop ctx fn left' (S i) r (* Retry *)
      | inl conn =>
          do re <- fn conn;
          let '(r', err) := re in
          do _ <- modify (add_attempt (Called conn err));
          if bool_decide (err = Some (ErrZk zk.ErrConnectionClosed)) then
            do _ <- invalidate conn;
            retry_loop ctx fn left' (S i) r' (* Retry *)
          else
            ret (r', err) (* Got result *)
      end
  end.

(** [retry]; [r0] holds the zero values of the caller's named results. *)
Definition retry {R} (ctx : Context) (fn : zk.Conn -> M (R * option error)) (r0 : R)
  : M (R * option error) :=
  do err <- Acquire ctx;
  match err with
  | Some e => ret (r0, Some e)
  | None =>
      do res <- retry_loop ctx fn maxRetriesNum 0 r0;
      do _ <- Release; (* deferred *)
      ret res
  end.

Definition Get (ctx : Context) (path : string)
  : M ((list Byte.byte * option zk.Stat) * option error) :=
  retry ctx (request (fun k conn => zk_Get k conn path)) ([], None).

Definition Exists (ctx : Context) (path : string)
  : M ((bool * option zk.Stat) * option error) :=
  retry ctx (request (fun k conn => zk_Exists k conn path)) (false, None).

Definition Create (ctx : Context) (path : string) (value : list Byte.byte)
    (flags : Z) (acl : list zk.ACL) : M (string * option error) :=
  retry ctx (request (fun k conn => zk_Create k conn path value flags acl)) "".

Definition Set_ (ctx : Context) (path : string) (value : list Byte.byte)
    (version : Z) : M (option zk.Stat * option error) :=
  retry ctx (request (fun k conn => zk_Set k conn path value version)) None.

Definition Delete (ctx : Context) (path : string) (version : Z)
  : M (unit * option error) :=
  retry ctx (request (fun k conn => (tt, zk_Delete k conn path version))) tt.

Definition Close : M (option error) :=
  fun w =>
    match connection (c w) with
    | Some conn => (do _ <- zkClose conn; ret None) w
    | None => Ret None w
    end.

(** The session monitor; it answers the events it has left unread. *)
Fixpoint connectionEventsProcessor (conn : zk.Conn) (events : list zk.Event)
  : M (list zk.Event) :=
  match events with
  | [] => ret []
  | event :: events' =>
      let shouldCloseConnection :=
        match zk.EventState event with
        | zk.StateExpired | zk.StateConnecting => true
        | _ => false
        end in
      match zk.EventState event with
      | zk.StateExpired | zk.StateConnecting | zk.StateDisconnected =>
          do _ <- invalidate conn;
          do _ <- (if shouldCloseConnection then zkClose conn else ret tt);
          ret events' (* "session for addr %v ended" *)
      | _ =>
          connectionEventsProcessor conn events' (* "session for addr %v event" *)
      end
  end.

(** The five operations of the client, and a call of one of them that
    keeps only its fault. *)
Inductive Operation :=
| OpGet (path : string)
| OpExists (path : string)
| OpCreate (path : string) (value : list Byte.byte) (flags : Z) (acl : list zk.ACL)
| OpSet (path : string) (value : list Byte.byte) (version : Z)
| OpDelete (path : string) (version : Z).

Definition perform (ctx : Context) (op : Operation) : M (option error) :=
  match op with
  | OpGet path => do x <- Get ctx path; ret (snd x)
  | OpExists path => do x <- Exists ctx path; ret (snd x)
  | OpCreate path value flags acl => do x <- Create ctx path value flags acl; ret (snd x)
  | OpSet path value version => do x <- Set_ ctx path value version; ret (snd x)
  | OpDelete path version => do x <- Delete ctx path version; ret (snd x)
  end.

(** *** Vocabulary of the statements *)

(** [m] run in [w] returns, and [Q] holds of what it returns; or the
    process exits in [log.Fatalf], and [F] holds then. *)
Definition ends {A} (m : M A) (w : World) (Q : A -> World -> Prop) (F : World -> Prop) : Prop :=
  match m w with
  | Ret a w' => Q a w'
  | Fatal w' => F w'
  | Panic _ | Blocked _ => False
  end.

(** A certificate and a key are configured: the TLS branch of [connect]. *)
Definition tls_configured : Prop := certFile ≠ "" ∧ keyFile ≠ "".

(** The caller gets through the gate. *)
Definition passes_gate (ctx : Context) (w w1 : World) : Prop :=
  0 <= semaphore.cur (sema (c w)) ∧ Acquire ctx w = Ret None w1.

(** What a turn did to the shared state apart from [c.connection]. *)
Definition same_gate (w w' : World) : Prop :=
  sema (c w') = sema (c w) ∧ address (c w') = address (c w).

End Client.

Definition closedFault : option error := Some (ErrZk zk.ErrConnectionClosed).

(** A turn that [retry] follows by another one (or by giving up). *)
Definition retried (a : Attempt) : Prop :=
  match a with
  | DialFailed _ => True
  | Called _ err => err = closedFault
  end.

(** The handle a turn sent its request on, if it sent one. *)
Definition sent (a : Attempt) : option zk.Conn :=
  match a with
  | DialFailed _ => None
  | Called conn _ => Some conn
  end.

(** What the loop of [retry] did between [w] and [w'] when it ended with
    [err], having at most [left] turns, the first one numbered [i]: the
    turns [h] it took, newest first.  Every turn but the first of the call
    sleeps; every turn dials at most once, the first one does when no
    session is cached, and the requests sent are those of the turns that
    had a session; the loop ends either
    after [left] turns that were all followed by another one, with "max
    retries number reached", or with a turn whose request answered
    something else than the session-closed fault, and then with that
    answer. *)
Definition loop_ran (left i : nat) (w : World) (err : option error) (w' : World) : Prop :=
  exists h : list Attempt,
    attempts w' = (h ++ attempts w)%list
    ∧ sema (c w') = sema (c w) ∧ address (c w') = address (c w)
    ∧ now w <= now w'
    ∧ (length h <= left)%nat
    ∧ length (sleeps w')
      = (length (sleeps w) + length h - (if i is O then min 1 (length h) else 0))%nat
    ∧ calls w' = (omap sent h ++ calls w)%list
    ∧ (length (connects w) <= length (connects w') <= length (connects w) + length h)%nat
    ∧ (connection (c w) = None -> (0 < left)%nat ->
       (length (connects w) < length (connects w'))%nat)
    ∧ (forall e, err ≠ Some (ErrCtx e))
    ∧ ((err = Some ErrMaxRetries ∧ length h = left ∧ Forall retried h)
       ∨ (exists conn h',
            h = Called conn err :: h' ∧ err ≠ closedFault
            ∧ err ≠ Some ErrMaxRetries ∧ Forall retried h')).

(** The notifications [dial] passes over. *)
Definition passed_over (e : zk.Event) : Prop :=
  zk.EventState e ≠ zk.StateConnected ∧ zk.EventState e ≠ zk.StateAuthFailed.

(** The instant the last of [events] arrives when the first is awaited
    from [t]. *)
Definition arrival (t : Z) (events : list zk.Event) : Z :=
  foldl (fun t e => t + Z.max 0 (zk.Delay e)) t events.

(** A world in which nothing has happened yet. *)
Definition fresh (conn : Connection) : World := {|
  c := conn; now := 0; connects := []; calls := []; sleeps := [];
  closed := []; monitors := []; auths := []; attempts := []
|}.

End Zookeeper.

(** ** Many callers on one client

    The operations of several goroutines on one [Connection].  Each
    caller runs [retry] as it is written; [retry] is cut at the points
    where another goroutine can move: at [c.sema.Acquire], where the
    caller may have to wait, at the driver call [fn(connection)], which is
    made with neither the mutex nor anything else held but the permit, at
    the deferred [c.sema.Release], and between the blocks of the loop.
    The steps themselves are those of the sequential embedding: a caller
    that is read without any other goroutine in between ([run]) is the
    operation of module [Zookeeper]. *)

Module Gate.
Import Zookeeper.

(** What a caller has left to do. *)
Inductive Prog (R : Type) : Type :=
| Return (r : R)                                          (* it has returned *)
| AcquireThen (ctx : Context) (k : option error -> Prog R) (* [c.sema.Acquire(ctx, 1)] *)
| ReleaseThen (k : Prog R)                                (* [c.sema.Release(1)] *)
| CallThen {A : Type} (fn : M A) (k : A -> Prog R)        (* [fn(connection)] *)
| Then {A : Type} (m : M A) (k : A -> Prog R).            (* a block of the client *)
Arguments Return {R} r.
Arguments AcquireThen {R} ctx k.
Arguments ReleaseThen {R} k.
Arguments CallThen {R A} fn k.
Arguments Then {R A} m k.

(** The caller is inside the driver call: it has been handed a session
    and the call has not returned yet. *)
Definition in_call {R} (p : Prog R) : bool :=
  match p with
  | CallThen _ _ => true
  | _ => false
  end.

(** The caller is in [Acquire]. *)
Definition in_acquire {R} (p : Prog R) : bool :=
  match p with
  | AcquireThen _ _ => true
  | _ => false
  end.

(** The caller has returned. *)
Definition returned {R} (p : Prog R) : bool :=
  match p with
  | Return _ => true
  | _ => false
  end.

(** One caller: the permits it has acquired and not released, and what
    it has left to do. *)
Record Caller := mkCaller { held : nat; todo : Prog (option error) }.

(** The process: the state the goroutines share, whether [log.Fatalf]
    has ended it, and the callers. *)
Record Pool := mkPool { world : World; exited : bool; callers : list Caller }.

Definition permits (p : Pool) : nat := sum_list_with held (callers p).

Definition calling (p : Pool) : nat :=
  length (filter (fun x => in_call (todo x) = true) (callers p)).

Definition waiting (p : Pool) : nat :=
  length (filter (fun x => in_acquire (todo x) = true) (callers p)).

Section Callers.
Context `{Globals} `{Env}.

(** A caller on its own. *)
Fixpoint run {R} (p : Prog R) : M R :=
  match p with
  | Return r => ret r
  | AcquireThen ctx k => do err <- Acquire ctx; run (k err)
  | ReleaseThen k => do _ <- Release; run k
  | CallThen fn k => do a <- fn; run (k a)
  | Then m k => do a <- m; run (k a)
  end.

(** The loop of [retry], then [k]. *)
Fixpoint retry_loop_steps {R X} (ctx : Context) (fn : zk.Conn -> M (R * option error))
    (left i : nat) (r : R) (k : R * option error -> Prog X) : Prog X :=
  match left with
  | O => k (r, Some ErrMaxRetries)
  | S left' =>
      Then (if (0 <? i)%nat then Sleep else ret tt) (fun _ =>
      Then (ensureConnection ctx) (fun ce =>
      match ce with
      | inr err =>
          Then (modify (add_attempt (DialFailed err))) (fun _ =>
          retry_loop_steps ctx fn left' (S i) r k) (* Retry *)
      | inl conn =>
          CallThen (fn conn) (fun re =>
          let '(r', err) := re in
          Then (modify (add_attempt (Called conn err))) (fun _ =>
          if bool_decide (err = Some (ErrZk zk.ErrConnectionClosed)) then
            Then (invalidate conn) (fun _ =>
            retry_loop_steps ctx fn left' (S i) r' k) (* Retry *)
          else
            k (r', err))) (* Got result *)
      end))
  end.

(** [retry], then [k]: the deferred [Release] runs when the loop is
    left, before the caller of [retry] goes on. *)
Definition retry_steps {R X} (ctx : Context) (fn : zk.Conn -> M (R * option error))
    (r0 : R) (k : R * option error -> Prog X) : Prog X :=
  AcquireThen ctx (fun err =>
    match err with
    | Some e => k (r0, Some e)
    | None =>
        retry_loop_steps ctx fn maxRetriesNum 0 r0 (fun res => ReleaseThen (k res))
    end).

(** The five operations. *)
Definition perform_steps (ctx : Context) (op : Operation) : Prog (option error) :=
  match op with
  | OpGet path =>
      retry_steps ctx (request (fun k conn => zk_Get k conn path)) ([], None)
        (fun x => Return (snd x))
  | OpExists path =>
      retry_steps ctx (request (fun k conn => zk_Exists k conn path)) (false, None)
        (fun x => Return (snd x))
  | OpCreate path value flags acl =>
      retry_steps ctx (request (fun k conn => zk_Create k conn path value flags acl)) ""
        (fun x => Return (snd x))
  | OpSet path value version =>
      retry_steps ctx (request (fun k conn => zk_Set k conn path value version)) None
        (fun x => Return (snd x))
  | OpDelete path version =>
      retry_steps ctx (request (fun k conn => (tt, zk_Delete k conn path version))) tt
        (fun x => Return (snd x))
  end.

(** The operations [ops] are called, each by a goroutine of its own, on
    a client that [NewConnection] has just built. *)
Definition arrive (address : string) (ops : list (Context * Operation)) : Pool :=
  {| world := fresh (NewConnection address);
     exited := false;
     callers := (fun x => mkCaller 0 (perform_steps x.1 x.2)) <$> ops |}.

(** Caller [i] moves.  In [Acquire] it gets on when a permit is free
    (then [Acquire] is the one of the sequential embedding, which asks
    nobody); when none is free it waits, and gets out only by its
    context.  Everything else is a block of the sequential embedding run
    on the shared state; a block that ends in [log.Fatalf] ends the
    process. *)
Inductive step (i : nat) (p : Pool) : Pool -> Prop :=
| step_acquire h ctx k err w' :
    exited p = false ->
    callers p !! i = Some (mkCaller h (AcquireThen ctx k)) ->
    is_Some (semaphore.TryAcquire (sema (c (world p)))) ->
    Acquire ctx (world p) = Ret err w' ->
    step i p
      {| world := w'; exited := false;
         callers := <[i := mkCaller (if err is None then S h else h) (k err)]> (callers p) |}
| step_give_up h ctx k d :
    exited p = false ->
    callers p !! i = Some (mkCaller h (AcquireThen ctx k)) ->
    semaphore.TryAcquire (sema (c (world p))) = None ->
    done_at ctx = Some d ->
    step i p
      {| world := set_now (Z.max (now (world p)) d) (world p); exited := false;
         callers := <[i := mkCaller h (k (Some (ErrCtx (cause ctx))))]> (callers p) |}
| step_release h k w' :
    exited p = false ->
    callers p !! i = Some (mkCaller h (ReleaseThen k)) ->
    Release (world p) = Ret tt w' ->
    step i p
      {| world := w'; exited := false;
         callers := <[i := mkCaller (pred h) k]> (callers p) |}
| step_call h A (fn : M A) k a w' :
    exited p = false ->
    callers p !! i = Some (mkCaller h (CallThen fn k)) ->
    fn (world p) = Ret a w' ->
    step i p
      {| world := w'; exited := false;
         callers := <[i := mkCaller h (k a)]> (callers p) |}
| step_then h A (m : M A) k a w' :
    exited p = false ->
    callers p !! i = Some (mkCaller h (Then m k)) ->
    m (world p) = Ret a w' ->
    step i p
      {| world := w'; exited := false;
         callers := <[i := mkCaller h (k a)]> (callers p) |}
| step_exit h A (m : M A) k w' :
    exited p = false ->
    callers p !! i = Some (mkCaller h (CallThen m k))
    ∨ callers p !! i = Some (mkCaller h (Then m k)) ->
    m (world p) = Fatal w' ->
    step i p {| world := w'; exited := true; callers := callers p |}.

Inductive reachable (p0 : Pool) : Pool -> Prop :=
| reach_start : reachable p0 p0
| reach_step p p' i : reachable p0 p -> step i p p' -> reachable p0 p'.

(** A block that returns, or ends the process as only the TLS set-up of
    [connect] does, and leaves the gate as it is. *)
Definition keeps_gate {A} (m : M A) : Prop :=
  forall w, ends m w (fun _ w' => sema (c w') = sema (c w))
                     (fun w' => sema (c w') = sema (c w) ∧ tls_configured).

(** What is left of a caller that holds no permit: no driver call, no
    release. *)
Fixpoint outside {R} (p : Prog R) : Prop :=
  match p with
  | Return _ => True
  | Then m k => keeps_gate m ∧ forall a, outside (k a)
  | _ => False
  end.

(** What is left of a caller that holds a permit: whatever it does and
    however its blocks end, it releases once, after its last driver call,
    and does not acquire. *)
Fixpoint inside {R} (p : Prog R) : Prop :=
  match p with
  | ReleaseThen k => outside k
  | CallThen fn k => keeps_gate fn ∧ forall a, inside (k a)
  | Then m k => keeps_gate m ∧ forall a, inside (k a)
  | _ => False
  end.

(** A caller in front of the gate. *)
Definition before {R} (p : Prog R) : Prop :=
  match p with
  | AcquireThen ctx k => inside (k None) ∧ forall e, outside (k (Some e))
  | _ => False
  end.

Definition in_step (x : Caller) : Prop :=
  match held x with
  | 0%nat => before (todo x) ∨ outside (todo x)
  | 1%nat => inside (todo x)
  | _ => False
  end.

(** The permits out are those the callers hold, and every caller is
    where its permits say. *)
Definition balanced (p : Pool) : Prop :=
  semaphore.size (sema (c (world p))) = maxConcurrentRequests
  ∧ semaphore.cur (sema (c (world p))) = Z.of_nat (permits p)
  ∧ semaphore.cur (sema (c (world p))) <= Z.max 0 maxConcurrentRequests
  ∧ (exited p = true -> tls_configured)
  ∧ Forall in_step (callers p).

(** The first [k] callers go through [Acquire]. *)
Fixpoint enter_first (k : nat) (p : Pool) : Pool :=
  match k with
  | O => p
  | S k' =>
      let p' := enter_first k' p in
      match callers p' !! k' with
      | Some (mkCaller h (AcquireThen ctx cont)) =>
          match semaphore.TryAcquire (sema (c (world p'))), Acquire ctx (world p') with
          | Some _, Ret err w' =>
              {| world := w'; exited := false;
                 callers := <[k' := mkCaller (if err is None then S h else h) (cont err)]>
                              (callers p') |}
          | _, _ => p'
          end
      | _ => p'
      end
  end.

End Callers.

End Gate.

(** ** Concrete inputs *)

Module Samples.
Import Macro.

(** A scope that is none of the four kinds: [nil]. *)
Definition nil_scope : any := mkAny None None None None.

(** The macro names of the operator, and replacers that leave their
    input as it is. *)
Definition deps : Deps := {|
  MacrosNamespace := "{namespace}";
  MacrosChiName := "{chi}";
  MacrosClusterName := "{cluster}";
  MacrosClusterIndex := "{clusterIndex}";
  MacrosShardName := "{shard}";
  MacrosShardIndex := "{shardIndex}";
  MacrosShardScopeIndex := "{shardScopeIndex}";
  MacrosReplicaName := "{replica}";
  MacrosReplicaIndex := "{replicaIndex}";
  MacrosReplicaScopeIndex := "{replicaScopeIndex}";
  MacrosHostName := "{host}";
  MacrosChiScopeIndex := "{chiScopeIndex}";
  MacrosChiScopeCycleIndex := "{chiScopeCycleIndex}";
  MacrosChiScopeCycleOffset := "{chiScopeCycleOffset}";
  MacrosClusterScopeIndex := "{clusterScopeIndex}";
  MacrosClusterScopeCycleIndex := "{clusterScopeCycleIndex}";
  MacrosClusterScopeCycleOffset := "{clusterScopeCycleOffset}";
  MacrosClusterScopeCycleHeadPointsToPreviousCycleTail :=
    "{clusterScopeCycleHeadPointsToPreviousCycleTail}";
  Itoa := pretty;
  Replace := fun _ line => line;
  MapReplace := fun _ m => m
|}.

(** A host whose cluster-scope index is [index] and whose cluster-scope
    cycle offset is [offset]. *)
Definition host_at (index offset : Z) : IHost := {|
  host_name := fun _ => "h";
  host_address := mkAddress 0 0 0 0 0 0 0 0 index 0 offset
|}.

Import Zookeeper.

Definition ms : Z := 1000000.

(** A session that reports "connecting" at once and "connected" after
    [d] nanoseconds, "disconnected" a second later. *)
Definition connected_after (d : Z) : list zk.Event :=
  [zk.mkEvent 0 zk.StateConnecting; zk.mkEvent d zk.StateConnected;
   zk.mkEvent second zk.StateDisconnected].

(** A session that is refused its credentials after [d] nanoseconds. *)
Definition refused_after (d : Z) : list zk.Event :=
  [zk.mkEvent 0 zk.StateConnecting; zk.mkEvent d zk.StateAuthFailed].

(** An outside world: the k-th [zk.Connect] is answered by [sessions k],
    the k-th request by the fault [faults k], and [others k] is what the
    other goroutines do to the cached session during the k-th request.
    The files can be read, no permit is ever handed over. *)
Definition ensemble (sessions : nat -> list zk.Event + Z)
    (faults : nat -> option zk.Error)
    (others : nat -> option zk.Conn -> option zk.Conn) : Env := {|
  zk_Connect := fun k _ => sessions k;
  zk_Get := fun k _ _ => (([], None), faults k);
  zk_Exists := fun k _ _ => ((false, None), faults k);
  zk_Create := fun k _ path _ _ _ => (path, faults k);
  zk_Set := fun k _ _ _ _ => (None, faults k);
  zk_Delete := fun k _ _ _ => faults k;
  zk_AddAuth := fun _ _ _ => true;
  concurrently := others;
  rand_Int64 := fun k => 1234567891 * Z.of_nat (S k);
  tls_LoadX509KeyPair := fun _ _ => true;
  os_ReadFile := fun _ => Some "digest:operator:secret";
  permit_after := fun _ => None;
  acquire_checks_done := true
|}.

Definition nobody : nat -> option zk.Conn -> option zk.Conn := fun _ cached => cached.

(** Every session connects after 5 ms; every request times out. *)
Definition env_timeouts : Env :=
  ensemble (fun _ => inl (connected_after (5 * ms)))
           (fun _ => Some (zk.ErrCode (-7))) nobody.

(** Every session connects after 5 ms and is lost before the request. *)
Definition env_closed : Env :=
  ensemble (fun _ => inl (connected_after (5 * ms)))
           (fun _ => Some zk.ErrConnectionClosed) nobody.

(** The first request finds its session closed, the second succeeds. *)
Definition env_closed_once : Env :=
  ensemble (fun _ => inl (connected_after (5 * ms)))
           (fun k => if k is O then Some zk.ErrConnectionClosed else None) nobody.


(** The ensemble accepts the transport and never sends a notification. *)
Definition env_silent : Env :=
  ensemble (fun _ => inl []) (fun _ => None) nobody.

(** The ensemble refuses the credentials. *)
Definition env_refusing : Env :=
  ensemble (fun _ => inl (refused_after (5 * ms))) (fun _ => None) nobody.

(** A certificate and a key are configured. *)
Definition tls_globals : Globals := {|
  maxConcurrentRequests := 32;
  timeoutConnect := 30 * second;
  timeoutKeepAlive := 30 * second;
  certFile := "/etc/zk/tls.crt";
  keyFile := "/etc/zk/tls.key";
  caFile := "/etc/zk/ca.crt";
  authFile := ""
|}.

(** A new client of one host, and of two. *)
Definition w0 : World := fresh (NewConnection (H := defaults) "zk1:2181").
Definition w0_two_hosts : World :=
  fresh (NewConnection (H := tls_globals) "zk1:2181,zk2:2181").

(** A client whose 32 permits are all held by other callers. *)
Definition w0_saturated : World :=
  set_sema (semaphore.mkWeighted 32 32) w0.

(** A client with the session 0 cached. *)
Definition w0_cached : World := set_connection (Some 0%nat) (add_connect (["zk1:2181"], None) w0).


(** The caller cancels after one second. *)
Definition cancel_after_1s : Context := {| done_at := Some second; cause := Canceled |}.

End Samples.

(** ** Further vocabulary *)

Module Notions.
Import Strings Zookeeper.

(** [strings.Join(elems, sep)] *)
Fixpoint Join (elems : list string) (sep : string) : string :=
  match elems with
  | [] => ""
  | [x] => x
  | x :: rest => x +:+ sep +:+ Join rest sep
  end.

(** [k] line feeds. *)
Fixpoint newlines (k : nat) : string :=
  match k with
  | O => ""
  | S k' => String "010" (newlines k')
  end.

(** The states on which the session monitor stops, and those among them
    on which it closes the transport. *)
Definition terminal (e : zk.Event) : bool :=
  match zk.EventState e with
  | zk.StateExpired | zk.StateConnecting | zk.StateDisconnected => true
  | _ => false
  end.

Definition closes (e : zk.Event) : bool :=
  match zk.EventState e with
  | zk.StateExpired | zk.StateConnecting => true
  | _ => false
  end.

(** The sum of durations. *)
Definition total (l : list Z) : Z := foldr Z.add 0 l.

(** The range of one [time.Sleep] of [retry]. *)
Definition sleep_range (d : Z) : Prop := 2 * second <= d < 7 * second.

(** Credentials are configured in the file [/etc/zk/auth]. *)
Definition auth_globals : Globals := {|
  maxConcurrentRequests := 32;
  timeoutConnect := 30 * second;
  timeoutKeepAlive := 30 * second;
  certFile := "";
  keyFile := "";
  caFile := "";
  authFile := "/etc/zk/auth"
|}.

(** The outside world of [Samples.env_closed_once], where every file
    holds one line of credentials and a line feed. *)
Definition env_auth : Env := {|
  zk_Connect := fun _ _ => inl (Samples.connected_after (5 * Samples.ms));
  zk_Get := fun k _ _ => (([], None), None);
  zk_Exists := fun k _ _ => ((true, Some (zk.mkStat 3)), None);
  zk_Create := fun k _ path _ _ _ => (path, None);
  zk_Set := fun k _ _ _ _ => (None, None);
  zk_Delete := fun k _ _ _ => None;
  zk_AddAuth := fun _ _ _ => false;
  concurrently := Samples.nobody;
  rand_Int64 := fun k => 987654321 * Z.of_nat (S k);
  tls_LoadX509KeyPair := fun _ _ => true;
  os_ReadFile := fun _ => Some ("digest:operator:secret" +:+ newlines 1);
  permit_after := fun _ => None;
  acquire_checks_done := true
|}.



End Notions.

(** * Properties *)

(** ** [strings] *)

Module StringsFacts.
Import Strings.

Lemma HasPrefix_empty (s : string) : HasPrefix s "" = true.
Proof. by destruct s. Qed.

Lemma HasPrefix_byte (a b : ascii) (s : string) :
  HasPrefix (String a s) (String b "") = bool_decide (a = b).
Proof.
  cbn. destruct (decide (a = b)) as [->|Hne].
  - rewrite HasPrefix_empty. by rewrite bool_decide_eq_true_2.
  - by rewrite bool_decide_eq_false_2.
Qed.

Lemma split_from_nonempty (sep : string) (skip : nat) (cur s : string) :
  split_from sep skip cur s ≠ [].
Proof.
  revert skip cur. induction s as [|a s IH]; intros skip cur; cbn; [discriminate|].
  destruct skip; [|apply IH].
  case_match; [discriminate|apply IH].
Qed.

(** Splitting at a one-byte separator gives more than one piece exactly
    when the separator occurs. *)
Lemma split_from_byte (b : ascii) (cur s : string) :
  (1 < length (split_from (String b "") 0 cur s))%nat ↔ Contains s (String b "") = true.
Proof.
  revert cur. induction s as [|a s IH]; intros cur.
  - cbn. split; [lia|done].
  - change (split_from (String b "") 0 cur (String a s)) with
      (if HasPrefix (String a s) (String b "")
       then cur :: split_from (String b "") 0 "" s
       else split_from (String b "") 0 (cur +:+ String a "") s).
    change (Contains (String a s) (String b "")) with
      (HasPrefix (String a s) (String b "") || Contains s (String b "")).
    rewrite HasPrefix_byte. case_bool_decide as Hab.
    + split; [done|]. intros _. cbn [length].
      pose proof (split_from_nonempty (String b "") 0 "" s) as Hne.
      destruct (split_from _ _ _ s); [done|]. cbn. lia.
    + cbn [orb]. apply IH.
Qed.

Lemma Split_byte (b : ascii) (s : string) :
  (1 < length (Split s (String b "")))%nat ↔ Contains s (String b "") = true.
Proof. apply split_from_byte. Qed.

Lemma Split_two_hosts : Split "zk1:2181,zk2:2181" "," = ["zk1:2181"; "zk2:2181"].
Proof. reflexivity. Qed.

Example Split_one_host : Split "zk1:2181" ":" = ["zk1"; "2181"].
Proof. reflexivity. Qed.

Example SplitN2_auth : SplitN2 "digest:user:secret" ":" = ["digest"; "user:secret"].
Proof. reflexivity. Qed.

Example TrimRight_newlines :
  TrimRight (String "a" (String "010" (String "010" ""))) (String "010" "") = "a".
Proof. reflexivity. Qed.

End StringsFacts.

(** ** Package [macro] *)

Module MacroFacts.
Import Macro.

Lemma wrap_id (z : Z) : is_int z -> wrap z = z.
Proof.
  unfold is_int, int_min, int_max, wrap. intros Hz.
  rewrite Z.mod_small; lia.
Qed.

Lemma int_sub_1_ne (z : Z) : is_int z -> int_sub z 1 ≠ z.
Proof.
  unfold is_int, int_min, int_max, int_sub, wrap. intros Hz Heq.
  destruct (decide (z = - 2 ^ 63)) as [->|Hne]; [vm_compute in Heq; discriminate|].
  rewrite Z.mod_small in Heq; lia.
Qed.

Example tail_of_first_host : clusterScopeIndexOfPreviousCycleTail (Samples.host_at 0 0) = 0.
Proof. reflexivity. Qed.

Example tail_of_cycle_head : clusterScopeIndexOfPreviousCycleTail (Samples.host_at 6 0) = 5.
Proof. reflexivity. Qed.

Example tail_inside_cycle : clusterScopeIndexOfPreviousCycleTail (Samples.host_at 7 1) = 7.
Proof. reflexivity. Qed.

(** C10, as the claim words it, fails: a host whose cluster-scope cycle
    offset is 0 and whose cluster-scope index is -1 is not a host "with
    offset 0 and index greater than 0", yet the function does not return
    its index unchanged: it returns -2. *)
Lemma tail_negative_index :
  let host := Samples.host_at (-1) 0 in
  ¬ (GetClusterScopeCycleOffset (host_address host) = 0
     ∧ 0 < GetClusterScopeIndex (host_address host))
  ∧ clusterScopeIndexOfPreviousCycleTail host = -2
  ∧ clusterScopeIndexOfPreviousCycleTail host
      ≠ GetClusterScopeIndex (host_address host).
Proof. cbn. split; [lia|]. split; [reflexivity|discriminate]. Qed.

(** C10, amended: for every host whose cluster-scope index is an [int],
    clusterScopeIndexOfPreviousCycleTail returns the index minus one (in
    [int] arithmetic; the plain difference unless the index is the least
    [int]) exactly when the cluster-scope cycle offset is 0 and the index
    is not 0, and the index itself otherwise; when the index is not
    negative, neither is the result. *)
Theorem clusterScopeIndexOfPreviousCycleTail_spec (host : IHost) :
  let index := GetClusterScopeIndex (host_address host) in
  let offset := GetClusterScopeCycleOffset (host_address host) in
  is_int index ->
  (clusterScopeIndexOfPreviousCycleTail host = int_sub index 1
     ↔ offset = 0 ∧ index ≠ 0)
  ∧ (¬ (offset = 0 ∧ index ≠ 0) -> clusterScopeIndexOfPreviousCycleTail host = index)
  ∧ (int_min < index -> int_sub index 1 = index - 1)
  ∧ (0 <= index -> 0 <= clusterScopeIndexOfPreviousCycleTail host).
Proof.
  intros index offset Hint.
  unfold clusterScopeIndexOfPreviousCycleTail. fold index offset.
  pose proof (int_sub_1_ne index Hint) as Hne.
  assert (Hsub : int_min < index -> int_sub index 1 = index - 1).
  { intros Hlt. apply wrap_id. unfold is_int, int_min, int_max in *. lia. }
  destruct (Z.eqb_spec offset 0) as [Hoff|Hoff];
    [destruct (Z.eqb_spec index 0) as [Hidx|Hidx]|].
  - split_and!; [split|..]; try tauto; try lia.
  - split_and!; [split|..]; try tauto. intros Hpos.
    rewrite Hsub; unfold int_min in *; lia.
  - split_and!; [split|..]; try tauto. intros Heq. by symmetry in Heq.
Qed.

Lemma clusterScopeIndexOfPreviousCycleTail_spec_witness :
  let host := Samples.host_at 6 0 in
  is_int 6
  ∧ (clusterScopeIndexOfPreviousCycleTail host = int_sub 6 1 ↔ 0 = 0 ∧ 6 ≠ 0)
  ∧ (¬ (0 = 0 ∧ 6 ≠ 0) -> clusterScopeIndexOfPreviousCycleTail host = 6)
  ∧ (int_min < 6 -> int_sub 6 1 = 6 - 1)
  ∧ (0 <= 6 -> 0 <= clusterScopeIndexOfPreviousCycleTail host).
Proof.
  assert (Hint : is_int 6) by (unfold is_int, int_min, int_max; lia).
  split; [exact Hint|].
  exact (clusterScopeIndexOfPreviousCycleTail_spec (Samples.host_at 6 0) Hint).
Defined.

(** C9: for a scope that is neither a custom resource nor a cluster nor a
    shard nor a host, [Line] answers "unknown scope" for every line and
    [Map] answers the map with the one entry "unknown scope" ->
    "unknown scope" for every map. *)
Theorem unknown_scope `{Deps} (s : any) (line : string) (_map : gmap string string) :
  asICustomResource s = None ->
  asICluster s = None ->
  asIShard s = None ->
  asIHost s = None ->
  Line (Macro s) line = "unknown scope"
  ∧ Map (Macro s) _map = {[ "unknown scope" := "unknown scope" ]}.
Proof.
  intros Hcr Hcl Hsh Hho. unfold Line, Map, Macro. cbn.
  by rewrite Hcr, Hcl, Hsh, Hho.
Qed.

Lemma unknown_scope_witness :
  Line (H := Samples.deps) (Macro Samples.nil_scope) "{namespace}/{host}" = "unknown scope"
  ∧ Map (H := Samples.deps) (Macro Samples.nil_scope) {[ "app" := "{chi}" ]}
    = {[ "unknown scope" := "unknown scope" ]}.
Proof.
  apply (unknown_scope (H := Samples.deps) Samples.nil_scope); reflexivity.
Defined.

End MacroFacts.

(** ** Package [zookeeper] *)

Module ZookeeperFacts.
Import Strings Zookeeper.

(** *** The monad *)

Lemma ends_bind {A B} (m : M A) (k : A -> M B) (w : World)
    (Q1 : A -> World -> Prop) (F1 : World -> Prop)
    (Q : B -> World -> Prop) (F : World -> Prop) :
  ends m w Q1 F1 ->
  (forall w', F1 w' -> F w') ->
  (forall a w', Q1 a w' -> ends (k a) w' Q F) ->
  ends (do a <- m; k a) w Q F.
Proof.
  unfold ends, bind. destruct (m w); intros HQ HF Hk; try done; [by apply Hk|by apply HF].
Qed.

Lemma ends_weaken {A} (m : M A) (w : World)
    (Q Q' : A -> World -> Prop) (F F' : World -> Prop) :
  ends m w Q F ->
  (forall a w', Q a w' -> Q' a w') ->
  (forall w', F w' -> F' w') ->
  ends m w Q' F'.
Proof. unfold ends. destruct (m w); intros HQ H1 H2; try done; auto. Qed.

Lemma ends_ret {A} (a : A) (w : World) (Q : A -> World -> Prop) (F : World -> Prop) :
  Q a w -> ends (ret a) w Q F.
Proof. done. Qed.

Lemma bind_Ret {A B} (m : M A) (k : A -> M B) (w w' : World) (a : A) :
  m w = Ret a w' -> (do x <- m; k x) w = k a w'.
Proof. unfold bind. by intros ->. Qed.

Lemma bind_Fatal {A B} (m : M A) (k : A -> M B) (w w' : World) :
  m w = Fatal w' -> (do x <- m; k x) w = Fatal w'.
Proof. unfold bind. by intros ->. Qed.

(** *** Arrival times *)

Lemma arrival_cons (t : Z) (e : zk.Event) (events : list zk.Event) :
  arrival t (e :: events) = arrival (t + Z.max 0 (zk.Delay e)) events.
Proof. reflexivity. Qed.

Lemma arrival_app (t : Z) (l1 l2 : list zk.Event) :
  arrival t (l1 ++ l2) = arrival (arrival t l1) l2.
Proof. apply foldl_app. Qed.

Lemma arrival_ge (t : Z) (events : list zk.Event) : t <= arrival t events.
Proof.
  revert t. induction events as [|e events IH]; intros t; [cbn; lia|].
  rewrite arrival_cons. specialize (IH (t + Z.max 0 (zk.Delay e))). lia.
Qed.

Section Client.
Context `{Globals} `{Env}.

(** *** The handshake of [dial] *)

Lemma set_now_now (w : World) : set_now (now w) w = w.
Proof. by destruct w. Qed.

(** Notifications that are passed over and arrive before the context is
    done only move the clock. *)
Lemma dial_select_skip ctx conn pre rest w :
  Forall passed_over pre ->
  (forall d, done_at ctx = Some d -> arrival (now w) pre < d ∨ pre = []) ->
  dial_select ctx conn (pre ++ rest) w
  = dial_select ctx conn rest (set_now (arrival (now w) pre) w).
Proof.
  revert w. induction pre as [|p pre IH]; intros w Hpre Hd.
  - cbn [app arrival foldl]. by rewrite set_now_now.
  - inversion Hpre as [|? ? [Hp1 Hp2] Hpre']; subst.
    assert (Hlater :
      forall d, done_at ctx = Some d -> now w + Z.max 0 (zk.Delay p) < d).
    { intros d Hctx. destruct (Hd d Hctx) as [Hlt|]; [|done].
      rewrite arrival_cons in Hlt.
      pose proof (arrival_ge (now w + Z.max 0 (zk.Delay p)) pre). lia. }
    change ((p :: pre) ++ rest)%list with (p :: (pre ++ rest))%list.
    cbn [dial_select].
    assert (Hgo : match done_at ctx with
                  | Some d => d <=? now w + Z.max 0 (zk.Delay p)
                  | None => false
                  end = false).
    { destruct (done_at ctx) as [d|]; [|done].
      specialize (Hlater d eq_refl). apply Z.leb_gt. lia. }
    rewrite Hgo. unfold bind at 1, modify at 1.
    specialize (IH (set_now (now w + Z.max 0 (zk.Delay p)) w) Hpre').
    destruct (zk.EventState p); try done; (rewrite IH; [reflexivity|]);
      intros d Hctx; cbn; destruct (Hd d Hctx) as [Hlt|]; try done; by left.
Qed.

(** The next notification arrives before the context is done. *)
Lemma dial_select_event ctx conn e rest w :
  (forall d, done_at ctx = Some d -> now w + Z.max 0 (zk.Delay e) < d) ->
  dial_select ctx conn (e :: rest) w
  = match zk.EventState e with
    | zk.StateConnected => ret (inl (conn, rest))
    | zk.StateAuthFailed => do _ <- zkClose conn; ret (inr ErrStateAuthFailed)
    | _ => dial_select ctx conn rest
    end (set_now (now w + Z.max 0 (zk.Delay e)) w).
Proof.
  intros Hd. cbn [dial_select].
  assert (Hgo : match done_at ctx with
                | Some d => d <=? now w + Z.max 0 (zk.Delay e)
                | None => false
                end = false).
  { destruct (done_at ctx) as [d|]; [|done].
    specialize (Hd d eq_refl). apply Z.leb_gt. lia. }
  rewrite Hgo. reflexivity.
Qed.

(** The context is done before the next notification, if any, arrives. *)
Lemma dial_select_done ctx conn events w d :
  done_at ctx = Some d ->
  match events with
  | e :: _ => d <= now w + Z.max 0 (zk.Delay e)
  | [] => True
  end ->
  dial_select ctx conn events w
  = Ret (inr (ErrCtx (cause ctx))) (add_closed conn (set_now (Z.max (now w) d) w)).
Proof.
  intros Hctx Hd. destruct events as [|e events]; cbn [dial_select]; rewrite Hctx.
  - reflexivity.
  - destruct (Z.leb_spec d (now w + Z.max 0 (zk.Delay e))); [reflexivity|lia].
Qed.

(** A "connected" notification that arrives before the context is done,
    after notifications that are passed over only, ends the loop with the
    session and the events left. *)
Lemma dial_select_connected ctx conn pre e rest w :
  Forall passed_over pre ->
  zk.EventState e = zk.StateConnected ->
  (forall d, done_at ctx = Some d -> arrival (now w) (pre ++ [e]) < d) ->
  dial_select ctx conn (pre ++ e :: rest) w
  = Ret (inl (conn, rest)) (set_now (arrival (now w) (pre ++ [e])) w).
Proof.
  intros Hpre He Hd.
  assert (Hd' : forall d, done_at ctx = Some d ->
                  arrival (now w) pre + Z.max 0 (zk.Delay e) < d).
  { intros d Hctx. specialize (Hd d Hctx). by rewrite arrival_app in Hd. }
  rewrite dial_select_skip; [|done|].
  - rewrite dial_select_event by (cbn; done). rewrite He, arrival_app. reflexivity.
  - intros d Hctx. left. specialize (Hd' d Hctx). lia.
Qed.

(** An "auth failed" notification in that place ends it with a fault,
    the transport closed. *)
Lemma dial_select_auth_failed ctx conn pre e rest w :
  Forall passed_over pre ->
  zk.EventState e = zk.StateAuthFailed ->
  (forall d, done_at ctx = Some d -> arrival (now w) (pre ++ [e]) < d) ->
  dial_select ctx conn (pre ++ e :: rest) w
  = Ret (inr ErrStateAuthFailed)
        (add_closed conn (set_now (arrival (now w) (pre ++ [e])) w)).
Proof.
  intros Hpre He Hd.
  assert (Hd' : forall d, done_at ctx = Some d ->
                  arrival (now w) pre + Z.max 0 (zk.Delay e) < d).
  { intros d Hctx. specialize (Hd d Hctx). by rewrite arrival_app in Hd. }
  rewrite dial_select_skip; [|done|].
  - rewrite dial_select_event by (cbn; done). rewrite He, arrival_app. reflexivity.
  - intros d Hctx. left. specialize (Hd' d Hctx). lia.
Qed.

(** The context done before a notification decides: a fault, the
    transport closed. *)
Lemma dial_select_deadline ctx conn pre rest w d :
  done_at ctx = Some d ->
  Forall passed_over pre ->
  arrival (now w) pre < d ∨ pre = [] ->
  match rest with
  | e :: _ => d <= arrival (now w) (pre ++ [e])
  | [] => True
  end ->
  dial_select ctx conn (pre ++ rest) w
  = Ret (inr (ErrCtx (cause ctx)))
        (add_closed conn (set_now (Z.max (arrival (now w) pre) d) w)).
Proof.
  intros Hctx Hpre Hlt Hrest.
  rewrite dial_select_skip; [|done|].
  - rewrite (dial_select_done _ _ _ _ d Hctx); [reflexivity|].
    destruct rest as [|e rest]; [done|]. by rewrite arrival_app in Hrest.
  - intros d' Hctx'. congruence.
Qed.

(** What the loop answers, whatever the notifications: the handle it was
    given, not closed, when it answers a session; a closed transport and
    one of two faults otherwise. *)
Lemma dial_select_inv ctx conn events w r w' :
  dial_select ctx conn events w = Ret r w' ->
  c w' = c w ∧ connects w' = connects w ∧ calls w' = calls w
  ∧ sleeps w' = sleeps w ∧ monitors w' = monitors w ∧ auths w' = auths w
  ∧ attempts w' = attempts w ∧ now w <= now w'
  ∧ match r with
    | inl (conn', rest) =>
        conn' = conn ∧ closed w' = closed w
        ∧ (exists pre e,
             events = (pre ++ e :: rest)%list ∧ Forall passed_over pre
             ∧ zk.EventState e = zk.StateConnected
             ∧ now w' = arrival (now w) (pre ++ [e]))
        ∧ (forall d, done_at ctx = Some d -> now w' < d)
    | inr err =>
        closed w' = conn :: closed w
        ∧ (err = ErrStateAuthFailed ∨ err = ErrCtx (cause ctx))
    end.
Proof.
  revert w. induction events as [|e events IH]; intros w Hrun.
  - cbn [dial_select] in Hrun. destruct (done_at ctx) as [d|] eqn:Hctx; [|done].
    cbn in Hrun. injection Hrun as <- <-. cbn. split_and!; try done; [lia|by right].
  - cbn [dial_select] in Hrun.
    destruct (match done_at ctx with
              | Some d => d <=? now w + Z.max 0 (zk.Delay e)
              | None => false
              end) eqn:Hfirst.
    + destruct (done_at ctx) as [d|] eqn:Hctx; [|done].
      cbn in Hrun. injection Hrun as <- <-. cbn. split_and!; try done; [lia|by right].
    + assert (Hd : forall d, done_at ctx = Some d -> now w + Z.max 0 (zk.Delay e) < d).
      { intros d Hctx. rewrite Hctx in Hfirst. by apply Z.leb_gt in Hfirst. }
      unfold bind at 1, modify at 1 in Hrun.
      assert (Hpass : zk.EventState e ≠ zk.StateConnected ->
                      zk.EventState e ≠ zk.StateAuthFailed ->
                      dial_select ctx conn events
                        (set_now (now w + Z.max 0 (zk.Delay e)) w) = Ret r w' ->
                      c w' = c w ∧ connects w' = connects w ∧ calls w' = calls w
                      ∧ sleeps w' = sleeps w ∧ monitors w' = monitors w
                      ∧ auths w' = auths w ∧ attempts w' = attempts w
                      ∧ now w <= now w'
                      ∧ match r with
                        | inl (conn', rest) =>
                            conn' = conn ∧ closed w' = closed w
                            ∧ (exists pre e0,
                                 (e :: events) = (pre ++ e0 :: rest)%list
                                 ∧ Forall passed_over pre
                                 ∧ zk.EventState e0 = zk.StateConnected
                                 ∧ now w' = arrival (now w) (pre ++ [e0]))
                            ∧ (forall d, done_at ctx = Some d -> now w' < d)
                        | inr err =>
                            closed w' = conn :: closed w
                            ∧ (err = ErrStateAuthFailed ∨ err = ErrCtx (cause ctx))
                        end).
      { intros Hne1 Hne2 Hrun'.
        destruct (IH _ Hrun') as (Hc & Hco & Hca & Hsl & Hmo & Hau & Hat & Hnow & Hr).
        cbn in Hc, Hco, Hca, Hsl, Hmo, Hau, Hat, Hnow.
        split_and!; try done; [lia|].
        destruct r as [[conn' rest]|err]; [|done].
        destruct Hr as (-> & Hcl & (pre & e0 & -> & Hpre & He0 & Harr) & Hdl).
        split_and!; try done.
        exists (e :: pre), e0. split_and!; try done.
        constructor; [by split|done]. }
      destruct (zk.EventState e) eqn:He; try (by apply Hpass).
      * cbn in Hrun. injection Hrun as <- <-. cbn. split_and!; try done; [lia|].
        by left.
      * cbn in Hrun. injection Hrun as <- <-. cbn. split_and!; try done; try lia.
        exists [], e. split_and!; try done.
Qed.

(** The loop does not wait for ever on a context that has a deadline. *)
Lemma dial_select_returns ctx conn events w d :
  done_at ctx = Some d ->
  exists r w', dial_select ctx conn events w = Ret r w'.
Proof.
  intros Hctx. revert w. induction events as [|e events IH]; intros w.
  - cbn [dial_select]. rewrite Hctx. cbn. eauto.
  - cbn [dial_select]. rewrite Hctx.
    destruct (d <=? now w + Z.max 0 (zk.Delay e)); [cbn; eauto|].
    unfold bind at 1, modify at 1.
    destruct (zk.EventState e); cbn; eauto.
Qed.

(** *** [connect], [dial], [ensureConnection] *)

Lemma WithTimeout_deadline (ctx : Context) (t timeout : Z) :
  exists d, done_at (WithTimeout ctx t timeout) = Some d ∧ d <= t + timeout.
Proof.
  unfold WithTimeout, Done. destruct (done_at ctx) as [d|] eqn:Hctx.
  - destruct (Z.leb_spec d (t + timeout)).
    + exists d. by rewrite Hctx.
    + exists (t + timeout). cbn. split; [done|lia].
  - exists (t + timeout). cbn. split; [done|lia].
Qed.

(** A context that is done stays done through [WithTimeout]. *)
Lemma WithTimeout_done (ctx : Context) (t timeout d : Z) :
  done_at ctx = Some d -> d <= t ->
  exists d', done_at (WithTimeout ctx t timeout) = Some d' ∧ d' <= t.
Proof.
  intros Hctx Hd. unfold WithTimeout, Done. rewrite Hctx.
  destruct (Z.leb_spec d (t + timeout)).
  - exists d. by rewrite Hctx.
  - exists (t + timeout). cbn. split; [done|lia].
Qed.

Lemma tls_configured_bool :
  bool_decide (certFile ≠ "") && bool_decide (keyFile ≠ "") = true ↔ tls_configured.
Proof.
  unfold tls_configured. rewrite andb_true_iff, !bool_decide_eq_true. done.
Qed.

Lemma connect_plain address w :
  ¬ tls_configured ->
  connect address w = zkConnect (Split address ",") None w.
Proof.
  intros Hplain. unfold connect.
  destruct (bool_decide (certFile ≠ "") && bool_decide (keyFile ≠ "")) eqn:Hb; [|done].
  by apply tls_configured_bool in Hb.
Qed.

(** [connect] calls [zk.Connect] once, with the hosts of the address, or
    exits before it does. *)
Lemma connect_ends address w :
  ends (connect address) w
    (fun r w' =>
       (exists tlsName, w' = add_connect (Split address ",", tlsName) w)
       ∧ match r with
         | inl (conn, events) =>
             conn = length (connects w)
             ∧ zk_Connect (length (connects w)) (Split address ",") = inl events
         | inr err =>
             exists code, err = ErrConnect code
             ∧ zk_Connect (length (connects w)) (Split address ",") = inr code
         end)
    (fun w' => w' = w ∧ tls_configured).
Proof.
  assert (Hzk : forall tlsName,
    ends (zkConnect (Split address ",") tlsName) w
      (fun r w' =>
         (exists tlsName, w' = add_connect (Split address ",", tlsName) w)
         ∧ match r with
           | inl (conn, events) =>
               conn = length (connects w)
               ∧ zk_Connect (length (connects w)) (Split address ",") = inl events
           | inr err =>
               exists code, err = ErrConnect code
               ∧ zk_Connect (length (connects w)) (Split address ",") = inr code
           end)
      (fun w' => w' = w ∧ tls_configured)).
  { intros tlsName. unfold ends, zkConnect.
    destruct (zk_Connect _ _) as [events|code] eqn:Hc; (split; [by eexists|]); eauto. }
  unfold connect.
  destruct (bool_decide (certFile ≠ "") && bool_decide (keyFile ≠ "")) eqn:Hb;
    [|apply Hzk].
  apply tls_configured_bool in Hb.
  destruct (Contains address ","); [done|].
  destruct (tls_LoadX509KeyPair certFile keyFile); [|done]. cbn [negb].
  destruct (os_ReadFile caFile); [apply Hzk|done].
Qed.

(** [dial] answers the handle of its own [zk.Connect], not closed; when
    it answers a fault, that handle, if there is one, is closed. *)
Lemma dial_ends ctx address w :
  ends (dial ctx address) w
    (fun r w' =>
       c w' = c w ∧ calls w' = calls w ∧ sleeps w' = sleeps w
       ∧ monitors w' = monitors w ∧ auths w' = auths w ∧ attempts w' = attempts w
       ∧ now w <= now w'
       ∧ length (connects w') = S (length (connects w))
       ∧ match r with
         | inl (conn, rest) => conn = length (connects w) ∧ closed w' = closed w
         | inr err =>
             (closed w' = closed w ∧ exists code, err = ErrConnect code)
             ∨ (closed w' = length (connects w) :: closed w
                ∧ (err = ErrStateAuthFailed ∨ exists e, err = ErrCtx e))
         end)
    (fun w' => w' = w ∧ tls_configured).
Proof.
  unfold dial. eapply ends_bind; [apply connect_ends|done|].
  intros [[conn events]|err] w1 [[tlsName ->] Hr].
  - destruct Hr as [-> _].
    destruct (WithTimeout_deadline ctx (now w) timeoutConnect) as (d & Hd & _).
    destruct (dial_select_returns
                (WithTimeout ctx (now w) timeoutConnect) (length (connects w)) events
                (add_connect (Split address ",", tlsName) w) d Hd) as (r & w' & Hrun).
    unfold ends. rewrite Hrun.
    destruct (dial_select_inv _ _ _ _ _ _ Hrun)
      as (Hc & Hco & Hca & Hsl & Hmo & Hau & Hat & Hnow & Hr).
    cbn in Hc, Hco, Hca, Hsl, Hmo, Hau, Hat, Hnow.
    split_and!; try done; [by rewrite Hco|].
    destruct r as [[conn' rest]|err].
    + by destruct Hr as (-> & Hcl & _).
    + destruct Hr as [Hcl Herr]. right. split; [done|].
      destruct Herr as [->| ->]; eauto.
  - destruct Hr as (code & -> & _). cbn. split_and!; try done. left. eauto.
Qed.

Lemma connectionAddAuth_ends ctx w conn :
  connection (c w) = Some conn ->
  exists w', connectionAddAuth ctx w = Ret tt w'
    ∧ c w' = c w ∧ now w' = now w ∧ connects w' = connects w ∧ calls w' = calls w
    ∧ sleeps w' = sleeps w ∧ closed w' = closed w ∧ monitors w' = monitors w
    ∧ attempts w' = attempts w.
Proof.
  intros Hconn. unfold connectionAddAuth.
  destruct (bool_decide (authFile = "")); [by exists w|].
  destruct (os_ReadFile authFile) as [content|]; [|by exists w].
  destruct (SplitN2 _ _) as [|scheme [|auth [|? ?]]]; try by exists w.
  rewrite Hconn. eexists. split; [done|]. done.
Qed.

(** [ensureConnection] answers the cached session as it is, or dials
    once and caches what the dial answers. *)
Lemma ensureConnection_cached ctx w conn :
  connection (c w) = Some conn -> ensureConnection ctx w = Ret (inl conn) w.
Proof. unfold ensureConnection. by intros ->. Qed.

Lemma ensureConnection_dials ctx w :
  connection (c w) = None ->
  ensureConnection ctx w
  = (do r <- dial ctx (address (c w));
     match r with
     | inr err => ret (inr err)
     | inl (conn, events) =>
         do _ <- modify (set_connection (Some conn));
         do _ <- modify (add_monitor (conn, events));
         do _ <- connectionAddAuth ctx;
         ret (inl conn)
     end) w.
Proof. unfold ensureConnection. by intros ->. Qed.

Lemma ensureConnection_ends ctx w :
  ends (ensureConnection ctx) w
    (fun r w' =>
       same_gate w w' ∧ calls w' = calls w ∧ sleeps w' = sleeps w
       ∧ attempts w' = attempts w ∧ now w <= now w'
       ∧ (length (connects w') <= S (length (connects w)))%nat
       ∧ (length (connects w) <= length (connects w'))%nat
       ∧ (connection (c w) = None -> length (connects w') = S (length (connects w)))
       ∧ match r with
         | inl conn => connection (c w') = Some conn
         | inr err =>
             connection (c w') = None ∧ connection (c w) = None
             ∧ err ≠ ErrMaxRetries ∧ (forall e, err ≠ ErrZk e)
         end)
    (fun w' => w' = w ∧ tls_configured ∧ connection (c w) = None).
Proof.
  destruct (connection (c w)) as [conn|] eqn:Hconn.
  - unfold ends. rewrite (ensureConnection_cached _ _ _ Hconn).
    unfold same_gate. split_and!; try done; lia.
  - unfold ends. rewrite (ensureConnection_dials _ _ Hconn).
    eapply ends_bind; [apply dial_ends|by intros w1 [-> Htls]|].
    intros [[conn events]|err] w1
      (Hc & Hca & Hsl & Hmo & Hau & Hat & Hnow & Hco & Hr).
    + unfold bind at 1, modify at 1. unfold bind at 1, modify at 1.
      destruct (connectionAddAuth_ends ctx
                  (add_monitor (conn, events) (set_connection (Some conn) w1)) conn)
        as (w2 & Hrun & Hc2 & Hnow2 & Hco2 & Hca2 & Hsl2 & Hcl2 & Hmo2 & Hat2);
        [done|].
      unfold ends, bind. rewrite Hrun. cbn.
      cbn in Hc2, Hnow2, Hco2, Hca2, Hsl2, Hcl2, Hmo2, Hat2.
      unfold same_gate. rewrite Hc2, Hca2, Hsl2, Hat2, Hnow2, Hco2, Hco. cbn.
      rewrite Hc. split_and!; try done; lia.
    + cbn. unfold same_gate. rewrite Hc, Hco. split_and!; try done; try lia.
      * destruct Hr as [[_ [code ->]]|[_ [->|[e ->]]]]; done.
      * intros e. destruct Hr as [[_ [code ->]]|[_ [->|[e' ->]]]]; done.
Qed.

(** *** The loop of [retry] *)

Lemma Sleep_eq w :
  Sleep w = Ret tt (add_sleep (2 * second + rand_Int64 (length (sleeps w)) mod (5 * second)) w).
Proof. reflexivity. Qed.

(** A sleep lasts two seconds at least and less than seven. *)
Lemma Sleep_bounds w :
  let d := 2 * second + rand_Int64 (length (sleeps w)) mod (5 * second) in
  2 * second <= d < 7 * second.
Proof.
  intros d. subst d. unfold second.
  pose proof (Z.mod_pos_bound (rand_Int64 (length (sleeps w))) (5 * 1000000000)). lia.
Qed.

Lemma invalidate_eq conn w :
  invalidate conn w
  = Ret tt (if bool_decide (connection (c w) = Some conn) then set_connection None w else w).
Proof. unfold invalidate. by case_bool_decide. Qed.

Lemma request_eq {R} (f : nat -> zk.Conn -> R * option zk.Error) conn w :
  request f conn w
  = Ret ((f (length (calls w)) conn).1, ErrZk <$> (f (length (calls w)) conn).2)
        (set_connection (concurrently (length (calls w)) (connection (c w)))
           (add_call conn w)).
Proof. unfold request. by destruct (f (length (calls w)) conn). Qed.

(** One more turn in front of a history. *)
Lemma loop_ran_turn (left i : nat) (a : Attempt) (w w3 w' : World) (err : option error) :
  retried a ->
  attempts w3 = a :: attempts w ->
  sema (c w3) = sema (c w) -> address (c w3) = address (c w) ->
  now w <= now w3 ->
  length (sleeps w3) = (length (sleeps w) + (if i is O then 0 else 1))%nat ->
  calls w3 = (omap sent [a] ++ calls w)%list ->
  (length (connects w) <= length (connects w3) <= length (connects w) + 1)%nat ->
  (connection (c w) = None -> (length (connects w) < length (connects w3))%nat) ->
  loop_ran left (S i) w3 err w' ->
  loop_ran (S left) i w err w'.
Proof.
  intros Ha Hat Hse Had Hnow Hsl Hca Hco Hdial
    (h & Hh & Hse' & Had' & Hnow' & Hlen & Hsl' & Hca' & Hco' & _ & Hctx & Hend).
  exists (h ++ [a])%list. rewrite length_app. cbn [length].
  split_and!; try done; try lia.
  - rewrite Hh, Hat. by rewrite <- app_assoc.
  - congruence.
  - congruence.
  - rewrite Hsl', Hsl. destruct i; lia.
  - rewrite Hca', Hca, omap_app. by rewrite <- app_assoc.
  - intros Hnone _. specialize (Hdial Hnone). lia.
  - destruct Hend as [(-> & Hl & Hall)|(conn & h' & -> & Hn1 & Hn2 & Hall)].
    + left. split_and!; [done|lia|]. apply Forall_app. split; [done|].
      by constructor.
    + right. exists conn, (h' ++ [a])%list. split_and!; try done.
      apply Forall_app. split; [done|]. by constructor.
Qed.

Lemma retry_loop_ends {R} ctx (f : nat -> zk.Conn -> R * option zk.Error) left i r w :
  ends (retry_loop ctx (request f) left i r) w
    (fun re w' => loop_ran left i w (snd re) w')
    (fun _ => tls_configured).
Proof.
  revert i r w. induction left as [|left IH]; intros i r w.
  - cbn. exists []. cbn. split_and!; try done; try lia.
    + destruct i; lia.
    + left. done.
  - cbn [retry_loop].
    set (w1 := if (0 <? i)%nat
               then add_sleep (2 * second + rand_Int64 (length (sleeps w)) mod (5 * second)) w
               else w).
    assert (Hw1 : (if (0 <? i)%nat then Sleep else ret tt) w = Ret tt w1).
    { subst w1. by destruct (0 <? i)%nat. }
    assert (Hfr : c w1 = c w ∧ attempts w1 = attempts w ∧ calls w1 = calls w
                  ∧ connects w1 = connects w ∧ now w <= now w1
                  ∧ length (sleeps w1) = (length (sleeps w) + (if i is O then 0 else 1))%nat).
    { subst w1. destruct i as [|i]; cbn; [split_and!; try done; lia|].
      pose proof (Sleep_bounds w) as Hb. cbn in Hb. unfold second in *.
      split_and!; try done; lia. }
    destruct Hfr as (Hc1 & Hat1 & Hca1 & Hco1 & Hnow1 & Hsl1).
    unfold ends. rewrite (bind_Ret _ _ _ _ _ Hw1). clearbody w1.
    eapply ends_bind; [apply ensureConnection_ends|by intros w2 (_ & Htls & _)|].
    intros [conn|err] w2
      ([Hse2 Had2] & Hca2 & Hsl2 & Hat2 & Hnow2 & Hco2 & Hco2' & Hdial & Hr);
      rewrite Hc1, Hco1 in Hdial; rewrite Hco1 in Hco2, Hco2'.
    + (* a session: the request *)
      pose proof (request_eq f conn w2) as Hreq.
      destruct (f (length (calls w2)) conn) as [r' e] eqn:Hf. cbn [fst snd] in Hreq.
      unfold ends. rewrite (bind_Ret _ _ _ _ _ Hreq). cbn beta iota.
      unfold bind at 1, modify at 1.
      set (w3 := add_attempt (Called conn (ErrZk <$> e))
                   (set_connection (concurrently (length (calls w2)) (connection (c w2)))
                      (add_call conn w2))).
      case_bool_decide as Hclosed.
      * (* the session-closed fault: invalidate, next turn *)
        rewrite (bind_Ret _ _ _ _ _ (invalidate_eq conn w3)).
        eapply ends_weaken; [apply IH| |done].
        intros re w' Hran. cbn beta.
        eapply (loop_ran_turn left i (Called conn (ErrZk <$> e)) w); [..|exact Hran].
        all: try exact Hclosed.
        all: subst w3; case_bool_decide; cbn;
          rewrite ?Hsl2, ?Hca2, ?Hat2, ?Hse2, ?Had2, ?Hc1, ?Hat1, ?Hca1, ?Hco1;
          first [done | lia | intros Hnone; specialize (Hdial Hnone); lia].
      * (* anything else: the result *)
        cbn. exists [Called conn (ErrZk <$> e)]. cbn.
        rewrite ?Hsl2, ?Hca2, ?Hat2, ?Hse2, ?Had2, ?Hc1, ?Hat1, ?Hca1, ?Hsl1.
        split_and!; try done; try lia.
        -- destruct i; lia.
        -- intros Hnone _. specialize (Hdial Hnone). lia.
        -- intros x. by destruct e.
        -- right. exists conn, []. split_and!; try done. by destruct e.
    + (* no session: next turn *)
      destruct Hr as (Hn2 & Hn1 & Hne1 & Hne2).
      unfold bind at 1, modify at 1.
      eapply ends_weaken; [apply IH| |done].
      intros re w' Hran. cbn beta.
      eapply (loop_ran_turn left i (DialFailed err) w); [..|exact Hran]; cbn;
        rewrite ?Hsl2, ?Hca2, ?Hat2, ?Hse2, ?Had2, ?Hc1, ?Hat1, ?Hca1, ?Hsl1;
        first [done | lia | intros Hnone; specialize (Hdial Hnone); lia].
Qed.

(** *** The gate and [retry] *)

(** [Acquire] touches the gate and the clock only; it answers no fault
    but that of the context, and then leaves the gate as it was. *)
Lemma Acquire_inv ctx w r w1 :
  Acquire ctx w = Ret r w1 ->
  address (c w1) = address (c w) ∧ connection (c w1) = connection (c w)
  ∧ semaphore.size (sema (c w1)) = semaphore.size (sema (c w))
  ∧ connects w1 = connects w ∧ calls w1 = calls w ∧ sleeps w1 = sleeps w
  ∧ closed w1 = closed w ∧ monitors w1 = monitors w ∧ auths w1 = auths w
  ∧ attempts w1 = attempts w ∧ now w <= now w1
  ∧ match r with
    | None =>
        semaphore.cur (sema (c w1)) = semaphore.cur (sema (c w)) + 1
        ∨ (semaphore.cur (sema (c w1)) = semaphore.cur (sema (c w))
           ∧ semaphore.size (sema (c w)) < semaphore.cur (sema (c w)) + 1
           ∧ 1 <= semaphore.size (sema (c w)))
    | Some err => sema (c w1) = sema (c w) ∧ err = ErrCtx (cause ctx)
    end.
Proof.
  unfold Acquire, semaphore.TryAcquire. intros Hrun.
  destruct (acquire_checks_done && Done ctx (now w)).
  { injection Hrun as <- <-. split_and!; try done; lia. }
  destruct (Z.leb_spec (semaphore.cur (sema (c w)) + 1) (semaphore.size (sema (c w))))
    as [Hfree|Hfull].
  { injection Hrun as <- <-. cbn. split_and!; try done; try lia. }
  destruct (Z.leb_spec 1 (semaphore.size (sema (c w)))) as [Hsize|Hsize];
    destruct (done_at ctx) as [d|];
    try destruct (permit_after (now w)) as [p|];
    try destruct (Z.leb_spec d (now w + Z.max 0 p));
    try done; injection Hrun as <- <-; cbn; split_and!; try done; try lia.
Qed.

(** A caller that is through the gate holds a permit. *)
Lemma passes_gate_held ctx w w1 :
  passes_gate ctx w w1 ->
  semaphore.Release (sema (c w1))
  = Some {| semaphore.size := semaphore.size (sema (c w1));
            semaphore.cur := semaphore.cur (sema (c w1)) - 1 |}.
Proof.
  intros [Hcur Hacq]. destruct (Acquire_inv _ _ _ _ Hacq)
    as (_ & _ & Hsize & _ & _ & _ & _ & _ & _ & _ & _ & Hgate).
  unfold semaphore.Release.
  destruct (Z.ltb_spec (semaphore.cur (sema (c w1)) - 1) 0); [lia|done].
Qed.

(** [retry] past the gate: the loop, then the deferred [Release]. *)
Lemma retry_ends {R} ctx (f : nat -> zk.Conn -> R * option zk.Error) (r0 : R) w w1 :
  passes_gate ctx w w1 ->
  ends (retry ctx (request f) r0) w
    (fun re w' =>
       exists w2, loop_ran maxRetriesNum 0 w1 re.2 w2
         ∧ semaphore.Release (sema (c w1)) = Some (sema (c w'))
         ∧ w' = set_sema (sema (c w')) w2)
    (fun _ => tls_configured).
Proof.
  intros Hgate. pose proof (passes_gate_held _ _ _ Hgate) as Hrel.
  destruct Hgate as [Hcur Hacq].
  unfold retry, ends. rewrite (bind_Ret _ _ _ _ _ Hacq).
  eapply ends_bind; [apply retry_loop_ends|done|].
  intros re w2 Hran. pose proof Hran as (h & _ & Hse & _).
  unfold ends, bind, Release. rewrite Hse, Hrel. cbn.
  exists w2. split_and!; done.
Qed.

Lemma perform_ends ctx op w w1 :
  passes_gate ctx w w1 ->
  ends (perform ctx op) w
    (fun err w' =>
       exists w2, loop_ran maxRetriesNum 0 w1 err w2
         ∧ semaphore.Release (sema (c w1)) = Some (sema (c w'))
         ∧ w' = set_sema (sema (c w')) w2)
    (fun _ => tls_configured).
Proof.
  intros Hgate.
  destruct op; unfold perform, Get, Exists, Create, Set_, Delete;
    (eapply ends_bind; [by apply retry_ends|done|]); by intros [r err] w'.
Qed.

End Client.

(** *** Faults and retries *)

Section Retries.
Context `{Globals} `{Env}.

(** C1, amended: for every operation (Get, Exists, Create, Set, Delete)
    that is through the gate, the turns [h] of the call are one to three;
    every turn but the first sleeps before; only a failed dial and the
    session-closed fault of a request are followed by another turn; any
    other answer of a request, a fault or none, ends the call at once and
    is what the caller receives; after exactly three turns that each
    failed to dial or found the session closed the caller receives "max
    retries number reached", and no request is sent that is not one of
    these turns.  (The process exits instead only in the TLS branch of
    [connect].) *)
Theorem retry_faults ctx op w w1 :
  passes_gate ctx w w1 ->
  ends (perform ctx op) w
    (fun err w' =>
       exists h : list Attempt,
         attempts w' = (h ++ attempts w)%list
         ∧ (1 <= length h <= 3)%nat
         ∧ length (sleeps w') = (length (sleeps w) + length h - 1)%nat
         ∧ calls w' = (omap sent h ++ calls w)%list
         ∧ ((err = Some ErrMaxRetries ∧ length h = 3%nat ∧ Forall retried h)
            ∨ (exists conn h',
                 h = Called conn err :: h' ∧ err ≠ closedFault
                 ∧ err ≠ Some ErrMaxRetries ∧ Forall retried h')))
    (fun _ => tls_configured).
Proof.
  intros Hgate. eapply ends_weaken; [by apply perform_ends| |done].
  intros err w' (w2 & Hran & _ & ->).
  destruct Hgate as [_ Hacq].
  destruct (Acquire_inv _ _ _ _ Hacq)
    as (_ & _ & _ & _ & Hca & Hsl & _ & _ & _ & Hat & _).
  destruct Hran as (h & Hh & _ & _ & _ & Hlen & Hsl' & Hca' & _ & _ & _ & Hend).
  exists h. cbn. rewrite Hh, Hsl', Hca', Hat, Hsl, Hca.
  unfold maxRetriesNum in *.
  split_and!; try done.
  - destruct Hend as [(_ & -> & _)|(conn & h' & -> & _)]; cbn; lia.
  - destruct Hend as [(_ & -> & _)|(conn & h' & -> & _)]; cbn; lia.
Qed.

(** C5, amended.  When the token fires while the caller waits at the
    gate (no permit is free and none is handed over before), the caller
    receives the cancellation fault at that instant and nothing is
    attempted: no turn, no dial, no request, no sleep, and the gate is
    as it was.  When it fires during the handshake of a dial, the dial
    closes the transport and fails with the cancellation fault; [retry]
    treats that as any failed dial and goes on to the next turn, so an
    operation that is through the gate never answers a cancellation
    fault. *)
Theorem cancellation_faults ctx d op w :
  done_at ctx = Some d ->
  (* at the gate *)
  (now w < d ->
   semaphore.TryAcquire (sema (c w)) = None ->
   (1 <= semaphore.size (sema (c w)) ->
    forall p, permit_after (now w) = Some p -> d <= now w + Z.max 0 p) ->
   perform ctx op w = Ret (Some (ErrCtx (cause ctx))) (set_now d w))
  (* in the handshake *)
  ∧ (forall address events pre rest,
       ¬ tls_configured ->
       zk_Connect (length (connects w)) (Split address ",") = inl events ->
       d <= now w + timeoutConnect ->
       events = (pre ++ rest)%list ->
       Forall passed_over pre ->
       arrival (now w) pre < d ∨ pre = [] ->
       match rest with
       | e :: _ => d <= arrival (now w) (pre ++ [e])
       | [] => True
       end ->
       dial ctx address w
       = Ret (inr (ErrCtx (cause ctx)))
             (add_closed (length (connects w))
                (set_now (Z.max (arrival (now w) pre) d)
                   (add_connect (Split address ",", None) w))))
  (* past the gate *)
  ∧ (forall w1,
       passes_gate ctx w w1 ->
       ends (perform ctx op) w
         (fun err w' =>
            (forall e, err ≠ Some (ErrCtx e))
            ∧ forall e h',
                attempts w' = (DialFailed (ErrCtx e) :: h' ++ attempts w)%list ->
                err = Some ErrMaxRetries ∧ length h' = 2%nat)
         (fun _ => tls_configured)).
Proof.
  intros Hctx. split_and!.
  - intros Hnow Hfull Hlate.
    assert (Hacq : Acquire ctx w = Ret (Some (ErrCtx (cause ctx))) (set_now d w)).
    { unfold Acquire. rewrite Hfull.
      assert (Done ctx (now w) = false) as ->.
      { unfold Done. rewrite Hctx. apply Z.leb_gt. lia. }
      rewrite andb_false_r, Hctx. replace (Z.max (now w) d) with d by lia.
      destruct (Z.leb_spec 1 (semaphore.size (sema (c w)))) as [Hsize|Hsize]; [|done].
      destruct (permit_after (now w)) as [p|] eqn:Hp; [|done].
      specialize (Hlate Hsize p eq_refl).
      destruct (Z.leb_spec d (now w + Z.max 0 p)); [done|lia]. }
    destruct op; unfold perform, Get, Exists, Create, Set_, Delete, retry;
      unfold bind at 1; unfold bind at 1; by rewrite Hacq.
  - intros address events pre rest Hplain Hzk Hd -> Hpre Hlt Hrest.
    unfold dial, bind. rewrite (connect_plain _ _ Hplain).
    unfold zkConnect. rewrite Hzk.
    assert (WithTimeout ctx (now w) timeoutConnect = ctx) as ->.
    { unfold WithTimeout, Done. rewrite Hctx.
      by destruct (Z.leb_spec d (now w + timeoutConnect)); [|lia]. }
    by rewrite (dial_select_deadline ctx _ pre rest _ d).
  - intros w1 Hgate. eapply ends_weaken; [by apply perform_ends| |done].
    intros err w' (w2 & Hran & _ & ->).
    destruct Hgate as [_ Hacq].
    destruct (Acquire_inv _ _ _ _ Hacq)
      as (_ & _ & _ & _ & _ & _ & _ & _ & _ & Hat & _).
    destruct Hran as (h & Hh & _ & _ & _ & Hlen & _ & _ & _ & _ & Hne & Hend).
    split; [done|]. cbn. rewrite Hh, Hat. intros e h0 Heq.
    change (DialFailed (ErrCtx e) :: h0 ++ attempts w)%list
      with ((DialFailed (ErrCtx e) :: h0) ++ attempts w)%list in Heq.
    apply app_inv_tail in Heq. subst h. unfold maxRetriesNum in *.
    destruct Hend as [(-> & Hl & _)|(conn & h' & [=] & _)].
    by injection Hl as ->.
Qed.

End Retries.

Lemma retry_faults_witness :
  let w1 := set_sema (semaphore.mkWeighted 32 1) Samples.w0 in
  passes_gate (H0 := Samples.env_closed) Background Samples.w0 w1
  ∧ ends (perform (H := defaults) (H0 := Samples.env_closed) Background
            (OpDelete "/y" 5)) Samples.w0
      (fun err w' =>
         exists h : list Attempt,
           attempts w' = (h ++ attempts Samples.w0)%list
           ∧ (1 <= length h <= 3)%nat
           ∧ length (sleeps w') = (length (sleeps Samples.w0) + length h - 1)%nat
           ∧ calls w' = (omap sent h ++ calls Samples.w0)%list
           ∧ ((err = Some ErrMaxRetries ∧ length h = 3%nat ∧ Forall retried h)
              ∨ (exists conn h',
                   h = Called conn err :: h' ∧ err ≠ closedFault
                   ∧ err ≠ Some ErrMaxRetries ∧ Forall retried h')))
      (fun _ => tls_configured (H := defaults)).
Proof.
  intros w1.
  assert (Hgate : passes_gate (H0 := Samples.env_closed) Background Samples.w0 w1).
  { split; [cbn; lia|reflexivity]. }
  split; [exact Hgate|].
  exact (retry_faults (H := defaults) (H0 := Samples.env_closed)
           Background (OpDelete "/y" 5) Samples.w0 w1 Hgate).
Defined.

(** C1, as the claim words it, fails: when every request times out (a
    fault that is not the session-closed one), [Delete] does not retry
    and does not answer "max retries number reached" after three
    attempts: it sends one request and answers its fault. *)
Lemma generic_fault_is_not_retried :
  exists w',
    perform (H := defaults) (H0 := Samples.env_timeouts) Background
      (OpDelete "/y" 5) Samples.w0
    = Ret (Some (ErrZk (zk.ErrCode (-7)))) w'
    ∧ calls w' = [0%nat]
    ∧ sleeps w' = []
    ∧ attempts w' = [Called 0%nat (Some (ErrZk (zk.ErrCode (-7))))]
    ∧ Some (ErrZk (zk.ErrCode (-7))) ≠ Some ErrMaxRetries.
Proof. eexists. split; [vm_compute; reflexivity|]. done. Qed.

Lemma cancellation_faults_witness :
  done_at Samples.cancel_after_1s = Some second
  ∧ perform (H := defaults) (H0 := Samples.env_silent) Samples.cancel_after_1s
      (OpGet "/a") Samples.w0_saturated
    = Ret (Some (ErrCtx Canceled)) (set_now second Samples.w0_saturated).
Proof.
  split; [reflexivity|].
  apply (cancellation_faults (H := defaults) (H0 := Samples.env_silent)
           Samples.cancel_after_1s second (OpGet "/a") Samples.w0_saturated eq_refl).
  - cbn. unfold second. lia.
  - reflexivity.
  - intros _ p Hp. discriminate Hp.
Defined.

(** C5, as the claim words it, fails for the handshake: the caller
    cancels after one second while the first dial waits for a
    notification that never comes; [Get] does not answer the
    cancellation fault at once: it dials three times, sleeps twice, and
    answers "max retries number reached". *)
Lemma handshake_cancellation_is_retried :
  exists w',
    perform (H := defaults) (H0 := Samples.env_silent) Samples.cancel_after_1s
      (OpGet "/a") Samples.w0
    = Ret (Some ErrMaxRetries) w'
    ∧ attempts w' = [DialFailed (ErrCtx Canceled); DialFailed (ErrCtx Canceled);
                     DialFailed (ErrCtx Canceled)]
    ∧ length (connects w') = 3%nat
    ∧ length (sleeps w') = 2%nat
    ∧ closed w' = [2%nat; 1%nat; 0%nat]
    ∧ Some ErrMaxRetries ≠ Some (ErrCtx Canceled).
Proof. eexists. split; [vm_compute; reflexivity|]. done. Qed.

(** *** The session monitor *)

(** What the locked block leaves of the cache. *)
Lemma invalidate_connection conn w :
  connection (c (if bool_decide (connection (c w) = Some conn)
                 then set_connection None w else w))
  = if bool_decide (connection (c w) = Some conn) then None else connection (c w).
Proof. by case_bool_decide. Qed.

(** C2, amended: on a notification [event] followed by [events], the
    monitor of the session [conn]
    - on Disconnected clears the cached session if, and only if, it is
      [conn], closes nothing, and stops, leaving [events] unread;
    - on Expired and on Connecting clears the cache the same way, closes
      the transport of [conn], and stops;
    - on any other state (Connected, AuthFailed, ...) does nothing and
      goes on with [events].
    Whatever the notifications, it ends, it never touches a cached
    session that is not its own, and it closes no transport but its
    own. *)
Theorem monitor_reacts conn event events w :
  let cleared :=
    if bool_decide (connection (c w) = Some conn) then set_connection None w else w in
  (zk.EventState event = zk.StateDisconnected ->
   connectionEventsProcessor conn (event :: events) w = Ret events cleared)
  ∧ (zk.EventState event = zk.StateExpired ∨ zk.EventState event = zk.StateConnecting ->
     connectionEventsProcessor conn (event :: events) w
     = Ret events (add_closed conn cleared))
  ∧ (zk.EventState event ≠ zk.StateDisconnected ->
     zk.EventState event ≠ zk.StateExpired ->
     zk.EventState event ≠ zk.StateConnecting ->
     connectionEventsProcessor conn (event :: events) w
     = connectionEventsProcessor conn events w)
  ∧ (exists unread w',
       connectionEventsProcessor conn (event :: events) w = Ret unread w'
       ∧ (connection (c w) ≠ Some conn -> connection (c w') = connection (c w))
       ∧ (connection (c w') = connection (c w) ∨ connection (c w') = None)
       ∧ (closed w' = closed w ∨ closed w' = conn :: closed w)
       ∧ sema (c w') = sema (c w) ∧ connects w' = connects w ∧ calls w' = calls w).
Proof.
  intros cleared. split_and!.
  - intros He. cbn [connectionEventsProcessor]. rewrite He.
    unfold bind. by rewrite invalidate_eq.
  - intros [He|He]; cbn [connectionEventsProcessor]; rewrite He;
      unfold bind; by rewrite invalidate_eq.
  - intros H1 H2 H3. cbn [connectionEventsProcessor].
    by destruct (zk.EventState event).
  - clear cleared. revert w.
    induction (event :: events) as [|e l IH]; intros w.
    + exists [], w. cbn. split_and!; try done; by left.
    + assert (Hstop : forall w',
        w' = (if bool_decide (connection (c w) = Some conn)
              then set_connection None w else w)
        ∨ w' = add_closed conn (if bool_decide (connection (c w) = Some conn)
                                then set_connection None w else w) ->
        (connection (c w) ≠ Some conn -> connection (c w') = connection (c w))
        ∧ (connection (c w') = connection (c w) ∨ connection (c w') = None)
        ∧ (closed w' = closed w ∨ closed w' = conn :: closed w)
        ∧ sema (c w') = sema (c w) ∧ connects w' = connects w ∧ calls w' = calls w).
      { intros w' [-> | ->]; case_bool_decide; cbn; split_and!; try done;
          first [by left | by right]. }
      cbn [connectionEventsProcessor].
      destruct (zk.EventState e); try apply IH;
        unfold bind; rewrite invalidate_eq; cbn;
        eexists _, _; (split; [reflexivity|]); apply Hstop; first [by left | by right].
Qed.

(** C2, as the claim words it, fails on Connecting: the monitor of the
    cached session 0 that observes Connecting does not go on to the
    notification behind it; it clears the cache, closes the transport
    and stops. *)
Lemma monitor_stops_on_connecting :
  exists w',
    connectionEventsProcessor 0%nat
      [zk.mkEvent 0 zk.StateConnecting; zk.mkEvent 0 zk.StateConnected]
      Samples.w0_cached
    = Ret [zk.mkEvent 0 zk.StateConnected] w'
    ∧ connection (c Samples.w0_cached) = Some 0%nat
    ∧ connection (c w') = None
    ∧ closed Samples.w0_cached = []
    ∧ closed w' = [0%nat].
Proof. eexists. split; [vm_compute; reflexivity|]. done. Qed.

Lemma monitor_reacts_witness :
  zk.EventState (zk.mkEvent 0 zk.StateExpired) = zk.StateExpired
  ∧ connectionEventsProcessor 0%nat [zk.mkEvent 0 zk.StateExpired] Samples.w0_cached
    = Ret [] (add_closed 0%nat (set_connection None Samples.w0_cached)).
Proof.
  split; [reflexivity|].
  destruct (monitor_reacts 0%nat (zk.mkEvent 0 zk.StateExpired) [] Samples.w0_cached)
    as (_ & Hexpired & _).
  apply Hexpired. by left.
Defined.

(** *** Sessions: invalidation, configuration, dialing, closing *)

Section Sessions.
Context `{Globals} `{Env}.


(** With a certificate and a key configured and an address of more than
    one host, every dial ends the process in [connect]. *)
Lemma tls_multi_host_dial ctx (addr : string) w :
  tls_configured ->
  (1 < length (Split addr ","))%nat ->
  connect addr w = Fatal w
  ∧ dial ctx addr w = Fatal w
  ∧ (address (c w) = addr -> connection (c w) = None ->
     ensureConnection ctx w = Fatal w
     ∧ forall R (fn : zk.Conn -> M (R * option error)) (r0 : R) w0,
         passes_gate ctx w0 w ->
         retry ctx fn r0 w0 = Fatal w
         ∧ connects w = connects w0 ∧ calls w = calls w0
         ∧ sleeps w = sleeps w0 ∧ attempts w = attempts w0).
Proof.
  intros Htls Hmulti%StringsFacts.Split_byte.
  assert (Hconnect : connect addr w = Fatal w).
  { unfold connect. apply tls_configured_bool in Htls. by rewrite Htls, Hmulti. }
  assert (Hdial : dial ctx addr w = Fatal w).
  { unfold dial. by rewrite (bind_Fatal _ _ _ _ Hconnect). }
  split_and!; try done. intros <- Hnone.
  assert (Hensure : ensureConnection ctx w = Fatal w).
  { rewrite (ensureConnection_dials _ _ Hnone). by rewrite (bind_Fatal _ _ _ _ Hdial). }
  split; [done|]. intros R fn r0 w0 [_ Hacq].
  destruct (Acquire_inv _ _ _ _ Hacq)
    as (_ & _ & _ & Hco & Hca & Hsl & _ & _ & _ & Hat & _).
  split_and!; try done.
  unfold retry. rewrite (bind_Ret _ _ _ _ _ Hacq).
  apply bind_Fatal. cbn [retry_loop maxRetriesNum].
  rewrite (bind_Ret _ _ w w tt) by done.
  by rewrite (bind_Fatal _ _ _ _ Hensure).
Qed.

(** C4, amended: with a certificate and a key configured and an address
    of more than one host, nothing fails when the client is built:
    [NewConnection] checks nothing, and the new client can be closed.
    The process ends later, in [connect], whenever a dial is made, before
    [zk.Connect] is called: so in [dial], in [ensureConnection] when no
    session is cached, and in the first turn of an operation, which by
    then holds its permit and has sent no request and has not slept: on a
    new client that is the first operation called.  The condition never
    comes back as a fault that [retry] could retry. *)
Theorem tls_multi_host_is_fatal ctx (addr : string) w :
  tls_configured ->
  (1 < length (Split addr ","))%nat ->
  connect addr w = Fatal w
  ∧ dial ctx addr w = Fatal w
  ∧ (address (c w) = addr -> connection (c w) = None ->
     ensureConnection ctx w = Fatal w
     ∧ forall R (fn : zk.Conn -> M (R * option error)) (r0 : R) w0,
         passes_gate ctx w0 w ->
         retry ctx fn r0 w0 = Fatal w
         ∧ connects w = connects w0 ∧ calls w = calls w0
         ∧ sleeps w = sleeps w0 ∧ attempts w = attempts w0)
  ∧ address (NewConnection addr) = addr
  ∧ connection (NewConnection addr) = None
  ∧ Close (fresh (NewConnection addr)) = Ret None (fresh (NewConnection addr))
  ∧ (forall op w1,
       passes_gate ctx (fresh (NewConnection addr)) w1 ->
       perform ctx op (fresh (NewConnection addr)) = Fatal w1
       ∧ semaphore.cur (sema (c w1)) = 1
       ∧ connects w1 = [] ∧ calls w1 = [] ∧ sleeps w1 = [] ∧ closed w1 = []).
Proof.
  intros Htls Hmulti.
  destruct (tls_multi_host_dial ctx addr w Htls Hmulti) as (Hconnect & Hdial & Hensure).
  split_and!; try done.
  intros op w1 Hgate. pose proof Hgate as [_ Hacq].
  destruct (Acquire_inv _ _ _ _ Hacq)
    as (Had & Hconn & _ & Hco & Hca & Hsl & Hcl & _ & _ & _ & _ & Hcur).
  cbn in Had, Hconn, Hco, Hca, Hsl, Hcl, Hcur.
  destruct (tls_multi_host_dial ctx addr w1 Htls Hmulti) as (_ & _ & Hfirst).
  destruct (Hfirst Had Hconn) as [_ Hretry].
  split_and!; try done; [|lia].
  destruct op; unfold perform, Get, Exists, Create, Set_, Delete;
    apply bind_Fatal; apply (Hretry _ _ _ _ Hgate).
Qed.

(** C6: [dial] first calls [zk.Connect]; when that answers a session
    [conn] with the notifications [events], it waits on them until an
    instant [d] that is the connect timeout after the call at the latest:
    - "connected", arriving before [d] after notifications that are
      passed over, makes [dial] answer [conn] and the events left, the
      transport open;
    - "auth failed" in that place makes it answer a fault, the transport
      closed;
    - [d] coming before any of the two makes it answer the fault of the
      context, the transport closed;
    and [dial] always answers one of these: a session only if it is
    [conn], not closed, after "connected" was received before [d]; and
    with any fault the transport is closed. *)
Theorem dial_handshake ctx (addr : string) w conn events w1 :
  connect addr w = Ret (inl (conn, events)) w1 ->
  exists d,
    done_at (WithTimeout ctx (now w) timeoutConnect) = Some d
    ∧ d <= now w + timeoutConnect
    ∧ (forall pre e rest,
         events = (pre ++ e :: rest)%list -> Forall passed_over pre ->
         zk.EventState e = zk.StateConnected ->
         arrival (now w) (pre ++ [e]) < d ->
         dial ctx addr w
         = Ret (inl (conn, rest)) (set_now (arrival (now w) (pre ++ [e])) w1))
    ∧ (forall pre e rest,
         events = (pre ++ e :: rest)%list -> Forall passed_over pre ->
         zk.EventState e = zk.StateAuthFailed ->
         arrival (now w) (pre ++ [e]) < d ->
         dial ctx addr w
         = Ret (inr ErrStateAuthFailed)
               (add_closed conn (set_now (arrival (now w) (pre ++ [e])) w1)))
    ∧ (forall pre rest,
         events = (pre ++ rest)%list -> Forall passed_over pre ->
         arrival (now w) pre < d ∨ pre = [] ->
         match rest with
         | e :: _ => d <= arrival (now w) (pre ++ [e])
         | [] => True
         end ->
         dial ctx addr w
         = Ret (inr (ErrCtx (cause (WithTimeout ctx (now w) timeoutConnect))))
               (add_closed conn (set_now (Z.max (arrival (now w) pre) d) w1)))
    ∧ (exists r w',
         dial ctx addr w = Ret r w'
         ∧ match r with
           | inl (conn', rest) =>
               conn' = conn ∧ closed w' = closed w ∧ now w' < d
               ∧ exists pre e,
                   events = (pre ++ e :: rest)%list ∧ Forall passed_over pre
                   ∧ zk.EventState e = zk.StateConnected
                   ∧ now w' = arrival (now w) (pre ++ [e])
           | inr err =>
               closed w' = conn :: closed w
               ∧ (err = ErrStateAuthFailed
                  ∨ err = ErrCtx (cause (WithTimeout ctx (now w) timeoutConnect)))
           end).
Proof.
  intros Hconnect.
  destruct (WithTimeout_deadline ctx (now w) timeoutConnect) as (d & Hd & Hle).
  assert (Hw1 : now w1 = now w ∧ closed w1 = closed w).
  { pose proof (connect_ends addr w) as Hc. unfold ends in Hc.
    rewrite Hconnect in Hc. by destruct Hc as [[tlsName ->] _]. }
  destruct Hw1 as [Hnow1 Hcl1].
  assert (Hdial : dial ctx addr w
                  = dial_select (WithTimeout ctx (now w) timeoutConnect) conn events w1).
  { unfold dial. by rewrite (bind_Ret _ _ _ _ _ Hconnect). }
  exists d. rewrite Hdial. rewrite <- Hnow1 in Hd, Hle |- *. split_and!; try done.
  - intros pre e rest -> Hpre He Hlt. apply dial_select_connected; try done.
    intros d' Hd'. congruence.
  - intros pre e rest -> Hpre He Hlt. apply dial_select_auth_failed; try done.
    intros d' Hd'. congruence.
  - intros pre rest -> Hpre Hlt Hrest. by apply dial_select_deadline.
  - destruct (dial_select_returns _ conn events w1 d Hd) as (r & w' & Hrun).
    exists r, w'. split; [done|].
    destruct (dial_select_inv _ _ _ _ _ _ Hrun) as (_ & _ & _ & _ & _ & _ & _ & _ & Hr).
    destruct r as [[conn' rest]|err].
    + destruct Hr as (-> & Hcl & (pre & e & -> & Hpre & He & Harr) & Hdl).
      split_and!; try done; [congruence|by apply Hdl|]. by exists pre, e.
    + destruct Hr as [Hcl Herr]. split; [congruence|done].
Qed.

(** The first turn of a call that finds the session [conn] cached. *)
Lemma retry_loop_cached {R} ctx (f : nat -> zk.Conn -> R * option zk.Error)
    (left : nat) (r : R) w conn :
  connection (c w) = Some conn ->
  let re := f (length (calls w)) conn in
  let w3 := add_attempt (Called conn (ErrZk <$> re.2))
              (set_connection (concurrently (length (calls w)) (Some conn))
                 (add_call conn w)) in
  retry_loop ctx (request f) (S left) 0 r w
  = if bool_decide (ErrZk <$> re.2 = closedFault)
    then retry_loop ctx (request f) left 1 re.1
           (if bool_decide (connection (c w3) = Some conn)
            then set_connection None w3 else w3)
    else Ret (re.1, ErrZk <$> re.2) w3.
Proof.
  intros Hconn re w3. cbn [retry_loop].
  rewrite (bind_Ret _ _ w w tt) by done.
  rewrite (bind_Ret _ _ _ _ _ (ensureConnection_cached ctx w conn Hconn)).
  rewrite (bind_Ret _ _ _ _ _ (request_eq f conn w)). cbn beta iota.
  unfold bind at 1, modify at 1. rewrite Hconn. fold re. fold w3.
  unfold closedFault. case_bool_decide; [|done].
  by rewrite (bind_Ret _ _ _ _ _ (invalidate_eq conn w3)).
Qed.

(** [perform] past the gate, from what the loop does. *)
Lemma perform_from_loop ctx op w w1 (Q : option error -> World -> Prop) :
  passes_gate ctx w w1 ->
  (forall R (f : nat -> zk.Conn -> R * option zk.Error) (r0 : R),
     ends (retry_loop ctx (request f) maxRetriesNum 0 r0) w1
       (fun re w2 => Q re.2 w2 ∧ sema (c w2) = sema (c w1))
       (fun _ => tls_configured)) ->
  ends (perform ctx op) w
    (fun err w' => exists w2, Q err w2 ∧ w' = set_sema (sema (c w')) w2)
    (fun _ => tls_configured).
Proof.
  intros Hgate Hloop. pose proof (passes_gate_held _ _ _ Hgate) as Hrel.
  destruct Hgate as [Hcur Hacq].
  assert (Hretry : forall R (f : nat -> zk.Conn -> R * option zk.Error) (r0 : R),
    ends (retry ctx (request f) r0) w
      (fun re w' => exists w2, Q re.2 w2 ∧ w' = set_sema (sema (c w')) w2)
      (fun _ => tls_configured)).
  { intros R f r0. unfold retry, ends. rewrite (bind_Ret _ _ _ _ _ Hacq).
    eapply ends_bind; [apply Hloop|done|].
    intros re w2 [HQ Hse]. unfold ends, bind, Release. rewrite Hse, Hrel. cbn.
    by exists w2. }
  destruct op; unfold perform, Get, Exists, Create, Set_, Delete;
    (eapply ends_bind; [by apply Hretry|done|]); by intros [r err] w'.
Qed.

(** C8: [Close] closes the transport of the cached session and leaves
    the session cached; so [ensureConnection] answers the closed session
    without dialing, and the first turn of the next operation sends its
    request on it, whatever comes of it: an answer that is not the
    session-closed fault ends the operation with nothing dialed; only
    the session-closed fault (when no other goroutine touches the cache
    meanwhile) gets the cache cleared and the next turn to dial. *)
Theorem Close_keeps_session ctx op w conn :
  connection (c w) = Some conn ->
  let w' := add_closed conn w in
  Close w = Ret None w'
  ∧ connection (c w') = Some conn
  ∧ closed w' = conn :: closed w
  ∧ ensureConnection ctx w' = Ret (inl conn) w'
  ∧ forall w1,
      passes_gate ctx w' w1 ->
      ends (perform ctx op) w'
        (fun err w2 =>
           exists h e,
             attempts w2 = (h ++ Called conn e :: attempts w)%list
             ∧ calls w2 = (omap sent h ++ conn :: calls w)%list
             ∧ (e ≠ closedFault ->
                h = [] ∧ err = e ∧ connects w2 = connects w)
             ∧ (e = closedFault ->
                concurrently (length (calls w)) (Some conn) = Some conn ->
                (length (connects w) < length (connects w2))%nat))
        (fun _ => tls_configured).
Proof.
  intros Hconn w'.
  assert (Hclose : Close w = Ret None w').
  { unfold Close. by rewrite Hconn. }
  assert (Hconn' : connection (c w') = Some conn) by done.
  split_and!; try done; [by apply ensureConnection_cached|].
  intros w1 Hgate.
  eapply ends_weaken;
    [apply (perform_from_loop ctx op w' w1
              (fun err w2 =>
                 exists h e,
                   attempts w2 = (h ++ Called conn e :: attempts w)%list
                   ∧ calls w2 = (omap sent h ++ conn :: calls w)%list
                   ∧ (e ≠ closedFault -> h = [] ∧ err = e ∧ connects w2 = connects w)
                   ∧ (e = closedFault ->
                      concurrently (length (calls w)) (Some conn) = Some conn ->
                      (length (connects w) < length (connects w2))%nat)) Hgate)
    | |done].
  - intros R f r0. destruct Hgate as [_ Hacq].
    destruct (Acquire_inv _ _ _ _ Hacq)
      as (_ & Hconn1 & _ & Hco & Hca & _ & _ & _ & _ & Hat & _).
    rewrite Hconn' in Hconn1. cbn in Hco, Hca, Hat.
    unfold ends, maxRetriesNum. rewrite (retry_loop_cached ctx f 2 r0 w1 conn Hconn1).
    rewrite Hca.
    set (re := f (length (calls w)) conn).
    set (w3 := add_attempt _ _).
    case_bool_decide as Hclosed.
    + (* the session-closed fault *)
      eapply ends_weaken; [apply retry_loop_ends| |done].
      intros re' w2 (h & Hh & Hse & _ & _ & _ & _ & Hca' & Hco' & Hdial & _).
      cbn beta. split.
      * exists h, (ErrZk <$> re.2). split_and!.
        -- rewrite Hh. subst w3. case_bool_decide; cbn; by rewrite Hat.
        -- rewrite Hca'. subst w3. case_bool_decide; cbn; by rewrite Hca.
        -- done.
        -- intros _ Hquiet.
           assert (Hnone : connection (c (if bool_decide (connection (c w3) = Some conn)
                                          then set_connection None w3 else w3)) = None).
           { subst w3. cbn. rewrite Hquiet. by rewrite bool_decide_eq_true_2. }
           specialize (Hdial Hnone ltac:(lia)).
           revert Hdial. subst w3. case_bool_decide; cbn; rewrite Hco; lia.
      * rewrite Hse. subst w3. by case_bool_decide.
    + (* any other answer *)
      cbn. split; [|done].
      exists [], (ErrZk <$> re.2). cbn. by rewrite Hat, Hca, Hco.
  - intros err w2 (w2' & (h & e & Hh & Hca & Hother & Hclosed) & ->).
    exists h, e. cbn. done.
Qed.

End Sessions.


Lemma tls_multi_host_is_fatal_witness :
  tls_configured (H := Samples.tls_globals)
  ∧ (1 < length (Split "zk1:2181,zk2:2181" ","))%nat
  ∧ connect (H := Samples.tls_globals) (H0 := Samples.env_timeouts)
      "zk1:2181,zk2:2181" Samples.w0_two_hosts
    = Fatal Samples.w0_two_hosts
  ∧ dial (H := Samples.tls_globals) (H0 := Samples.env_timeouts) Background
      "zk1:2181,zk2:2181" Samples.w0_two_hosts
    = Fatal Samples.w0_two_hosts
  ∧ Close Samples.w0_two_hosts = Ret None Samples.w0_two_hosts.
Proof.
  assert (Htls : tls_configured (H := Samples.tls_globals)) by (split; discriminate).
  assert (Hmulti : (1 < length (Split "zk1:2181,zk2:2181" ","))%nat)
    by (vm_compute; lia).
  destruct (tls_multi_host_is_fatal (H := Samples.tls_globals) (H0 := Samples.env_timeouts)
              Background "zk1:2181,zk2:2181" Samples.w0_two_hosts Htls Hmulti)
    as (Hconnect & Hdial & _ & _ & _ & Hclose & _).
  split_and!; [exact Htls|exact Hmulti|exact Hconnect|exact Hdial|exact Hclose].
Defined.

(** C4, as the claim words it, fails: nothing fails at configuration
    time.  With a certificate, a key and two hosts configured,
    [NewConnection] answers a client, which [Close] closes without a
    fault; the process ends only in the first operation, on its first
    dial, when the operation holds a permit of the gate. *)
Lemma tls_multi_host_passes_configuration :
  tls_configured (H := Samples.tls_globals)
  ∧ (1 < length (Split "zk1:2181,zk2:2181" ","))%nat
  ∧ Close (fresh (NewConnection (H := Samples.tls_globals) "zk1:2181,zk2:2181"))
    = Ret None (fresh (NewConnection (H := Samples.tls_globals) "zk1:2181,zk2:2181"))
  ∧ perform (H := Samples.tls_globals) (H0 := Samples.env_timeouts) Background
      (OpGet "/clickhouse")
      (fresh (NewConnection (H := Samples.tls_globals) "zk1:2181,zk2:2181"))
    = Fatal (set_sema (semaphore.mkWeighted 32 1)
               (fresh (NewConnection (H := Samples.tls_globals) "zk1:2181,zk2:2181"))).
Proof.
  split_and!; [split; discriminate|vm_compute; lia|reflexivity|vm_compute; reflexivity].
Qed.

Lemma dial_handshake_witness :
  connect (H := defaults) (H0 := Samples.env_timeouts) "zk1:2181" Samples.w0
  = Ret (inl (0%nat, Samples.connected_after (5 * Samples.ms)))
        (add_connect (["zk1:2181"], None) Samples.w0)
  ∧ dial (H := defaults) (H0 := Samples.env_timeouts) Background "zk1:2181" Samples.w0
    = Ret (inl (0%nat, [zk.mkEvent second zk.StateDisconnected]))
          (set_now (5 * Samples.ms) (add_connect (["zk1:2181"], None) Samples.w0)).
Proof.
  assert (Hconnect :
    connect (H := defaults) (H0 := Samples.env_timeouts) "zk1:2181" Samples.w0
    = Ret (inl (0%nat, Samples.connected_after (5 * Samples.ms)))
          (add_connect (["zk1:2181"], None) Samples.w0)) by reflexivity.
  split; [exact Hconnect|].
  destruct (dial_handshake (H := defaults) (H0 := Samples.env_timeouts) Background
              "zk1:2181" Samples.w0 _ _ _ Hconnect)
    as (d & Hd & _ & Hconnected & _).
  injection Hd as <-.
  apply (Hconnected [zk.mkEvent 0 zk.StateConnecting]
           (zk.mkEvent (5 * Samples.ms) zk.StateConnected)
           [zk.mkEvent second zk.StateDisconnected]).
  - reflexivity.
  - constructor; [split; discriminate|constructor].
  - reflexivity.
  - vm_compute. reflexivity.
Defined.

Lemma Close_keeps_session_witness :
  connection (c Samples.w0_cached) = Some 0%nat
  ∧ Close Samples.w0_cached = Ret None (add_closed 0%nat Samples.w0_cached)
  ∧ ensureConnection (H := defaults) (H0 := Samples.env_closed_once) Background
      (add_closed 0%nat Samples.w0_cached)
    = Ret (inl 0%nat) (add_closed 0%nat Samples.w0_cached).
Proof.
  assert (Hconn : connection (c Samples.w0_cached) = Some 0%nat) by reflexivity.
  destruct (Close_keeps_session (H := defaults) (H0 := Samples.env_closed_once)
              Background (OpGet "/a") Samples.w0_cached 0%nat Hconn)
    as (Hclose & _ & _ & Hensure & _).
  split_and!; [exact Hconn|exact Hclose|exact Hensure].
Defined.

Example Get_after_Close_uses_closed_session :
  exists w' w'',
    Close Samples.w0_cached = Ret None w'
    ∧ perform (H := defaults) (H0 := Samples.env_closed_once) Background (OpGet "/a") w'
      = Ret None w''
    ∧ closed w' = [0%nat]
    ∧ attempts w'' = [Called 1%nat None; Called 0%nat closedFault]
    ∧ calls w'' = [1%nat; 0%nat]
    ∧ length (connects w'') = S (length (connects w')).
Proof. eexists _, _. split_and!; [reflexivity|vm_compute; reflexivity|done..]. Qed.

(** *** Runs *)

Example default_limits :
  maxConcurrentRequests (Globals := defaults) = 32
  ∧ timeoutConnect (Globals := defaults) = 30 * second
  ∧ maxRetriesNum = 3%nat
  ∧ sema (NewConnection (H := defaults) "zk1:2181") = semaphore.mkWeighted 32 0.
Proof. done. Qed.

Example Set_recovers_from_closed_session :
  exists w', perform (H := defaults) (H0 := Samples.env_closed_once) Background
               (OpSet "/x" [] 0) Samples.w0 = Ret None w'
    ∧ attempts w' = [Called 1%nat None; Called 0%nat closedFault]
    ∧ length (connects w') = 2%nat ∧ length (sleeps w') = 1%nat
    ∧ connection (c w') = Some 1%nat.
Proof. eexists. split; [vm_compute; reflexivity|]. done. Qed.

Example Delete_exhausts_on_closed_sessions :
  exists w', perform (H := defaults) (H0 := Samples.env_closed) Background
               (OpDelete "/y" 5) Samples.w0 = Ret (Some ErrMaxRetries) w'
    ∧ attempts w' = [Called 2%nat closedFault; Called 1%nat closedFault; Called 0%nat closedFault]
    ∧ length (sleeps w') = 2%nat.
Proof. eexists. split; [vm_compute; reflexivity|]. done. Qed.

End ZookeeperFacts.

(** ** The gate *)

Module GateFacts.
Import Zookeeper Gate ZookeeperFacts.

Section Gate.
Context `{Globals} `{Env}.

(** *** The callers run [retry] *)

Lemma run_retry_loop_steps {R X} ctx (fn : zk.Conn -> M (R * option error))
    (left i : nat) (r : R) (k : R * option error -> Prog X) w :
  run (retry_loop_steps ctx fn left i r k) w
  = (do res <- retry_loop ctx fn left i r; run (k res)) w.
Proof.
  revert i r w. induction left as [|left IH]; intros i r w; [done|].
  cbn [retry_loop_steps retry_loop run]. unfold bind in IH |- *.
  destruct ((if (0 <? i)%nat then Sleep else ret tt) w) as [[] w1|w1|w1|w1]; try done.
  destruct (ensureConnection ctx w1) as [[conn|err] w2|w2|w2|w2]; try done.
  cbn [run]. unfold bind.
  destruct (fn conn w2) as [[r' err] w3|w3|w3|w3]; try done.
  cbn [run]. unfold bind, modify.
  case_bool_decide; [|done].
  cbn [run]. unfold bind.
  destruct (invalidate conn _) as [[] w4|w4|w4|w4]; try done. apply IH.
Qed.

Lemma run_retry_steps {R X} ctx (fn : zk.Conn -> M (R * option error)) (r0 : R)
    (k : R * option error -> Prog X) w :
  run (retry_steps ctx fn r0 k) w = (do res <- retry ctx fn r0; run (k res)) w.
Proof.
  unfold retry_steps, retry. cbn [run]. unfold bind.
  destruct (Acquire ctx w) as [[e|] w1|w1|w1|w1]; try done.
  cbn beta iota. rewrite run_retry_loop_steps. unfold bind.
  destruct (retry_loop ctx fn maxRetriesNum 0 r0 w1) as [res w2|w2|w2|w2]; try done.
  cbn [run]. unfold bind.
  by destruct (Release w2) as [[] w3|w3|w3|w3].
Qed.

Lemma run_perform_steps ctx op w : run (perform_steps ctx op) w = perform ctx op w.
Proof.
  destruct op; unfold perform_steps, perform, Get, Exists, Create, Set_, Delete;
    by rewrite run_retry_steps.
Qed.

(** *** Where a caller of [retry] is *)

Lemma keeps_gate_ret {A} (a : A) : keeps_gate (ret a).
Proof. by intros w. Qed.

Lemma keeps_gate_Sleep : keeps_gate Sleep.
Proof. by intros w. Qed.

Lemma keeps_gate_add_attempt a : keeps_gate (modify (add_attempt a)).
Proof. by intros w. Qed.

Lemma keeps_gate_invalidate conn : keeps_gate (invalidate conn).
Proof. intros w. unfold ends, invalidate. by case_bool_decide. Qed.

Lemma keeps_gate_request {R} (f : nat -> zk.Conn -> R * option zk.Error) conn :
  keeps_gate (request f conn).
Proof. intros w. unfold ends. by rewrite request_eq. Qed.

Lemma keeps_gate_ensureConnection ctx : keeps_gate (ensureConnection ctx).
Proof.
  intros w. eapply ends_weaken; [apply ensureConnection_ends| |].
  - by intros r w' ([? ?] & _).
  - by intros w' (-> & ? & _).
Qed.

Lemma inside_retry_loop_steps {R X} ctx (fn : zk.Conn -> M (R * option error))
    (left i : nat) (r : R) (k : R * option error -> Prog X) :
  (forall conn, keeps_gate (fn conn)) ->
  (forall res, inside (k res)) ->
  inside (retry_loop_steps ctx fn left i r k).
Proof.
  intros Hfn Hk. revert i r. induction left as [|left IH]; intros i r; [apply Hk|].
  cbn [retry_loop_steps inside]. split.
  { destruct (0 <? i)%nat; [apply keeps_gate_Sleep|apply keeps_gate_ret]. }
  intros []. split; [apply keeps_gate_ensureConnection|].
  intros [conn|err]; cbn [inside].
  - split; [apply Hfn|]. intros [r' err]. cbn [inside].
    split; [apply keeps_gate_add_attempt|]. intros [].
    case_bool_decide; [|apply Hk]. cbn [inside].
    split; [apply keeps_gate_invalidate|]. intros []. apply IH.
  - split; [apply keeps_gate_add_attempt|]. intros []. apply IH.
Qed.

Lemma before_retry_steps {R X} ctx (fn : zk.Conn -> M (R * option error)) (r0 : R)
    (k : R * option error -> Prog X) :
  (forall conn, keeps_gate (fn conn)) ->
  (forall res, outside (k res)) ->
  before (retry_steps ctx fn r0 k).
Proof.
  intros Hfn Hk. unfold retry_steps. cbn [before]. split; [|intros e; apply Hk].
  apply inside_retry_loop_steps; [done|]. intros res. cbn [inside]. apply Hk.
Qed.

Lemma before_perform_steps ctx op : before (perform_steps ctx op).
Proof.
  destruct op; unfold perform_steps;
    (apply before_retry_steps; [intros conn; apply keeps_gate_request|done]).
Qed.

(** *** Counting *)

Lemma permits_insert (l : list Caller) (i : nat) (x y : Caller) :
  l !! i = Some x ->
  (sum_list_with held (<[i := y]> l) + held x = sum_list_with held l + held y)%nat.
Proof.
  revert i. induction l as [|z l IH]; intros i Hi; [done|].
  destruct i as [|i]; cbn in Hi.
  - injection Hi as ->. cbn. lia.
  - change (<[S i := y]> (z :: l)) with (z :: <[i := y]> l).
    cbn [sum_list_with]. specialize (IH i Hi). lia.
Qed.

Lemma in_step_call (x : Caller) : in_step x -> in_call (todo x) = true -> held x = 1%nat.
Proof.
  unfold in_step. destruct x as [[|[|h]] [ | | | |]]; cbn; try done.
  by intros [[]|[]].
Qed.

Lemma calling_le_permits (l : list Caller) :
  Forall in_step l ->
  (length (filter (fun x => in_call (todo x) = true) l) <= sum_list_with held l)%nat.
Proof.
  induction 1 as [|x l Hx _ IH]; [done|].
  rewrite filter_cons. cbn [sum_list_with]. case_decide as Hcall.
  - rewrite (in_step_call x Hx Hcall). cbn [length]. cbn. lia.
  - cbn. lia.
Qed.

(** *** The invariant *)

Lemma arrive_balanced address ops : balanced (arrive address ops).
Proof.
  unfold balanced, arrive, permits. cbn. split_and!; try done; try lia.
  - induction ops as [|x ops IH]; [done|]. cbn. by rewrite <- IH.
  - apply Forall_fmap, Forall_true. intros [ctx op]. cbn. left.
    apply before_perform_steps.
Qed.

Lemma step_balanced i p p' : balanced p -> step i p p' -> balanced p'.
Proof.
  intros (Hsize & Hcur & Hle & Hexit & Hall) Hstep. unfold balanced, permits in *.
  destruct Hstep as [h ctx k err w' Hlive Hi Hfree Hacq|h ctx k d Hlive Hi Hfull Hd
                    |h k w' Hlive Hi Hrel|h A fn k a w' Hlive Hi Hfn
                    |h A m k a w' Hlive Hi Hm|h A m k w' Hlive Hi Hm];
    cbn [world callers exited].
  - (* a permit is free *)
    pose proof (permits_insert _ i _
      (mkCaller (if err is None then S h else h) (k err)) Hi) as Hsum.
    assert (Hx : in_step (mkCaller h (AcquireThen ctx k)))
      by (eapply Forall_lookup_1; eauto).
    unfold in_step in Hx. cbn in Hx. destruct h as [|[|h]]; [|done..].
    destruct Hx as [[Hin Hout]|[]].
    destruct (Acquire_inv _ _ _ _ Hacq)
      as (_ & _ & Hsize' & _ & _ & _ & _ & _ & _ & _ & _ & Hgate).
    destruct Hfree as [s' Hs']. unfold semaphore.TryAcquire in Hs'.
    destruct (Z.leb_spec (semaphore.cur (sema (c (world p))) + 1)
                (semaphore.size (sema (c (world p))))); [|done].
    destruct err as [e|]; cbn in Hsum.
    + destruct Hgate as [-> _].
      split_and!; [first [done|lia]..|]. apply Forall_insert; [done|]. right. apply Hout.
    + split_and!; [lia..|]. apply Forall_insert; [done|]. exact Hin.
  - (* the caller gives up *)
    pose proof (permits_insert _ i _
      (mkCaller h (k (Some (ErrCtx (cause ctx))))) Hi) as Hsum.
    assert (Hx : in_step (mkCaller h (AcquireThen ctx k)))
      by (eapply Forall_lookup_1; eauto).
    unfold in_step in Hx. cbn in Hx. destruct h as [|[|h]]; [|done..].
    destruct Hx as [[Hin Hout]|[]]. cbn in Hsum.
    split_and!; [cbn; first [done|lia]..|].
    apply Forall_insert; [done|]. right. apply Hout.
  - (* release *)
    pose proof (permits_insert _ i _ (mkCaller (pred h) k) Hi) as Hsum.
    assert (Hx : in_step (mkCaller h (ReleaseThen k)))
      by (eapply Forall_lookup_1; eauto).
    unfold in_step in Hx. cbn in Hx. destruct h as [|[|h]]; [by destruct Hx|..|done].
    unfold Release, semaphore.Release in Hrel.
    destruct (Z.ltb_spec (semaphore.cur (sema (c (world p))) - 1) 0); [done|].
    injection Hrel as <-. cbn in Hsum.
    split_and!; [cbn; first [done|lia]..|].
    apply Forall_insert; [done|]. by right.
  - (* the driver call returns *)
    pose proof (permits_insert _ i _ (mkCaller h (k a)) Hi) as Hsum.
    assert (Hx : in_step (mkCaller h (CallThen fn k)))
      by (eapply Forall_lookup_1; eauto).
    unfold in_step in Hx. cbn in Hx.
    destruct h as [|[|h]]; [by destruct Hx|..|done].
    destruct Hx as [Hkeeps Hin]. specialize (Hkeeps (world p)).
    unfold ends in Hkeeps. rewrite Hfn in Hkeeps. rewrite Hkeeps. cbn in Hsum.
    split_and!; [first [done|lia]..|]. apply Forall_insert; [done|]. apply Hin.
  - (* a block of the client *)
    pose proof (permits_insert _ i _ (mkCaller h (k a)) Hi) as Hsum.
    assert (Hx : in_step (mkCaller h (Then m k)))
      by (eapply Forall_lookup_1; eauto).
    unfold in_step in Hx. cbn in Hx. cbn in Hsum.
    destruct h as [|[|h]]; [| |done].
    + destruct Hx as [[]|[Hkeeps Hout]]. specialize (Hkeeps (world p)).
      unfold ends in Hkeeps. rewrite Hm in Hkeeps. rewrite Hkeeps.
      split_and!; [first [done|lia]..|]. apply Forall_insert; [done|]. right. apply Hout.
    + destruct Hx as [Hkeeps Hin]. specialize (Hkeeps (world p)).
      unfold ends in Hkeeps. rewrite Hm in Hkeeps. rewrite Hkeeps.
      split_and!; [first [done|lia]..|]. apply Forall_insert; [done|]. apply Hin.
  - (* the process exits *)
    assert (Hkeeps : keeps_gate m).
    { destruct Hi as [Hi|Hi].
      - assert (Hx : in_step (mkCaller h (CallThen m k)))
          by (eapply Forall_lookup_1; eauto).
        unfold in_step in Hx. cbn in Hx.
        destruct h as [|[|h]]; [by destruct Hx| |done]. by destruct Hx.
      - assert (Hx : in_step (mkCaller h (Then m k)))
          by (eapply Forall_lookup_1; eauto).
        unfold in_step in Hx. cbn in Hx.
        destruct h as [|[|h]]; [| |done].
        + by destruct Hx as [[]|[? _]].
        + by destruct Hx. }
    specialize (Hkeeps (world p)). unfold ends in Hkeeps. rewrite Hm in Hkeeps.
    destruct Hkeeps as [-> Htls]. done.
Qed.

Lemma reachable_balanced address ops p :
  reachable (arrive address ops) p -> balanced p.
Proof.
  induction 1 as [|p p' i _ IH Hstep]; [apply arrive_balanced|].
  by eapply step_balanced.
Qed.

Lemma step_length i p p' : step i p p' -> length (callers p') = length (callers p).
Proof. destruct 1; cbn; by rewrite ?length_insert. Qed.

Lemma reachable_length p0 p : reachable p0 p -> length (callers p) = length (callers p0).
Proof.
  induction 1 as [|p p' i _ IH Hstep]; [done|]. by rewrite (step_length _ _ _ Hstep).
Qed.

Lemma enter_first_live (k : nat) (p : Pool) :
  exited p = false -> exited (enter_first k p) = false.
Proof.
  intros Hlive. induction k as [|k IH]; [done|]. cbn [enter_first].
  destruct (callers (enter_first k p) !! k) as [[h [ |ctx cont| | |]]|]; try done.
  destruct (semaphore.TryAcquire _); [|done].
  by destruct (Acquire ctx _).
Qed.

Lemma enter_first_reachable (p0 p : Pool) (k : nat) :
  reachable p0 p -> exited p = false -> reachable p0 (enter_first k p).
Proof.
  intros Hreach Hlive. induction k as [|k IH]; [done|]. cbn [enter_first].
  pose proof (enter_first_live k p Hlive) as Hlive'.
  destruct (callers (enter_first k p) !! k) as [[h [ |ctx cont| | |]]|] eqn:Hk; try done.
  destruct (semaphore.TryAcquire _) as [s'|] eqn:Hfree; [|done].
  destruct (Acquire ctx _) as [err w'| | |] eqn:Hacq; try done.
  eapply reach_step; [exact IH|]. by eapply (step_acquire k).
Qed.

Lemma enter_first_callers (k : nat) (p : Pool) (j : nat) :
  (k <= j)%nat -> callers (enter_first k p) !! j = callers p !! j.
Proof.
  induction k as [|k IH]; intros Hj; [done|]. cbn [enter_first].
  destruct (callers (enter_first k p) !! k) as [[h [ |ctx cont| | |]]|];
    try (apply IH; lia).
  destruct (semaphore.TryAcquire _); [|apply IH; lia].
  destruct (Acquire ctx _); try (apply IH; lia).
  cbn. rewrite list_lookup_insert_ne by lia. apply IH. lia.
Qed.

(** C7: the operations [ops], each called by a goroutine of its own on
    one client, in any interleaving of their steps.  Every caller runs the
    operation of the client, cut at the driver call, at [Acquire] and at
    [Release].  The gate has [maxConcurrentRequests] permits (32 unless
    configured otherwise); the permits out are those the callers hold;
    a caller inside the driver call holds one, so the callers inside the
    driver call are never more than the permits of the gate.  A caller in
    [Acquire] holds none: while every permit is out it can only give up
    on its context, and then it has made no request and the gate is as it
    was; and when a permit is free it moves.  A caller at its deferred
    [Release] holds a permit and gives it back without a panic; a caller
    that has returned holds none: read on its own, an operation that is
    through the gate returns with its permit given back, on every path,
    and one that [Acquire] has turned away returns the fault of its
    context with no permit taken. *)
Theorem gate_bounds_callers (address : string) (ops : list (Context * Operation))
    (p : Pool) :
  reachable (arrive address ops) p ->
  let gate := sema (c (world p)) in
  (forall ctx op w, run (perform_steps ctx op) w = perform ctx op w)
  ∧ length (callers p) = length ops
  ∧ semaphore.size gate = maxConcurrentRequests
  ∧ semaphore.cur gate = Z.of_nat (permits p)
  ∧ (forall i x, callers p !! i = Some x -> in_call (todo x) = true -> held x = 1%nat)
  ∧ Z.of_nat (calling p) <= Z.of_nat (permits p) <= Z.max 0 maxConcurrentRequests
  ∧ (forall i h ctx k,
       callers p !! i = Some (mkCaller h (AcquireThen ctx k)) ->
       h = 0%nat
       ∧ (semaphore.size gate <= semaphore.cur gate ->
          forall p', step i p p' ->
            is_Some (done_at ctx)
            ∧ callers p' !! i = Some (mkCaller 0 (k (Some (ErrCtx (cause ctx)))))
            ∧ in_call (k (Some (ErrCtx (cause ctx)))) = false
            ∧ sema (c (world p')) = gate ∧ calls (world p') = calls (world p))
       ∧ (semaphore.cur gate < semaphore.size gate -> exited p = false ->
          exists p', step i p p'))
  ∧ (forall i h k,
       callers p !! i = Some (mkCaller h (ReleaseThen k)) ->
       h = 1%nat ∧ exists w', Release (world p) = Ret tt w')
  ∧ (forall i h r, callers p !! i = Some (mkCaller h (Return r)) -> h = 0%nat)
  ∧ (exited p = true -> tls_configured)
  ∧ (forall ctx op w w1,
       passes_gate ctx w w1 ->
       ends (perform ctx op) w
         (fun _ w' =>
            semaphore.cur (sema (c w')) = semaphore.cur (sema (c w1)) - 1
            ∧ semaphore.size (sema (c w')) = semaphore.size (sema (c w)))
         (fun _ => tls_configured))
  ∧ (forall ctx op w err w1,
       Acquire ctx w = Ret (Some err) w1 ->
       perform ctx op w = Ret (Some err) w1 ∧ sema (c w1) = sema (c w)).
Proof.
  intros Hreach gate.
  destruct (reachable_balanced _ _ _ Hreach) as (Hsize & Hcur & Hle & Hexit & Hall).
  pose proof (reachable_length _ _ Hreach) as Hlen.
  assert (Hshape : forall i x, callers p !! i = Some x -> in_step x)
    by (intros i x Hi; eapply Forall_lookup_1; eauto).
  subst gate. split_and!; try done.
  - apply run_perform_steps.
  - rewrite Hlen. unfold arrive. cbn. by rewrite length_fmap.
  - intros i x Hi. apply in_step_call. by eapply Hshape.
  - unfold calling, permits. pose proof (calling_le_permits _ Hall). lia.
  - lia.
  - (* a caller in [Acquire] *)
    intros i h ctx k Hi. pose proof (Hshape _ _ Hi) as Hx.
    unfold in_step in Hx. cbn in Hx. destruct h as [|[|h]]; [|done..].
    destruct Hx as [[Hin Hout]|[]].
    split_and!; [done| |].
    + intros Hfull p' Hstep.
      assert (Hnone : semaphore.TryAcquire (sema (c (world p))) = None).
      { unfold semaphore.TryAcquire.
        destruct (Z.leb_spec (semaphore.cur (sema (c (world p))) + 1)
                    (semaphore.size (sema (c (world p))))); [lia|done]. }
      destruct Hstep as [h' ctx' k' err w' Hlive Hi' Hfree Hacq
                        |h' ctx' k' d Hlive Hi' _ Hd
                        |h' k' w' Hlive Hi' Hrel|h' A fn k' a w' Hlive Hi' Hfn
                        |h' A m k' a w' Hlive Hi' Hm|h' A m k' w' Hlive Hi' Hm];
        rewrite Hi in Hi'; try done.
      * rewrite Hnone in Hfree. by destruct Hfree.
      * injection Hi' as <- <- <-. cbn.
        rewrite list_lookup_insert_eq by (by eapply lookup_lt_Some).
        split_and!; try done. specialize (Hout (ErrCtx (cause ctx))).
        by destruct (k (Some (ErrCtx (cause ctx)))).
      * by destruct Hi'.
    + intros Hfree Hlive.
      assert (Hsome : semaphore.TryAcquire (sema (c (world p)))
                      = Some {| semaphore.size := semaphore.size (sema (c (world p)));
                                semaphore.cur := semaphore.cur (sema (c (world p))) + 1 |}).
      { unfold semaphore.TryAcquire.
        destruct (Z.leb_spec (semaphore.cur (sema (c (world p))) + 1)
                    (semaphore.size (sema (c (world p))))); [done|lia]. }
      assert (Hacq : exists err w', Acquire ctx (world p) = Ret err w').
      { unfold Acquire. rewrite Hsome.
        destruct (acquire_checks_done && Done ctx (now (world p))); eauto. }
      destruct Hacq as (err & w' & Hacq). eexists.
      by eapply (step_acquire i p 0%nat ctx k err w').
  - (* a caller at its [Release] *)
    intros i h k Hi. pose proof (Hshape _ _ Hi) as Hx.
    unfold in_step in Hx. cbn in Hx. destruct h as [|[|h]]; [by destruct Hx| |done].
    split; [done|].
    assert (Hge : (1 <= permits p)%nat).
    { apply list_elem_of_lookup_2 in Hi. by apply (sum_list_with_in _ held) in Hi. }
    unfold Release, semaphore.Release.
    destruct (Z.ltb_spec (semaphore.cur (sema (c (world p))) - 1) 0); [lia|]. eauto.
  - (* a caller that has returned *)
    intros i h r Hi. pose proof (Hshape _ _ Hi) as Hx.
    unfold in_step in Hx. cbn in Hx. by destruct h as [|[|h]].
  - (* the permit comes back *)
    intros ctx op w w1 Hgate.
    eapply ends_weaken; [by apply perform_ends| |done].
    intros err w' (w2 & _ & Hrel & _).
    rewrite (passes_gate_held _ _ _ Hgate) in Hrel.
    injection Hrel as <-. cbn. split; [done|].
    destruct Hgate as [_ Hacq].
    by destruct (Acquire_inv _ _ _ _ Hacq) as (_ & _ & -> & _).
  - (* no permit taken *)
    intros ctx op w err w1 Hacq.
    destruct (Acquire_inv _ _ _ _ Hacq)
      as (_ & _ & _ & _ & _ & _ & _ & _ & _ & _ & _ & Hse & _).
    split; [|done].
    destruct op; unfold perform, Get, Exists, Create, Set_, Delete, retry;
      unfold bind at 1; unfold bind at 1; by rewrite Hacq.
Qed.

End Gate.

(** Scenario A: of 40 callers on the default gate 32 are in; the other 8
    are in [Acquire] and, their context being without an end, stay
    there. *)
Lemma gate_bounds_callers_witness :
  let ops := replicate 40 (Background, OpGet "/clickhouse") in
  let p0 := arrive (H := defaults) (H0 := Samples.env_timeouts) "zk1:2181" ops in
  let p := enter_first (H0 := Samples.env_timeouts) 32 p0 in
  reachable (H0 := Samples.env_timeouts) p0 p
  ∧ permits p = 32%nat
  ∧ waiting p = 8%nat
  ∧ Z.of_nat (calling p) <= 32
  ∧ forall p', ¬ step (H0 := Samples.env_timeouts) 39 p p'.
Proof.
  intros ops p0 p.
  assert (Hreach : reachable (H0 := Samples.env_timeouts) p0 p)
    by (apply enter_first_reachable; [constructor|reflexivity]).
  assert (Hheld : permits p = 32%nat) by (vm_compute; reflexivity).
  assert (Hwaiting : waiting p = 8%nat) by (vm_compute; reflexivity).
  destruct (gate_bounds_callers (H := defaults) (H0 := Samples.env_timeouts)
              "zk1:2181" ops p Hreach)
    as (_ & _ & Hsize & Hcur & _ & Hcalling & Hwait & _).
  split_and!; [exact Hreach|exact Hheld|exact Hwaiting| |].
  - change (Z.max 0 (maxConcurrentRequests (Globals := defaults))) with 32 in Hcalling.
    lia.
  - intros p' Hstep.
    assert (Hlast : callers p !! 39%nat
                    = Some (mkCaller 0
                              (perform_steps (H := defaults) (H0 := Samples.env_timeouts)
                                 Background (OpGet "/clickhouse")))).
    { unfold p. rewrite enter_first_callers by lia. reflexivity. }
    destruct (Hwait 39%nat _ _ _ Hlast) as (_ & Hfull & _).
    destruct (Hfull ltac:(rewrite Hsize, Hcur, Hheld; reflexivity) p' Hstep)
      as ([d Hd] & _).
    discriminate Hd.
Defined.

(** One caller on its way: through the gate, a session dialed, and now
    inside the driver call, with its permit. *)
Example one_caller_in_call :
  let p0 := arrive (H := defaults) (H0 := Samples.env_timeouts) "zk1:2181"
              [(Background, OpGet "/clickhouse")] in
  exists p,
    reachable (H0 := Samples.env_timeouts) p0 p
    ∧ calling p = 1%nat ∧ permits p = 1%nat
    ∧ calls (world p) = [] ∧ length (connects (world p)) = 1%nat.
Proof.
  intros p0. eexists. split.
  - eapply reach_step; [eapply reach_step; [eapply reach_step; [apply reach_start|]|]|].
    + eapply (step_acquire 0); [reflexivity|reflexivity|by eexists|reflexivity].
    + eapply (step_then 0); [reflexivity|reflexivity|reflexivity].
    + eapply (step_then 0); [reflexivity|reflexivity|reflexivity].
  - vm_compute. done.
Qed.

End GateFacts.

(** * Further properties *)

(** ** [strings], as [connect] and [connectionAddAuth] use it *)

Module StringsMore.
Import Strings Notions StringsFacts.

Lemma sapp_cons (a : ascii) (s t : string) : String a s +:+ t = String a (s +:+ t).
Proof. reflexivity. Qed.

Lemma sapp_nil (t : string) : "" +:+ t = t.
Proof. reflexivity. Qed.

Lemma sapp_empty_r (s : string) : s +:+ "" = s.
Proof. induction s as [|a s IH]; [done|]. by rewrite sapp_cons, IH. Qed.

Lemma sapp_assoc (s1 s2 s3 : string) : (s1 +:+ s2) +:+ s3 = s1 +:+ (s2 +:+ s3).
Proof. induction s1 as [|a s1 IH]; [done|]. by rewrite !sapp_cons, IH. Qed.

Lemma Join_cons (x : string) (l : list string) (sep : string) :
  l ≠ [] -> Join (x :: l) sep = x +:+ sep +:+ Join l sep.
Proof. by destruct l. Qed.

Lemma split_from_byte_step (b a : ascii) (cur s : string) :
  split_from (String b "") 0 cur (String a s)
  = if bool_decide (a = b)
    then cur :: split_from (String b "") 0 "" s
    else split_from (String b "") 0 (cur +:+ String a "") s.
Proof.
  change (split_from (String b "") 0 cur (String a s)) with
    (if HasPrefix (String a s) (String b "")
     then cur :: split_from (String b "") 0 "" s
     else split_from (String b "") 0 (cur +:+ String a "") s).
  by rewrite HasPrefix_byte.
Qed.

(** Joining the pieces with the separator gives the string back. *)
Lemma Join_split_from (b : ascii) (cur s : string) :
  Join (split_from (String b "") 0 cur s) (String b "") = cur +:+ s.
Proof.
  revert cur. induction s as [|a s IH]; intros cur.
  - cbn [split_from Join]. by rewrite sapp_empty_r.
  - rewrite split_from_byte_step. case_bool_decide as Hab.
    + subst a. rewrite Join_cons by apply split_from_nonempty.
      rewrite IH. done.
    + rewrite IH, sapp_assoc. done.
Qed.

Lemma Contains_byte_cons (b a : ascii) (s : string) :
  Contains (String a s) (String b "") = bool_decide (a = b) || Contains s (String b "").
Proof.
  change (Contains (String a s) (String b "")) with
    (HasPrefix (String a s) (String b "") || Contains s (String b "")).
  by rewrite HasPrefix_byte.
Qed.

Lemma Contains_byte_app (b : ascii) (s1 s2 : string) :
  Contains (s1 +:+ s2) (String b "")
  = Contains s1 (String b "") || Contains s2 (String b "").
Proof.
  induction s1 as [|a s1 IH].
  - rewrite sapp_nil. by destruct s2.
  - rewrite sapp_cons, !Contains_byte_cons, IH. by rewrite orb_assoc.
Qed.

(** No piece holds the separator. *)
Lemma split_from_clean (b : ascii) (cur s : string) :
  Contains cur (String b "") = false ->
  Forall (fun piece => Contains piece (String b "") = false)
    (split_from (String b "") 0 cur s).
Proof.
  revert cur. induction s as [|a s IH]; intros cur Hcur.
  - cbn. by constructor.
  - rewrite split_from_byte_step. case_bool_decide as Hab.
    + constructor; [done|]. by apply IH.
    + apply IH. rewrite Contains_byte_app, Hcur, Contains_byte_cons.
      by rewrite bool_decide_eq_false_2.
Qed.

(** [cut] at a one-byte separator. *)
Lemma cut_byte_cons (b a : ascii) (s : string) :
  cut (String a s) (String b "")
  = if bool_decide (a = b) then Some ("", s)
    else match cut s (String b "") with
         | Some (before, after) => Some (String a before, after)
         | None => None
         end.
Proof.
  change (cut (String a s) (String b "")) with
    (if HasPrefix (String a s) (String b "")
     then Some ("", drop (String.length (String b "")) (String a s))
     else match cut s (String b "") with
          | Some (before, after) => Some (String a before, after)
          | None => None
          end).
  by rewrite HasPrefix_byte.
Qed.

Lemma cut_absent (b : ascii) (s : string) :
  Contains s (String b "") = false -> cut s (String b "") = None.
Proof.
  induction s as [|a s IH]; [done|].
  rewrite Contains_byte_cons, cut_byte_cons. case_bool_decide; [done|].
  cbn [orb]. intros Hs. by rewrite IH.
Qed.

Lemma cut_first (b : ascii) (before after : string) :
  Contains before (String b "") = false ->
  cut (before +:+ String b after) (String b "") = Some (before, after).
Proof.
  induction before as [|a before IH].
  - intros _. rewrite sapp_nil, cut_byte_cons.
    by rewrite bool_decide_eq_true_2.
  - rewrite Contains_byte_cons. case_bool_decide; [done|]. cbn [orb]. intros Hb.
    rewrite sapp_cons, cut_byte_cons, bool_decide_eq_false_2 by done.
    by rewrite IH.
Qed.

(** [TrimRight] with the line feed as its cut set. *)
Lemma TrimRight_all_newlines (k : nat) : TrimRight (newlines k) (String "010" "") = "".
Proof. induction k as [|k IH]; [done|]. cbn [newlines TrimRight]. by rewrite IH. Qed.

Lemma TrimRight_app_newlines (s : string) (k : nat) :
  TrimRight s (String "010" "") = s ->
  TrimRight (s +:+ newlines k) (String "010" "") = s.
Proof.
  induction s as [|a s IH].
  - intros _. apply TrimRight_all_newlines.
  - rewrite sapp_cons. cbn [TrimRight]. intros Hs.
    destruct (TrimRight s (String "010" "")) as [|a' t] eqn:Ht.
    + destruct (has_byte (String "010" "") a); [done|].
      injection Hs as <-. rewrite sapp_nil. by rewrite TrimRight_all_newlines.
    + injection Hs as Hs. rewrite IH by done. rewrite <- Hs. done.
Qed.

Lemma TrimRight_prefix (p s t : string) (a : ascii) :
  TrimRight s (String "010" "") = String a t ->
  TrimRight (p +:+ s) (String "010" "") = p +:+ String a t.
Proof.
  intros Hs. induction p as [|x p IH]; [done|].
  rewrite !sapp_cons. cbn [TrimRight]. rewrite IH. by destruct p.
Qed.

End StringsMore.

(** ** Package [zookeeper]: sessions *)

Module ZookeeperMore.
Import Strings Zookeeper Notions StringsFacts ZookeeperFacts.

Lemma ends_and {A} (m : M A) (w : World)
    (Q1 Q2 : A -> World -> Prop) (F1 F2 : World -> Prop) :
  ends m w Q1 F1 -> ends m w Q2 F2 ->
  ends m w (fun a w' => Q1 a w' ∧ Q2 a w') (fun w' => F1 w' ∧ F2 w').
Proof. unfold ends. by destruct (m w). Qed.

Lemma split_from_absent (b : ascii) (cur s : string) :
  Contains s (String b "") = false ->
  split_from (String b "") 0 cur s = [cur +:+ s].
Proof.
  revert cur. induction s as [|a s IH]; intros cur.
  - intros _. cbn [split_from]. by rewrite StringsMore.sapp_empty_r.
  - rewrite StringsMore.Contains_byte_cons, StringsMore.split_from_byte_step.
    case_bool_decide; [done|]. cbn [orb]. intros Hs.
    rewrite IH by done. by rewrite StringsMore.sapp_assoc.
Qed.

(** The first piece of a split is the string up to the first separator. *)
Lemma Split_head (b : ascii) (s : string) :
  exists rest,
    s = hd "" (Split s (String b "")) +:+ rest
    ∧ (rest = "" ∨ exists tail, rest = String b tail)
    ∧ Contains (hd "" (Split s (String b ""))) (String b "") = false.
Proof.
  pose proof (StringsMore.Join_split_from b "" s) as Hjoin.
  pose proof (StringsMore.split_from_clean b "" s eq_refl) as Hclean.
  unfold Split. destruct (split_from (String b "") 0 "" s) as [|x l] eqn:Hsplit.
  { by apply split_from_nonempty in Hsplit. }
  apply Forall_cons in Hclean as [Hx _]. cbn [hd].
  destruct l as [|y l].
  - exists "". cbn in Hjoin. rewrite StringsMore.sapp_empty_r. split_and!; auto.
  - rewrite StringsMore.Join_cons in Hjoin by done.
    exists (String b "" +:+ Join (y :: l) (String b "")).
    split_and!; [done| |done]. right. by eexists.
Qed.

Section Sessions.
Context `{Globals} `{Env}.

(** X1: [connect] either calls [zk.Connect] once, on the hosts of the
    address, and answers what the driver answers, or exits the process
    having called nothing.  It uses TLS exactly when a certificate and a
    key are both configured (one of them alone gives a plain transport);
    it exits exactly when TLS is configured and the address has a comma,
    or the key pair does not load, or the CA file cannot be read.  The
    TLS server name is the address up to its first colon. *)
Theorem connect_transport (addr : string) w :
  let tls := bool_decide (certFile ≠ "") && bool_decide (keyFile ≠ "") in
  ends (connect addr) w
    (fun r w' =>
       w' = add_connect
              (Split addr ",", if tls then Some (hd "" (Split addr ":")) else None) w
       ∧ r = match zk_Connect (length (connects w)) (Split addr ",") with
             | inl events => inl (length (connects w), events)
             | inr code => inr (ErrConnect code)
             end
       ∧ (tls = true ->
          Contains addr "," = false
          ∧ tls_LoadX509KeyPair certFile keyFile = true
          ∧ is_Some (os_ReadFile caFile)
          ∧ Split addr "," = [addr]
          ∧ exists rest,
              addr = hd "" (Split addr ":") +:+ rest
              ∧ (rest = "" ∨ exists port, rest = String ":" port)
              ∧ Contains (hd "" (Split addr ":")) ":" = false))
    (fun w' =>
       w' = w ∧ tls = true
       ∧ (Contains addr "," = true
          ∨ tls_LoadX509KeyPair certFile keyFile = false
          ∨ os_ReadFile caFile = None))
  ∧ (certFile = "" ∨ keyFile = "" -> tls = false).
Proof.
  intros tls. split.
  - assert (Hzk : forall name,
      zkConnect (Split addr ",") name w
      = Ret match zk_Connect (length (connects w)) (Split addr ",") with
            | inl events => inl (length (connects w), events)
            | inr code => inr (ErrConnect code)
            end (add_connect (Split addr ",", name) w)).
    { intros name. unfold zkConnect. by destruct (zk_Connect _ _). }
    unfold ends, connect. fold tls. destruct tls eqn:Htls.
    + destruct (Contains addr ",") eqn:Hcomma;
        [cbn; split_and!; try done; by left|].
      destruct (tls_LoadX509KeyPair certFile keyFile) eqn:Hpair; cbn [negb];
        [|cbn; split_and!; try done; right; by left].
      destruct (os_ReadFile caFile) as [ca|] eqn:Hca;
        [|cbn; split_and!; try done; right; by right].
      rewrite Hzk. split_and!; try done. intros _. split_and!; try done.
      * unfold Split. by rewrite split_from_absent.
      * apply Split_head.
    + rewrite Hzk. done.
  - subst tls. intros [-> | ->]; [done|]. by rewrite andb_false_r.
Qed.

(** X2: the hosts [connect] hands to [zk.Connect] are the address cut at
    its commas: there is at least one, none holds a comma, joined by
    commas they give the address back, and there is one only exactly
    when the address has no comma. *)
Theorem connect_servers (addr : string) w :
  ends (connect addr) w
    (fun _ w' =>
       exists servers name,
         connects w' = (servers, name) :: connects w
         ∧ servers ≠ []
         ∧ Join servers "," = addr
         ∧ Forall (fun server => Contains server "," = false) servers
         ∧ (length servers = 1%nat ↔ Contains addr "," = false))
    (fun _ => True).
Proof.
  eapply ends_weaken; [apply connect_ends| |done].
  intros r w' [[name ->] _]. exists (Split addr ","), name. cbn.
  split_and!; try done.
  - apply split_from_nonempty.
  - apply (StringsMore.Join_split_from "," "" addr).
  - by apply (StringsMore.split_from_clean "," "" addr).
  - pose proof (StringsFacts.Split_byte "," addr) as Hmany.
    pose proof (split_from_nonempty "," 0 "" addr) as Hne. unfold Split in *.
    destruct (Contains addr ","); destruct (split_from "," 0 "" addr) as [|x [|y l]];
      cbn [length] in *; split; try done; try lia; intros _.
Qed.

(** X3: with no session cached, [ensureConnection] dials once and does
    what the dial answers.  A session is cached, exactly one monitor is
    started for it, on the notifications the dial has left unread, at
    most one credential is added, and on this session; and asking again
    answers the same session with nothing done.  A fault is passed on
    with nothing cached, no monitor started and no credential added.  An
    exit of the dial is the exit of the process. *)
Theorem ensureConnection_dials_once ctx w :
  connection (c w) = None ->
  match dial ctx (address (c w)) w with
  | Ret (inl (conn, events)) w1 =>
      exists w',
        ensureConnection ctx w = Ret (inl conn) w'
        ∧ connection (c w') = Some conn
        ∧ monitors w' = (conn, events) :: monitors w
        ∧ (auths w' = auths w
           ∨ exists scheme auth, auths w' = (conn, scheme, auth) :: auths w)
        ∧ connects w' = connects w1 ∧ closed w' = closed w1 ∧ now w' = now w1
        ∧ sema (c w') = sema (c w) ∧ address (c w') = address (c w)
        ∧ length (connects w') = S (length (connects w))
        ∧ ensureConnection ctx w' = Ret (inl conn) w'
  | Ret (inr err) w1 =>
      ensureConnection ctx w = Ret (inr err) w1
      ∧ connection (c w1) = None
      ∧ monitors w1 = monitors w ∧ auths w1 = auths w
      ∧ length (connects w1) = S (length (connects w))
  | Fatal w1 => ensureConnection ctx w = Fatal w1 ∧ w1 = w
  | Panic _ | Blocked _ => False
  end.
Proof.
  intros Hnone. pose proof (dial_ends ctx (address (c w)) w) as Hdial.
  unfold ends in Hdial.
  destruct (dial ctx (address (c w)) w) as [[[conn events]|err] w1|w1|w1|w1] eqn:Hd;
    try done; rewrite (ensureConnection_dials _ _ Hnone).
  - destruct Hdial as (Hc & Hca & Hsl & Hmo & Hau & Hat & Hnow & Hco & _ & Hcl).
    rewrite (bind_Ret _ _ _ _ _ Hd).
    unfold bind at 1, modify at 1. unfold bind at 1, modify at 1.
    set (w2 := add_monitor (conn, events) (set_connection (Some conn) w1)).
    assert (Hadd : exists w',
      connectionAddAuth ctx w2 = Ret tt w'
      ∧ (w' = w2 ∨ exists scheme auth, w' = add_auth (conn, scheme, auth) w2)).
    { unfold connectionAddAuth.
      destruct (bool_decide (authFile = "")); [by eauto|].
      destruct (os_ReadFile authFile) as [content|]; [|by eauto].
      destruct (SplitN2 _ _) as [|scheme [|auth [|? ?]]]; try by eauto.
      eexists. split; [reflexivity|]. right. by eauto. }
    destruct Hadd as (w' & Hrun & Hw').
    rewrite (bind_Ret _ _ _ _ _ Hrun). exists w'. split; [done|].
    assert (Hagain : connection (c w') = Some conn).
    { by destruct Hw' as [->|(scheme & auth & ->)]. }
    split_and!; try done;
      try (destruct Hw' as [->|(scheme & auth & ->)]; cbn; congruence).
    all: try by apply ensureConnection_cached.
    all: destruct Hw' as [->|(scheme & auth & ->)]; cbn; rewrite Hau; eauto.
  - destruct Hdial as (Hc & Hca & Hsl & Hmo & Hau & Hat & Hnow & Hco & _).
    rewrite (bind_Ret _ _ _ _ _ Hd). split_and!; try done. congruence.
  - destruct Hdial as [-> _]. by rewrite (bind_Fatal _ _ _ _ Hd).
Qed.

(** X4: the credentials.  With no credential file configured, a file
    that cannot be read, or a content that has no colon once its
    trailing line feeds are dropped, [connectionAddAuth] adds nothing.
    With a content [scheme:secret] followed by any number of line feeds,
    where the scheme has no colon (the secret may) and the secret does
    not end in a line feed, it adds exactly this scheme and this secret
    to the cached session.  In every case it returns, the session stays
    cached, and a fault of [AddAuth] changes nothing. *)
Theorem connectionAddAuth_credentials ctx w conn :
  connection (c w) = Some conn ->
  (authFile = "" ∨ os_ReadFile authFile = None -> connectionAddAuth ctx w = Ret tt w)
  ∧ (forall content,
       os_ReadFile authFile = Some content ->
       Contains (TrimRight content (newlines 1)) ":" = false ->
       connectionAddAuth ctx w = Ret tt w)
  ∧ (forall scheme secret k,
       authFile ≠ "" ->
       os_ReadFile authFile = Some (scheme +:+ String ":" secret +:+ newlines k) ->
       Contains scheme ":" = false ->
       TrimRight secret (newlines 1) = secret ->
       connectionAddAuth ctx w = Ret tt (add_auth (conn, scheme, secret) w))
  ∧ (exists w', connectionAddAuth ctx w = Ret tt w'
       ∧ connection (c w') = Some conn
       ∧ (length (auths w') <= S (length (auths w)))%nat).
Proof.
  intros Hconn. split_and!.
  - intros [Hfile|Hread]; unfold connectionAddAuth.
    + by rewrite bool_decide_eq_true_2.
    + destruct (bool_decide (authFile = "")); [done|]. by rewrite Hread.
  - intros content Hread Hcolon. unfold connectionAddAuth.
    destruct (bool_decide (authFile = "")); [done|]. rewrite Hread.
    unfold SplitN2. change (newlines 1) with (String "010" "") in Hcolon.
    by rewrite (StringsMore.cut_absent ":" _ Hcolon).
  - intros scheme secret k Hfile Hread Hscheme Hsecret. unfold connectionAddAuth.
    rewrite bool_decide_eq_false_2 by done. rewrite Hread.
    change (newlines 1) with (String "010" "") in Hsecret.
    assert (Hrest : TrimRight (String ":" (secret +:+ newlines k)) (String "010" "")
                    = String ":" secret).
    { cbn [TrimRight].
      rewrite (StringsMore.TrimRight_app_newlines secret k Hsecret).
      by destruct secret. }
    change (String ":" secret +:+ newlines k)
      with (String ":" (secret +:+ newlines k)).
    rewrite (StringsMore.TrimRight_prefix scheme _ secret ":" Hrest).
    unfold SplitN2.
    rewrite (StringsMore.cut_first ":" scheme secret Hscheme). by rewrite Hconn.
  - unfold connectionAddAuth.
    destruct (bool_decide (authFile = "")); [exists w; split_and!; try done; lia|].
    destruct (os_ReadFile authFile) as [content|];
      [|exists w; split_and!; try done; lia].
    destruct (SplitN2 _ _) as [|scheme [|auth [|? ?]]];
      try (exists w; split_and!; try done; lia).
    rewrite Hconn. eexists. split; [reflexivity|]. cbn. split; [done|lia].
Qed.

(** [ensureConnection] with nothing cached, after its dial. *)
Lemma ensureConnection_redial ctx w :
  connection (c w) = None ->
  ends (ensureConnection ctx) w
    (fun r w' =>
       exists r1 w1,
         dial ctx (address (c w)) w = Ret r1 w1
         ∧ now w' = now w1 ∧ connects w' = connects w1 ∧ closed w' = closed w1
         ∧ match r, r1 with
           | inl conn, inl (conn1, _) => conn = conn1 ∧ connection (c w') = Some conn
           | inr err, inr err1 => err = err1 ∧ connection (c w') = None
           | _, _ => False
           end)
    (fun w' => w' = w ∧ tls_configured).
Proof.
  intros Hnone. pose proof (dial_ends ctx (address (c w)) w) as Hdial.
  unfold ends in *. rewrite (ensureConnection_dials _ _ Hnone).
  destruct (dial ctx (address (c w)) w) as [[[conn events]|err] w1|w1|w1|w1] eqn:Hd;
    try done.
  - rewrite (bind_Ret _ _ _ _ _ Hd).
    unfold bind at 1, modify at 1. unfold bind at 1, modify at 1.
    destruct (connectionAddAuth_ends ctx
                (add_monitor (conn, events) (set_connection (Some conn) w1)) conn)
      as (w2 & Hrun & Hc2 & Hnow2 & Hco2 & _ & _ & Hcl2 & _); [done|].
    rewrite (bind_Ret _ _ _ _ _ Hrun). cbn.
    eexists _, _. split; [reflexivity|]. cbn in Hc2, Hnow2, Hco2, Hcl2.
    split_and!; try done. by rewrite Hc2.
  - rewrite (bind_Ret _ _ _ _ _ Hd). cbn.
    destruct Hdial as (Hc & _). eexists _, _. split; [reflexivity|].
    split_and!; try done. congruence.
  - by rewrite (bind_Fatal _ _ _ _ Hd).
Qed.

(** [ensureConnection] with nothing cached: the monitor it starts. *)
Lemma ensureConnection_starts_monitor ctx w :
  connection (c w) = None ->
  match dial ctx (address (c w)) w with
  | Ret (inl (conn, events)) w1 =>
      exists w',
        ensureConnection ctx w = Ret (inl conn) w'
        ∧ monitors w' = (conn, events) :: monitors w1
        ∧ connects w' = connects w1 ∧ closed w' = closed w1
  | Ret (inr err) w1 => ensureConnection ctx w = Ret (inr err) w1 ∧ True
  | Fatal w1 => ensureConnection ctx w = Fatal w1 ∧ True
  | Panic _ | Blocked _ => True
  end.
Proof.
  intros Hnone. rewrite (ensureConnection_dials _ _ Hnone).
  destruct (dial ctx (address (c w)) w) as [[[conn events]|err] w1|w1|w1|w1] eqn:Hd;
    try done.
  - rewrite (bind_Ret _ _ _ _ _ Hd).
    unfold bind at 1, modify at 1. unfold bind at 1, modify at 1.
    destruct (connectionAddAuth_ends ctx
                (add_monitor (conn, events) (set_connection (Some conn) w1)) conn)
      as (w2 & Hrun & _ & _ & Hco2 & _ & _ & Hcl2 & Hmo2 & _); [done|].
    rewrite (bind_Ret _ _ _ _ _ Hrun). by exists w2.
  - by rewrite (bind_Ret _ _ _ _ _ Hd).
  - by rewrite (bind_Fatal _ _ _ _ Hd).
Qed.

(** The monitor passes over the notifications that are not terminal. *)
Lemma monitor_skips conn pre events w :
  Forall (fun e => terminal e = false) pre ->
  connectionEventsProcessor conn (pre ++ events) w
  = connectionEventsProcessor conn events w.
Proof.
  induction pre as [|p pre IH]; intros Hpre; [done|].
  apply Forall_cons in Hpre as [Hp Hpre].
  change ((p :: pre) ++ events)%list with (p :: (pre ++ events))%list.
  cbn [connectionEventsProcessor]. unfold terminal in Hp.
  destruct (zk.EventState p); try done; by apply IH.
Qed.

Lemma monitor_stops conn e events w :
  terminal e = true ->
  connectionEventsProcessor conn (e :: events) w
  = Ret events
      (let cleared := if bool_decide (connection (c w) = Some conn)
                      then set_connection None w else w in
       if closes e then add_closed conn cleared else cleared).
Proof.
  unfold terminal, closes. intros He. cbn [connectionEventsProcessor].
  destruct (zk.EventState e); try done;
    unfold bind; by rewrite invalidate_eq.
Qed.

(** X5: the monitor over a whole stream.  The first terminal notification
    (Disconnected, Expired, Connecting) decides: the notifications before
    it change nothing, it clears the cached session if that is the
    monitor's own (and on Expired and Connecting closes the transport),
    and the notifications after it are left unread.  A stream that ends
    without a terminal notification leaves the whole state as it was. *)
Theorem monitor_stream conn pre w :
  Forall (fun e => terminal e = false) pre ->
  connectionEventsProcessor conn pre w = Ret [] w
  ∧ forall e rest,
      terminal e = true ->
      connectionEventsProcessor conn (pre ++ e :: rest) w
      = Ret rest
          (let cleared := if bool_decide (connection (c w) = Some conn)
                          then set_connection None w else w in
           if closes e then add_closed conn cleared else cleared).
Proof.
  intros Hpre. split.
  - rewrite <- (app_nil_r pre). by rewrite monitor_skips.
  - intros e rest He. rewrite monitor_skips by done. by apply monitor_stops.
Qed.

(** X6: a session lost.  When the monitor of the cached session [conn]
    reads a terminal notification, the cache is empty afterwards, and the
    next [ensureConnection] dials: it calls [zk.Connect] once more, and
    the session it caches, if the dial answers one, is a new one, not
    [conn]. *)
Theorem session_loss_forces_redial ctx conn pre e rest w :
  connection (c w) = Some conn ->
  (conn < length (connects w))%nat ->
  Forall (fun e => terminal e = false) pre ->
  terminal e = true ->
  exists w',
    connectionEventsProcessor conn (pre ++ e :: rest) w = Ret rest w'
    ∧ connection (c w') = None
    ∧ connects w' = connects w
    ∧ (closes e = true -> closed w' = conn :: closed w)
    ∧ (closes e = false -> closed w' = closed w)
    ∧ ends (ensureConnection ctx) w'
        (fun r w'' =>
           length (connects w'') = S (length (connects w))
           ∧ match r with
             | inl conn' => conn' ≠ conn ∧ connection (c w'') = Some conn'
             | inr _ => connection (c w'') = None
             end)
        (fun _ => tls_configured).
Proof.
  intros Hconn Hold Hpre He.
  rewrite monitor_skips by done. rewrite (monitor_stops conn e rest w He).
  rewrite bool_decide_eq_true_2 by done. cbn zeta.
  eexists. split; [reflexivity|].
  set (w' := if closes e then _ else _).
  assert (Hw' : connection (c w') = None ∧ connects w' = connects w
                ∧ address (c w') = address (c w)).
  { subst w'. by destruct (closes e). }
  destruct Hw' as (Hnone & Hco & Had).
  split_and!; try done.
  - subst w'. by intros ->.
  - subst w'. by intros ->.
  - pose proof (dial_ends ctx (address (c w')) w') as Hfresh.
    eapply ends_weaken; [by apply ensureConnection_redial| |by intros ? [_ ?]].
    intros r w'' (r1 & w1 & Hd & _ & Hco1 & _ & Hr). unfold ends in Hfresh.
    rewrite Hd in Hfresh.
    destruct Hfresh as (_ & _ & _ & _ & _ & _ & _ & Hlen & Hr1).
    rewrite Hco1, Hlen, Hco. split; [done|].
    destruct r as [conn'|err], r1 as [[conn1 events]|err1]; try done.
    + destruct Hr as [-> Hcached]. destruct Hr1 as [-> _]. rewrite Hco.
      split; [lia|congruence].
    + by destruct Hr as [_ ?].
Qed.

End Sessions.

(** ** Package [zookeeper]: operations *)

Section Operations.
Context `{Globals} `{Env}.

(** One turn of the loop of [retry], by what [ensureConnection] answers. *)
Lemma retry_loop_turn {R} ctx (f : nat -> zk.Conn -> R * option zk.Error)
    (left i : nat) (r : R) w
    (Q : R * option error -> World -> Prop) (F : World -> Prop) :
  let w1 := if (0 <? i)%nat
            then add_sleep (2 * second + rand_Int64 (length (sleeps w)) mod (5 * second)) w
            else w in
  ends (ensureConnection ctx) w1
    (fun ce w2 =>
       match ce with
       | inr err =>
           ends (retry_loop ctx (request f) left (S i) r)
             (add_attempt (DialFailed err) w2) Q F
       | inl conn =>
           let re := f (length (calls w2)) conn in
           let w3 := add_attempt (Called conn (ErrZk <$> re.2))
                       (set_connection
                          (concurrently (length (calls w2)) (connection (c w2)))
                          (add_call conn w2)) in
           if bool_decide (ErrZk <$> re.2 = closedFault)
           then ends (retry_loop ctx (request f) left (S i) re.1)
                  (if bool_decide (connection (c w3) = Some conn)
                   then set_connection None w3 else w3) Q F
           else Q (re.1, ErrZk <$> re.2) w3
       end) F ->
  ends (retry_loop ctx (request f) (S left) i r) w Q F.
Proof.
  intros w1 Hturn.
  assert (Hw1 : (if (0 <? i)%nat then Sleep else ret tt) w = Ret tt w1).
  { subst w1. by destruct (0 <? i)%nat. }
  unfold ends at 1. cbn [retry_loop]. rewrite (bind_Ret _ _ _ _ _ Hw1).
  eapply ends_bind; [exact Hturn|done|].
  intros [conn|err] w2 Hce.
  - unfold ends. rewrite (bind_Ret _ _ _ _ _ (request_eq f conn w2)). cbn beta iota.
    unfold bind at 1, modify at 1. cbn zeta in Hce. unfold closedFault in Hce.
    destruct (bool_decide (ErrZk <$> (f (length (calls w2)) conn).2
                           = Some (ErrZk zk.ErrConnectionClosed))).
    + by rewrite (bind_Ret _ _ _ _ _ (invalidate_eq conn _)).
    + exact Hce.
  - unfold ends. unfold bind at 1, modify at 1. exact Hce.
Qed.

(** [retry] past the gate, from what the loop does. *)
Lemma retry_from_loop {R} ctx (f : nat -> zk.Conn -> R * option zk.Error) (r0 : R)
    w w1 (Q : R * option error -> World -> Prop) :
  passes_gate ctx w w1 ->
  ends (retry_loop ctx (request f) maxRetriesNum 0 r0) w1 Q (fun _ => tls_configured) ->
  ends (retry ctx (request f) r0) w
    (fun re w' => exists w2, Q re w2 ∧ w' = set_sema (sema (c w')) w2)
    (fun _ => tls_configured).
Proof.
  intros Hgate Hloop. pose proof (passes_gate_held _ _ _ Hgate) as Hrel.
  destruct Hgate as [Hcur Hacq].
  unfold retry, ends. rewrite (bind_Ret _ _ _ _ _ Hacq).
  eapply ends_bind;
    [apply (ends_and _ _ _ _ _ _ Hloop (retry_loop_ends ctx f maxRetriesNum 0 r0 w1))
    |by intros ? [? ?]|].
  intros re w2 [HQ (h & _ & Hse & _)].
  unfold ends, bind, Release. rewrite Hse, Hrel. cbn. by exists w2.
Qed.

Lemma total_app (l1 l2 : list Z) : total (l1 ++ l2) = total l1 + total l2.
Proof. unfold total. induction l1 as [|x l1 IH]; cbn; [done|]. rewrite IH. lia. Qed.

(** The sleeps of the loop and the clock. *)
Lemma retry_loop_sleeps {R} ctx (f : nat -> zk.Conn -> R * option zk.Error)
    (left i : nat) (r : R) w :
  ends (retry_loop ctx (request f) left i r) w
    (fun _ w' =>
       exists new,
         sleeps w' = (new ++ sleeps w)%list
         ∧ Forall sleep_range new
         ∧ now w + total new <= now w')
    (fun _ => True).
Proof.
  revert i r w. induction left as [|left IH]; intros i r w.
  - cbn. exists []. cbn. split_and!; try done; lia.
  - apply retry_loop_turn.
    set (w1 := if (0 <? i)%nat then _ else w).
    assert (Hw1 : exists first,
      sleeps w1 = (first ++ sleeps w)%list ∧ Forall sleep_range first
      ∧ now w1 = now w + total first).
    { subst w1. destruct (0 <? i)%nat.
      - eexists [_]. cbn. split_and!; [done| |lia].
        constructor; [|done]. apply (Sleep_bounds w).
      - exists []. cbn. split_and!; try done; lia. }
    destruct Hw1 as (first & Hsl1 & Hrange1 & Hnow1). clearbody w1.
    assert (Hstep : forall i' r' w3,
      sleeps w3 = sleeps w1 ->
      now w1 <= now w3 ->
      ends (retry_loop ctx (request f) left i' r') w3
        (fun _ w' =>
           exists new,
             sleeps w' = (new ++ sleeps w)%list
             ∧ Forall sleep_range new
             ∧ now w + total new <= now w')
        (fun _ => True)).
    { intros i' r' w3 Hsl3 Hnow3.
      eapply ends_weaken; [apply IH| |done].
      intros re w' (new & Hsl & Hrange & Hnow).
      exists (new ++ first)%list. rewrite Hsl, Hsl3, Hsl1, total_app.
      split_and!; [by rewrite <- app_assoc|by apply Forall_app|lia]. }
    eapply ends_weaken; [apply ensureConnection_ends| |done].
    intros [conn|err] w2 (_ & Hca2 & Hsl2 & _ & Hlow2 & _).
    + cbn zeta. case_bool_decide.
      * apply Hstep; by case_bool_decide.
      * exists first. cbn. rewrite Hsl2, Hsl1. split_and!; try done; lia.
    + by apply Hstep.
Qed.

Lemma total_two (new : list Z) :
  Forall sleep_range new -> length new = 2%nat -> 4 * second <= total new.
Proof.
  destruct new as [|d1 [|d2 [|? ?]]]; try done. intros Hr _.
  apply Forall_cons in Hr as [[H1 _] Hr]. apply Forall_cons in Hr as [[H2 _] _].
  cbn. lia.
Qed.

(** X7: the sleeps of an operation that is through the gate.  It sleeps
    at most twice, each time for two seconds at least and less than
    seven, and it does not return before the clock has passed the instant
    it got through the gate by these sleeps.  An operation that ends with
    "max retries number reached" has slept exactly twice, so it returns
    four seconds after the gate at the earliest. *)
Theorem retry_timing ctx op w w1 :
  passes_gate ctx w w1 ->
  ends (perform ctx op) w
    (fun err w' =>
       exists new,
         sleeps w' = (new ++ sleeps w)%list
         ∧ Forall sleep_range new
         ∧ (length new <= 2)%nat
         ∧ now w1 + total new <= now w'
         ∧ (err = Some ErrMaxRetries ->
            length new = 2%nat ∧ now w1 + 4 * second <= now w'))
    (fun _ => tls_configured).
Proof.
  intros Hgate.
  eapply ends_weaken;
    [apply (perform_from_loop ctx op w w1
              (fun err w2 =>
                 exists new,
                   sleeps w2 = (new ++ sleeps w1)%list
                   ∧ Forall sleep_range new
                   ∧ (length new <= 2)%nat
                   ∧ now w1 + total new <= now w2
                   ∧ (err = Some ErrMaxRetries -> length new = 2%nat)) Hgate)
    | |done].
  - intros R f r0.
    eapply ends_weaken;
      [apply (ends_and _ _ _ _ _ _ (retry_loop_sleeps ctx f maxRetriesNum 0 r0 w1)
                (retry_loop_ends ctx f maxRetriesNum 0 r0 w1))
      | |by intros ? [_ ?]].
    intros re w2 [(new & Hsl & Hrange & Hnow)
                  (h & _ & Hse & _ & _ & Hlen & Hsl' & _ & _ & _ & _ & Hend)].
    split; [|done]. exists new. unfold maxRetriesNum in *.
    rewrite Hsl, length_app in Hsl'.
    split_and!; try done; try lia.
    intros Herr. destruct Hend as [(_ & Hh & _)|(conn & h' & _ & _ & Hne & _)];
      [|done]. lia.
  - intros err w' (w2 & (new & Hsl & Hrange & Hlen & Hnow & Hmax) & ->).
    destruct Hgate as [_ Hacq].
    destruct (Acquire_inv _ _ _ _ Hacq)
      as (_ & _ & _ & _ & _ & Hsl1 & _).
    exists new. cbn. rewrite Hsl, Hsl1. split_and!; try done; try lia.
    intros Herr. specialize (Hmax Herr). split; [done|].
    pose proof (total_two new Hrange Hmax). lia.
Qed.

(** The results the closure has assigned when the loop ends. *)
Lemma retry_loop_results {R} ctx (f : nat -> zk.Conn -> R * option zk.Error)
    (left i : nat) (r : R) w :
  ends (retry_loop ctx (request f) left i r) w
    (fun re w' =>
       exists new,
         calls w' = (new ++ calls w)%list
         ∧ match new with
           | [] => re.1 = r ∧ re.2 = Some ErrMaxRetries
           | conn :: rest =>
               let answer := f (length (rest ++ calls w)) conn in
               re.1 = answer.1
               ∧ (re.2 = ErrZk <$> answer.2
                  ∨ (re.2 = Some ErrMaxRetries
                     ∧ answer.2 = Some zk.ErrConnectionClosed))
           end)
    (fun _ => True).
Proof.
  revert i r w. induction left as [|left IH]; intros i r w.
  - cbn. by exists [].
  - apply retry_loop_turn.
    set (w1 := if (0 <? i)%nat then _ else w).
    assert (Hca1 : calls w1 = calls w) by (subst w1; by destruct (0 <? i)%nat).
    clearbody w1.
    eapply ends_weaken; [apply ensureConnection_ends| |done].
    intros [conn|err] w2 (_ & Hca2 & _).
    + cbn zeta. rewrite Hca2, Hca1.
      destruct (f (length (calls w)) conn) as [r' e] eqn:Hf. cbn [fst snd].
      case_bool_decide as Hclosed.
      * assert (He : e = Some zk.ErrConnectionClosed).
        { destruct e as [[|?]|]; by inversion Hclosed. }
        eapply ends_weaken; [apply IH| |done].
        intros re w' (new & Hca & Hnew).
        assert (Hca3 : calls w' = ((new ++ [conn]) ++ calls w)%list).
        { rewrite Hca. case_bool_decide; cbn; rewrite Hca2, Hca1;
            by rewrite <- app_assoc. }
        exists (new ++ [conn])%list. split; [done|].
        destruct new as [|conn' rest]; cbn [app].
        -- destruct Hnew as [-> ->]. cbn zeta. rewrite Hf. cbn.
           split; [done|]. by right.
        -- cbn zeta in *.
           assert (Hlen : length ((rest ++ [conn]) ++ calls w)
                          = length (rest ++ calls
                              (if bool_decide
                                    (connection
                                       (c (add_attempt (Called conn (ErrZk <$> e))
                                             (set_connection
                                                (concurrently (length (calls w))
                                                   (connection (c w2)))
                                                (add_call conn w2)))) = Some conn)
                               then set_connection None
                                      (add_attempt (Called conn (ErrZk <$> e))
                                         (set_connection
                                            (concurrently (length (calls w))
                                               (connection (c w2)))
                                            (add_call conn w2)))
                               else add_attempt (Called conn (ErrZk <$> e))
                                      (set_connection
                                         (concurrently (length (calls w))
                                            (connection (c w2)))
                                         (add_call conn w2))))).
           { case_bool_decide; cbn; rewrite Hca2, Hca1, <- app_assoc; done. }
           rewrite Hlen. exact Hnew.
      * exists [conn]. cbn. rewrite Hca2, Hca1. split; [done|].
        rewrite Hf. cbn. split; [done|]. by left.
    + eapply ends_weaken; [apply IH| |done].
      intros re w' (new & Hca & Hnew). cbn in Hca, Hnew.
      rewrite Hca2, Hca1 in Hca, Hnew. by exists new.
Qed.

(** X8: what an operation returns beside its fault.  The named results of
    [Get], [Exists], [Create] and [Set] are those of the last request the
    call has sent, whatever became of it, and the zero values when it has
    sent none.  The fault is the fault of that last request, or "max
    retries number reached", and then that request met the session-closed
    fault or, when none was sent, every dial failed. *)
Theorem results_of_last_request {R} ctx (f : nat -> zk.Conn -> R * option zk.Error)
    (r0 : R) w w1 :
  passes_gate ctx w w1 ->
  ends (retry ctx (request f) r0) w
    (fun re w' =>
       exists new,
         calls w' = (new ++ calls w)%list
         ∧ match new with
           | [] => re.1 = r0 ∧ re.2 = Some ErrMaxRetries
           | conn :: rest =>
               let answer := f (length (rest ++ calls w)) conn in
               re.1 = answer.1
               ∧ (re.2 = ErrZk <$> answer.2
                  ∨ (re.2 = Some ErrMaxRetries
                     ∧ answer.2 = Some zk.ErrConnectionClosed))
           end)
    (fun _ => tls_configured).
Proof.
  intros Hgate.
  assert (Hloop :
    ends (retry_loop ctx (request f) maxRetriesNum 0 r0) w1
      (fun re w2 =>
         exists new,
           calls w2 = (new ++ calls w1)%list
           ∧ match new with
             | [] => re.1 = r0 ∧ re.2 = Some ErrMaxRetries
             | conn :: rest =>
                 let answer := f (length (rest ++ calls w1)) conn in
                 re.1 = answer.1
                 ∧ (re.2 = ErrZk <$> answer.2
                    ∨ (re.2 = Some ErrMaxRetries
                       ∧ answer.2 = Some zk.ErrConnectionClosed))
             end)
      (fun _ => tls_configured)).
  { eapply ends_weaken;
      [apply (ends_and _ _ _ _ _ _ (retry_loop_results ctx f maxRetriesNum 0 r0 w1)
                (retry_loop_ends ctx f maxRetriesNum 0 r0 w1))
      |by intros re w2 [HQ _]|by intros ? [_ ?]]. }
  eapply ends_weaken; [apply (retry_from_loop ctx f r0 w w1 _ Hgate Hloop)| |done].
  intros re w' (w2 & (new & Hca & Hnew) & ->).
  destruct Hgate as [_ Hacq].
  destruct (Acquire_inv _ _ _ _ Hacq) as (_ & _ & _ & _ & Hca1 & _).
  exists new. cbn. rewrite Hca1 in Hca, Hnew. done.
Qed.

(** The cached session when the loop ends, if no other goroutine touches
    it while a request is in flight. *)
Lemma retry_loop_cache {R} ctx (f : nat -> zk.Conn -> R * option zk.Error)
    (left i : nat) (r : R) w :
  (forall k cached, concurrently k cached = cached) ->
  ends (retry_loop ctx (request f) left i r) w
    (fun re w' =>
       (re.2 = Some ErrMaxRetries ->
        connection (c w') = None
        ∨ (left = 0%nat ∧ connection (c w') = connection (c w)))
       ∧ (re.2 ≠ Some ErrMaxRetries ->
          exists conn rest, calls w' = conn :: rest ∧ connection (c w') = Some conn))
    (fun _ => True).
Proof.
  intros Hquiet. revert i r w. induction left as [|left IH]; intros i r w.
  - cbn. split; [by right|done].
  - apply retry_loop_turn.
    set (w1 := if (0 <? i)%nat then _ else w). clearbody w1.
    assert (Hnext : forall i' r' w3,
      connection (c w3) = None ->
      ends (retry_loop ctx (request f) left i' r') w3
        (fun re w' =>
           (re.2 = Some ErrMaxRetries ->
            connection (c w') = None
            ∨ (S left = 0%nat ∧ connection (c w') = connection (c w)))
           ∧ (re.2 ≠ Some ErrMaxRetries ->
              exists conn rest,
                calls w' = conn :: rest ∧ connection (c w') = Some conn))
        (fun _ => True)).
    { intros i' r' w3 Hnone. eapply ends_weaken; [apply IH| |done].
      intros re w' [Hmax Hres]. split; [|done].
      intros Herr. left. destruct (Hmax Herr) as [?|[_ ?]]; congruence. }
    eapply ends_weaken; [apply ensureConnection_ends| |done].
    intros [conn|err] w2 (_ & _ & _ & _ & _ & _ & _ & _ & Hr).
    + cbn zeta. rewrite Hquiet.
      case_bool_decide as Hclosed.
      * apply Hnext. cbn. by rewrite Hr, bool_decide_eq_true_2.
      * cbn. split; [|by eauto].
        intros Herr. destruct (f (length (calls w2)) conn).2; done.
    + apply Hnext. by destruct Hr as [? _].
Qed.

(** X9: the cache an operation leaves behind, when no other goroutine
    touches it meanwhile.  After "max retries number reached" no session
    is cached, so the next operation starts by dialing; after any other
    return the session of the last request is the cached one. *)
Theorem cache_after_operation ctx op w w1 :
  (forall k cached, concurrently k cached = cached) ->
  passes_gate ctx w w1 ->
  ends (perform ctx op) w
    (fun err w' =>
       (err = Some ErrMaxRetries -> connection (c w') = None)
       ∧ (err ≠ Some ErrMaxRetries ->
          exists conn rest, calls w' = conn :: rest ∧ connection (c w') = Some conn))
    (fun _ => tls_configured).
Proof.
  intros Hquiet Hgate.
  eapply ends_weaken;
    [apply (perform_from_loop ctx op w w1
              (fun err w2 =>
                 (err = Some ErrMaxRetries -> connection (c w2) = None)
                 ∧ (err ≠ Some ErrMaxRetries ->
                    exists conn rest,
                      calls w2 = conn :: rest ∧ connection (c w2) = Some conn))
              Hgate)
    | |done].
  - intros R f r0.
    eapply ends_weaken;
      [apply (ends_and _ _ _ _ _ _ (retry_loop_cache ctx f maxRetriesNum 0 r0 w1 Hquiet)
                (retry_loop_ends ctx f maxRetriesNum 0 r0 w1))
      | |by intros ? [_ ?]].
    intros re w2 [[Hmax Hres] (h & _ & Hse & _)]. split; [|done].
    split; [|done]. intros Herr. by destruct (Hmax Herr) as [?|[? _]].
  - intros err w' (w2 & [Hmax Hres] & ->). done.
Qed.

(** What one [ensureConnection] does to the sessions: nothing, or one
    dial, whose handle gets a monitor, or is closed, or neither. *)
Lemma ensureConnection_sessions ctx w :
  ends (ensureConnection ctx) w
    (fun _ w' =>
       (monitors w' = monitors w ∧ closed w' = closed w
        ∧ length (connects w') = length (connects w))
       ∨ (length (connects w') = S (length (connects w))
          ∧ ((exists events,
                monitors w' = (length (connects w), events) :: monitors w
                ∧ closed w' = closed w)
             ∨ (monitors w' = monitors w
                ∧ (closed w' = closed w
                   ∨ closed w' = length (connects w) :: closed w)))))
    (fun _ => True).
Proof.
  destruct (connection (c w)) as [conn|] eqn:Hconn.
  - unfold ends. rewrite (ensureConnection_cached _ _ _ Hconn). by left.
  - pose proof (ensureConnection_starts_monitor ctx w Hconn) as Hd.
    pose proof (dial_ends ctx (address (c w)) w) as Hdial. unfold ends in *.
    destruct (dial ctx (address (c w)) w) as [[[conn events]|err] w1|w1|w1|w1];
      try done.
    + destruct Hd as (w' & -> & Hmon & Hco & Hcl).
      destruct Hdial as (_ & _ & _ & Hmo & _ & _ & _ & Hlen & -> & Hcl1).
      right. rewrite Hco, Hcl, Hcl1, Hmon, Hmo. split; [done|]. left. by exists events.
    + destruct Hd as (-> & _).
      destruct Hdial as (_ & _ & _ & Hmo & _ & _ & _ & Hlen & Hcl).
      right. split; [done|]. right. split; [done|].
      destruct Hcl as [[? _]|[? _]]; [by left|by right].
    + by destruct Hd as (-> & _).
Qed.

(** The monitors started and the transports closed while the loop runs. *)
Lemma retry_loop_sessions {R} ctx (f : nat -> zk.Conn -> R * option zk.Error)
    (left i : nat) (r : R) w :
  ends (retry_loop ctx (request f) left i r) w
    (fun _ w' =>
       exists started shut,
         monitors w' = (started ++ monitors w)%list
         ∧ closed w' = (shut ++ closed w)%list
         ∧ NoDup (started.*1 ++ shut)
         ∧ Forall (fun conn =>
                     (length (connects w) <= conn < length (connects w'))%nat)
             (started.*1 ++ shut)
         ∧ (length (connects w) <= length (connects w'))%nat)
    (fun _ => True).
Proof.
  revert i r w. induction left as [|left IH]; intros i r w.
  - cbn. exists [], []. cbn. split_and!; try done. constructor.
  - apply retry_loop_turn.
    set (w1 := if (0 <? i)%nat then _ else w).
    assert (Hw1 : monitors w1 = monitors w ∧ closed w1 = closed w
                  ∧ connects w1 = connects w)
      by (subst w1; by destruct (0 <? i)%nat).
    destruct Hw1 as (Hmo1 & Hcl1 & Hco1). clearbody w1.
    assert (Hdone : forall w2 w3,
      monitors w3 = monitors w2 -> closed w3 = closed w2 -> connects w3 = connects w2 ->
      ((monitors w2 = monitors w1 ∧ closed w2 = closed w1
        ∧ length (connects w2) = length (connects w1))
       ∨ (length (connects w2) = S (length (connects w1))
          ∧ ((exists events,
                monitors w2 = (length (connects w1), events) :: monitors w1
                ∧ closed w2 = closed w1)
             ∨ (monitors w2 = monitors w1
                ∧ (closed w2 = closed w1
                   ∨ closed w2 = length (connects w1) :: closed w1))))) ->
      exists started shut,
        monitors w3 = (started ++ monitors w)%list
        ∧ closed w3 = (shut ++ closed w)%list
        ∧ NoDup (started.*1 ++ shut)
        ∧ Forall (fun conn =>
                    (length (connects w) <= conn < length (connects w3))%nat)
            (started.*1 ++ shut)
        ∧ (length (connects w) <= length (connects w3))%nat).
    { intros w2 w3 -> -> -> Hturn. rewrite Hmo1, Hcl1, Hco1 in Hturn.
      destruct Hturn as [(-> & -> & ->)|[Hlen [(events & -> & ->)|[-> [-> | ->]]]]].
      - exists [], []. cbn. split_and!; try done. constructor.
      - exists [(length (connects w), events)], []. cbn. rewrite Hlen.
        split_and!; try done; [apply NoDup_singleton|repeat constructor; lia|lia].
      - exists [], []. cbn. split_and!; try done; [constructor|lia].
      - exists [], [length (connects w)]. cbn. rewrite Hlen.
        split_and!; try done; [apply NoDup_singleton|repeat constructor; lia|lia]. }
    assert (Hnext : forall i' r' w2 w3,
      monitors w3 = monitors w2 -> closed w3 = closed w2 -> connects w3 = connects w2 ->
      ((monitors w2 = monitors w1 ∧ closed w2 = closed w1
        ∧ length (connects w2) = length (connects w1))
       ∨ (length (connects w2) = S (length (connects w1))
          ∧ ((exists events,
                monitors w2 = (length (connects w1), events) :: monitors w1
                ∧ closed w2 = closed w1)
             ∨ (monitors w2 = monitors w1
                ∧ (closed w2 = closed w1
                   ∨ closed w2 = length (connects w1) :: closed w1))))) ->
      ends (retry_loop ctx (request f) left i' r') w3
        (fun _ w' =>
           exists started shut,
             monitors w' = (started ++ monitors w)%list
             ∧ closed w' = (shut ++ closed w)%list
             ∧ NoDup (started.*1 ++ shut)
             ∧ Forall (fun conn =>
                         (length (connects w) <= conn < length (connects w'))%nat)
                 (started.*1 ++ shut)
             ∧ (length (connects w) <= length (connects w'))%nat)
        (fun _ => True)).
    { intros i' r' w2 w3 Hmo Hcl Hco Hturn.
      destruct (Hdone w2 w3 Hmo Hcl Hco Hturn)
        as (st0 & sh0 & Hmo0 & Hcl0 & Hnd0 & Hall0 & Hle0).
      eapply ends_weaken; [apply IH| |done].
      intros re w' (st & sh & Hmo' & Hcl' & Hnd & Hall & Hle).
      exists (st ++ st0)%list, (sh ++ sh0)%list.
      rewrite Hmo', Hmo0, Hcl', Hcl0, fmap_app.
      split_and!; [by rewrite <- app_assoc|by rewrite <- app_assoc| | |lia].
      - apply NoDup_app in Hnd as (Hnd1 & Hnd12 & Hnd2).
        apply NoDup_app in Hnd0 as (Hnd01 & Hnd012 & Hnd02).
        rewrite Forall_app in Hall, Hall0.
        destruct Hall as [Hall1 Hall2], Hall0 as [Hall01 Hall02].
        rewrite Forall_forall in Hall1, Hall2, Hall01, Hall02.
        apply NoDup_app. split_and!.
        + apply NoDup_app. split_and!; try done.
          intros x Hx Hx0. specialize (Hall1 x Hx). specialize (Hall01 x Hx0). lia.
        + intros x [Hx|Hx]%elem_of_app [Hy|Hy]%elem_of_app.
          * by apply (Hnd12 x).
          * specialize (Hall1 x Hx). specialize (Hall02 x Hy). lia.
          * specialize (Hall01 x Hx). specialize (Hall2 x Hy). lia.
          * by apply (Hnd012 x).
        + apply NoDup_app. split_and!; try done.
          intros x Hx Hx0. specialize (Hall2 x Hx). specialize (Hall02 x Hx0). lia.
      - rewrite !Forall_app in *. destruct Hall as [Hall1 Hall2], Hall0 as [Hall01 Hall02].
        split_and!; eapply Forall_impl; try eassumption; cbn; intros; lia. }
    eapply ends_weaken; [apply ensureConnection_sessions| |done].
    intros [conn|err] w2 Hturn.
    + cbn zeta. case_bool_decide.
      * apply (Hnext _ _ w2); try done; by case_bool_decide.
      * by apply (Hdone w2).
    + by apply (Hnext _ _ w2).
Qed.

(** X13: sessions and monitors of an operation that is through the gate.
    Every monitor it starts is for a transport it has opened itself during
    the call, and none gets two; every transport it closes is one it has
    opened itself during the call and started no monitor for (a handshake
    that failed), and none is closed twice; so it closes no session that
    was there before the call and none that got a monitor: a session
    dropped after the session-closed fault stays open.  It calls
    [zk.Connect] at most three times. *)
Theorem sessions_of_operation ctx op w w1 :
  passes_gate ctx w w1 ->
  ends (perform ctx op) w
    (fun _ w' =>
       exists started shut,
         monitors w' = (started ++ monitors w)%list
         ∧ closed w' = (shut ++ closed w)%list
         ∧ NoDup (started.*1 ++ shut)
         ∧ Forall (fun conn =>
                     (length (connects w) <= conn < length (connects w'))%nat)
             (started.*1 ++ shut)
         ∧ (length (connects w) <= length (connects w')
            <= length (connects w) + 3)%nat)
    (fun _ => tls_configured).
Proof.
  intros Hgate.
  eapply ends_weaken;
    [apply (perform_from_loop ctx op w w1
              (fun _ w2 =>
                 exists started shut,
                   monitors w2 = (started ++ monitors w1)%list
                   ∧ closed w2 = (shut ++ closed w1)%list
                   ∧ NoDup (started.*1 ++ shut)
                   ∧ Forall (fun conn =>
                               (length (connects w1) <= conn
                                < length (connects w2))%nat)
                       (started.*1 ++ shut)
                   ∧ (length (connects w1) <= length (connects w2)
                      <= length (connects w1) + 3)%nat) Hgate)
    | |done].
  - intros R f r0.
    eapply ends_weaken;
      [apply (ends_and _ _ _ _ _ _ (retry_loop_sessions ctx f maxRetriesNum 0 r0 w1)
                (retry_loop_ends ctx f maxRetriesNum 0 r0 w1))
      | |by intros ? [_ ?]].
    intros re w2 [(st & sh & Hmo & Hcl & Hnd & Hall & Hle)
                  (h & _ & Hse & _ & _ & Hlen & _ & _ & Hco & _)].
    split; [|done]. exists st, sh. unfold maxRetriesNum in *.
    split_and!; try done; lia.
  - intros err w' (w2 & (st & sh & Hmo & Hcl & Hnd & Hall & Hle) & Hw').
    destruct Hgate as [_ Hacq]. rewrite Hw'.
    destruct (Acquire_inv _ _ _ _ Hacq)
      as (_ & _ & _ & Hco1 & _ & _ & Hcl1 & Hmo1 & _).
    exists st, sh. cbn. rewrite Hmo, Hcl, Hmo1, Hcl1. rewrite Hco1 in Hall, Hle.
    split_and!; try done; lia.
Qed.

End Operations.

(** *** At concrete inputs *)

Lemma connect_transport_witness :
  connect (H := Samples.tls_globals) (H0 := Samples.env_timeouts) "zk1:2181" Samples.w0
  = Ret (inl (0%nat, Samples.connected_after (5 * Samples.ms)))
        (add_connect (["zk1:2181"], Some "zk1") Samples.w0).
Proof.
  destruct (connect_transport (H := Samples.tls_globals) (H0 := Samples.env_timeouts)
              "zk1:2181" Samples.w0) as [Hrun _].
  unfold ends in Hrun.
  destruct (connect (H := Samples.tls_globals) (H0 := Samples.env_timeouts)
              "zk1:2181" Samples.w0) as [r w'|w'|w'|w']; try done.
  - by destruct Hrun as (-> & -> & _).
  - by destruct Hrun as (_ & _ & [?|[?|?]]).
Defined.

Lemma connect_servers_witness :
  ends (connect (H := defaults) (H0 := Samples.env_timeouts)
          "zk1:2181,zk2:2181,zk3:2181") Samples.w0
    (fun _ w' =>
       exists servers name,
         connects w' = (servers, name) :: connects Samples.w0
         ∧ servers ≠ []
         ∧ Join servers "," = "zk1:2181,zk2:2181,zk3:2181"
         ∧ Forall (fun server => Contains server "," = false) servers
         ∧ (length servers = 1%nat ↔ Contains "zk1:2181,zk2:2181,zk3:2181" "," = false))
    (fun _ => True).
Proof.
  exact (connect_servers (H := defaults) (H0 := Samples.env_timeouts)
           "zk1:2181,zk2:2181,zk3:2181" Samples.w0).
Defined.

Lemma ensureConnection_dials_once_witness :
  connection (c Samples.w0) = None
  ∧ exists w',
      ensureConnection (H := auth_globals) (H0 := env_auth) Background Samples.w0
      = Ret (inl 0%nat) w'
      ∧ connection (c w') = Some 0%nat
      ∧ monitors w' = [(0%nat, [zk.mkEvent second zk.StateDisconnected])].
Proof.
  assert (Hnone : connection (c Samples.w0) = None) by reflexivity.
  split; [exact Hnone|].
  pose proof (ensureConnection_dials_once (H := auth_globals) (H0 := env_auth)
                Background Samples.w0 Hnone) as Hd.
  assert (Hdial :
    dial (H := auth_globals) (H0 := env_auth) Background (address (c Samples.w0))
      Samples.w0
    = Ret (inl (0%nat, [zk.mkEvent second zk.StateDisconnected]))
          (set_now (5 * Samples.ms) (add_connect (["zk1:2181"], None) Samples.w0)))
    by (vm_compute; reflexivity).
  rewrite Hdial in Hd. destruct Hd as (w' & Hrun & Hconn & Hmon & _).
  exists w'. split_and!; [exact Hrun|exact Hconn|exact Hmon].
Defined.

Lemma connectionAddAuth_credentials_witness :
  connection (c Samples.w0_cached) = Some 0%nat
  ∧ connectionAddAuth (H := auth_globals) (H0 := env_auth) Background Samples.w0_cached
    = Ret tt (add_auth (0%nat, "digest", "operator:secret") Samples.w0_cached).
Proof.
  assert (Hconn : connection (c Samples.w0_cached) = Some 0%nat) by reflexivity.
  split; [exact Hconn|].
  destruct (connectionAddAuth_credentials (H := auth_globals) (H0 := env_auth)
              Background Samples.w0_cached 0%nat Hconn) as (_ & _ & Hadd & _).
  apply (Hadd "digest" "operator:secret" 1%nat).
  - discriminate.
  - reflexivity.
  - reflexivity.
  - reflexivity.
Defined.

Lemma monitor_stream_witness :
  Forall (fun e => terminal e = false) [zk.mkEvent 0 zk.StateConnected]
  ∧ connectionEventsProcessor 0%nat
      [zk.mkEvent 0 zk.StateConnected; zk.mkEvent 0 zk.StateDisconnected;
       zk.mkEvent 0 zk.StateExpired] Samples.w0_cached
    = Ret [zk.mkEvent 0 zk.StateExpired] (set_connection None Samples.w0_cached).
Proof.
  assert (Hpre : Forall (fun e => terminal e = false) [zk.mkEvent 0 zk.StateConnected])
    by (by constructor).
  split; [exact Hpre|].
  destruct (monitor_stream 0%nat [zk.mkEvent 0 zk.StateConnected] Samples.w0_cached Hpre)
    as [_ Hstop].
  apply (Hstop (zk.mkEvent 0 zk.StateDisconnected) [zk.mkEvent 0 zk.StateExpired]).
  reflexivity.
Defined.

Lemma session_loss_forces_redial_witness :
  connection (c Samples.w0_cached) = Some 0%nat
  ∧ (0 < length (connects Samples.w0_cached))%nat
  ∧ Forall (fun e => terminal e = false) [zk.mkEvent 0 zk.StateConnected]
  ∧ terminal (zk.mkEvent 0 zk.StateExpired) = true
  ∧ exists w',
      connectionEventsProcessor 0%nat
        [zk.mkEvent 0 zk.StateConnected; zk.mkEvent 0 zk.StateExpired]
        Samples.w0_cached = Ret [] w'
      ∧ connection (c w') = None.
Proof.
  assert (Hconn : connection (c Samples.w0_cached) = Some 0%nat) by reflexivity.
  assert (Hold : (0 < length (connects Samples.w0_cached))%nat) by (cbn; lia).
  assert (Hpre : Forall (fun e => terminal e = false) [zk.mkEvent 0 zk.StateConnected])
    by (by constructor).
  assert (He : terminal (zk.mkEvent 0 zk.StateExpired) = true) by reflexivity.
  split_and!; [exact Hconn|exact Hold|exact Hpre|exact He|].
  destruct (session_loss_forces_redial (H := defaults) (H0 := Samples.env_timeouts)
              Background 0%nat [zk.mkEvent 0 zk.StateConnected]
              (zk.mkEvent 0 zk.StateExpired) [] Samples.w0_cached Hconn Hold Hpre He)
    as (w' & Hrun & Hnone & _).
  exists w'. split; [exact Hrun|exact Hnone].
Defined.

Lemma retry_timing_witness :
  let w1 := set_sema (semaphore.mkWeighted 32 1) Samples.w0 in
  passes_gate (H0 := Samples.env_closed) Background Samples.w0 w1
  ∧ ends (perform (H := defaults) (H0 := Samples.env_closed) Background
            (OpDelete "/y" 5)) Samples.w0
      (fun err w' => err = Some ErrMaxRetries -> 4 * second <= now w')
      (fun _ => tls_configured (H := defaults)).
Proof.
  intros w1.
  assert (Hgate : passes_gate (H0 := Samples.env_closed) Background Samples.w0 w1).
  { split; [cbn; lia|reflexivity]. }
  split; [exact Hgate|].
  eapply ends_weaken;
    [exact (retry_timing (H := defaults) (H0 := Samples.env_closed)
              Background (OpDelete "/y" 5) Samples.w0 w1 Hgate)| |done].
  intros err w' (new & _ & _ & _ & _ & Hmax) Herr.
  destruct (Hmax Herr) as [_ Hnow]. exact Hnow.
Defined.

Lemma results_of_last_request_witness :
  let w1 := set_sema (semaphore.mkWeighted 32 1) Samples.w0 in
  passes_gate (H0 := env_auth) Background Samples.w0 w1
  ∧ ends (Exists (H := defaults) (H0 := env_auth) Background "/x") Samples.w0
      (fun re w' => calls w' ≠ [] -> re.1 = (true, Some (zk.mkStat 3)))
      (fun _ => tls_configured (H := defaults)).
Proof.
  intros w1.
  assert (Hgate : passes_gate (H0 := env_auth) Background Samples.w0 w1).
  { split; [cbn; lia|reflexivity]. }
  split; [exact Hgate|].
  eapply ends_weaken;
    [exact (results_of_last_request (H := defaults) (H0 := env_auth) Background
              (fun k conn => zk_Exists (Env := env_auth) k conn "/x") (false, None)
              Samples.w0 w1 Hgate)| |done].
  intros re w' (new & Hca & Hnew) Hsent.
  destruct new as [|conn rest]; [by rewrite Hca in Hsent|].
  by destruct Hnew as [-> _].
Defined.

Lemma cache_after_operation_witness :
  let w1 := set_sema (semaphore.mkWeighted 32 1) Samples.w0 in
  (forall k cached, concurrently (Env := Samples.env_closed) k cached = cached)
  ∧ passes_gate (H0 := Samples.env_closed) Background Samples.w0 w1
  ∧ ends (perform (H := defaults) (H0 := Samples.env_closed) Background
            (OpDelete "/y" 5)) Samples.w0
      (fun err w' => err = Some ErrMaxRetries -> connection (c w') = None)
      (fun _ => tls_configured (H := defaults)).
Proof.
  intros w1.
  assert (Hquiet : forall k cached,
            concurrently (Env := Samples.env_closed) k cached = cached)
    by (intros k cached; reflexivity).
  assert (Hgate : passes_gate (H0 := Samples.env_closed) Background Samples.w0 w1).
  { split; [cbn; lia|reflexivity]. }
  split_and!; [exact Hquiet|exact Hgate|].
  eapply ends_weaken;
    [exact (cache_after_operation (H := defaults) (H0 := Samples.env_closed)
              Background (OpDelete "/y" 5) Samples.w0 w1 Hquiet Hgate)| |done].
  by intros err w' [Hmax _].
Defined.

Lemma sessions_of_operation_witness :
  let w1 := set_sema (semaphore.mkWeighted 32 1) Samples.w0 in
  passes_gate (H0 := Samples.env_closed) Background Samples.w0 w1
  ∧ ends (perform (H := defaults) (H0 := Samples.env_closed) Background
            (OpDelete "/y" 5)) Samples.w0
      (fun _ w' => (length (connects w') <= 3)%nat)
      (fun _ => tls_configured (H := defaults)).
Proof.
  intros w1.
  assert (Hgate : passes_gate (H0 := Samples.env_closed) Background Samples.w0 w1).
  { split; [cbn; lia|reflexivity]. }
  split; [exact Hgate|].
  eapply ends_weaken;
    [exact (sessions_of_operation (H := defaults) (H0 := Samples.env_closed)
              Background (OpDelete "/y" 5) Samples.w0 w1 Hgate)| |done].
  intros err w' (_ & _ & _ & _ & _ & _ & Hle). cbn in Hle. lia.
Defined.

End ZookeeperMore.

(** ** Package [macro]: lines and maps *)

Module MacroMore.
Import Macro Notions.



End MacroMore.

(** ** The gate: every caller gets through *)

Module GateMore.
Import Zookeeper Gate ZookeeperFacts GateFacts.

Section Drain.
Context `{Globals} `{Env}.

Lemma reachable_trans (p0 p1 p2 : Pool) :
  reachable p0 p1 -> reachable p1 p2 -> reachable p0 p2.
Proof.
  intros H01 H12. induction H12 as [|p p' i _ IH Hstep]; [done|].
  by eapply reach_step.
Qed.

Lemma reachable_keeps_balanced (p p' : Pool) :
  balanced p -> reachable p p' -> balanced p'.
Proof.
  intros Hbal Hreach. induction Hreach as [|q q' i _ IH Hstep]; [done|].
  by eapply step_balanced.
Qed.

Lemma inside_not_in_acquire {R} (q : Prog R) : inside q -> in_acquire q = false.
Proof. by destruct q. Qed.

Lemma outside_not_in_acquire {R} (q : Prog R) : outside q -> in_acquire q = false.
Proof. by destruct q. Qed.

Lemma free_permit (s : semaphore.Weighted) :
  semaphore.cur s < semaphore.size s ->
  semaphore.TryAcquire s
  = Some {| semaphore.size := semaphore.size s; semaphore.cur := semaphore.cur s + 1 |}.
Proof.
  intros Hfree. unfold semaphore.TryAcquire.
  destruct (Z.leb_spec (semaphore.cur s + 1) (semaphore.size s)); [done|lia].
Qed.

(** One caller goes on alone until it has returned, or the process has
    exited: it is not held up once it is past [Acquire], and in [Acquire]
    it is not when a permit is free. *)
Lemma drain_caller (prog : Prog (option error)) :
  forall p i h,
    balanced p -> exited p = false ->
    callers p !! i = Some (mkCaller h prog) ->
    (in_acquire prog = true ->
     semaphore.cur (sema (c (world p))) < semaphore.size (sema (c (world p)))) ->
    exists p',
      reachable p p'
      ∧ (forall j, j ≠ i -> callers p' !! j = callers p !! j)
      ∧ (exited p' = true
         ∨ (exited p' = false ∧ exists r, callers p' !! i = Some (mkCaller 0 (Return r)))).
Proof.
  induction prog as [r|ctx k IH|k IH|A fn k IH|A m k IH];
    intros p i h Hbal Hlive Hi Hfree;
    pose proof Hbal as (Hsize & Hcur & Hle & Hexit & Hall);
    assert (Hx : in_step (mkCaller h _)) by (eapply Forall_lookup_1; eauto);
    unfold in_step in Hx; cbn in Hx;
    pose proof (lookup_lt_Some _ _ _ Hi) as Hlt.
  - (* returned *)
    exists p. destruct h as [|[|h]]; try done.
    split_and!; [constructor|done|]. right. eauto.
  - (* in [Acquire], a permit is free *)
    destruct h as [|[|h]]; [|done..]. destruct Hx as [[Hin Hout]|[]].
    specialize (Hfree eq_refl). pose proof (free_permit _ Hfree) as Hsome.
    assert (Hacq : exists err w', Acquire ctx (world p) = Ret err w').
    { unfold Acquire. rewrite Hsome.
      destruct (acquire_checks_done && Done ctx (now (world p))); eauto. }
    destruct Hacq as (err & w' & Hacq).
    assert (Hstep : step i p
              {| world := w'; exited := false;
                 callers := <[i := mkCaller (if err is None then 1 else 0) (k err)]>
                              (callers p) |})
      by (by eapply (step_acquire i p 0%nat ctx k err w')).
    pose proof (step_balanced _ _ _ Hbal Hstep) as Hbal1.
    destruct (IH err _ i (if err is None then 1 else 0)%nat Hbal1 eq_refl)
      as (p' & Hreach & Hrest & Hend).
    { cbn. by rewrite list_lookup_insert_eq. }
    { intros Hacquire. destruct err as [e|].
      - by rewrite (outside_not_in_acquire _ (Hout e)) in Hacquire.
      - by rewrite (inside_not_in_acquire _ Hin) in Hacquire. }
    exists p'. split_and!; [|intros j Hj|done].
    + eapply reachable_trans; [|exact Hreach]. eapply reach_step; [constructor|done].
    + rewrite (Hrest j Hj). cbn. by rewrite list_lookup_insert_ne.
  - (* at its [Release] *)
    destruct h as [|[|h]]; [by destruct Hx| |done].
    assert (Hge : (1 <= permits p)%nat).
    { pose proof Hi as Hin. apply list_elem_of_lookup_2 in Hin.
      by apply (sum_list_with_in _ held) in Hin. }
    assert (Hrel : Release (world p)
                   = Ret tt (set_sema
                       {| semaphore.size := semaphore.size (sema (c (world p)));
                          semaphore.cur := semaphore.cur (sema (c (world p))) - 1 |}
                       (world p))).
    { unfold Release, semaphore.Release.
      destruct (Z.ltb_spec (semaphore.cur (sema (c (world p))) - 1) 0); [lia|done]. }
    assert (Hstep : step i p
              {| world := set_sema
                   {| semaphore.size := semaphore.size (sema (c (world p)));
                      semaphore.cur := semaphore.cur (sema (c (world p))) - 1 |}
                   (world p);
                 exited := false;
                 callers := <[i := mkCaller 0 k]> (callers p) |})
      by (by eapply (step_release i p 1%nat k)).
    pose proof (step_balanced _ _ _ Hbal Hstep) as Hbal1.
    destruct (IH _ i 0%nat Hbal1 eq_refl)
      as (p' & Hreach & Hrest & Hend).
    { cbn. by rewrite list_lookup_insert_eq. }
    { intros Hacquire. by rewrite (outside_not_in_acquire _ Hx) in Hacquire. }
    exists p'. split_and!; [|intros j Hj|done].
    + eapply reachable_trans; [|exact Hreach]. eapply reach_step; [constructor|done].
    + rewrite (Hrest j Hj). cbn. by rewrite list_lookup_insert_ne.
  - (* in the driver call *)
    destruct h as [|[|h]]; [by destruct Hx| |done]. destruct Hx as [Hkeeps Hin].
    specialize (Hkeeps (world p)). unfold ends in Hkeeps.
    destruct (fn (world p)) as [a w'|w'|w'|w'] eqn:Hfn; try done.
    + assert (Hstep : step i p
                {| world := w'; exited := false;
                   callers := <[i := mkCaller 1 (k a)]> (callers p) |})
        by (by eapply (step_call i p 1%nat A fn k a w')).
      pose proof (step_balanced _ _ _ Hbal Hstep) as Hbal1.
      destruct (IH a _ i 1%nat Hbal1 eq_refl) as (p' & Hreach & Hrest & Hend).
      { cbn. by rewrite list_lookup_insert_eq. }
      { intros Hacquire. by rewrite (inside_not_in_acquire _ (Hin a)) in Hacquire. }
      exists p'. split_and!; [|intros j Hj|done].
      * eapply reachable_trans; [|exact Hreach]. eapply reach_step; [constructor|done].
      * rewrite (Hrest j Hj). cbn. by rewrite list_lookup_insert_ne.
    + exists {| world := w'; exited := true; callers := callers p |}.
      split_and!; [|done|by left].
      eapply reach_step; [constructor|]. eapply (step_exit i p 1%nat A fn k w'); eauto.
  - (* in a block of the client *)
    assert (Hkeeps : keeps_gate m ∧ forall a, in_acquire (k a) = false).
    { destruct h as [|[|h]]; [| |done].
      - destruct Hx as [[]|[? Hout]]. split; [done|].
        intros a. by apply outside_not_in_acquire.
      - destruct Hx as [? Hin]. split; [done|]. intros a. by apply inside_not_in_acquire. }
    destruct Hkeeps as [Hkeeps Hnot].
    specialize (Hkeeps (world p)). unfold ends in Hkeeps.
    destruct (m (world p)) as [a w'|w'|w'|w'] eqn:Hm; try done.
    + assert (Hstep : step i p
                {| world := w'; exited := false;
                   callers := <[i := mkCaller h (k a)]> (callers p) |})
        by (by eapply (step_then i p h A m k a w')).
      pose proof (step_balanced _ _ _ Hbal Hstep) as Hbal1.
      destruct (IH a _ i h Hbal1 eq_refl) as (p' & Hreach & Hrest & Hend).
      { cbn. by rewrite list_lookup_insert_eq. }
      { intros Hacquire. by rewrite Hnot in Hacquire. }
      exists p'. split_and!; [|intros j Hj|done].
      * eapply reachable_trans; [|exact Hreach]. eapply reach_step; [constructor|done].
      * rewrite (Hrest j Hj). cbn. by rewrite list_lookup_insert_ne.
    + exists {| world := w'; exited := true; callers := callers p |}.
      split_and!; [|done|by left].
      eapply reach_step; [constructor|]. eapply (step_exit i p h A m k w'); eauto.
Qed.

(** The callers that are past [Acquire] go on, one after the other,
    until each has returned. *)
Lemma drain_running (n : nat) (p : Pool) :
  balanced p -> exited p = false ->
  exists p',
    reachable p p'
    ∧ (exited p' = true
       ∨ (exited p' = false
          ∧ (forall j x, (j < n)%nat -> callers p' !! j = Some x ->
               in_acquire (todo x) = true
               ∨ (held x = 0%nat ∧ returned (todo x) = true))
          ∧ (forall j, (n <= j)%nat -> callers p' !! j = callers p !! j))).
Proof.
  intros Hbal Hlive. induction n as [|n IH].
  { exists p. split; [constructor|]. right. split_and!; [done| |done]. intros; lia. }
  destruct IH as (p1 & Hreach1 & [Hexit1|(Hlive1 & Hfirst & Hrest)]).
  { exists p1. split; [done|by left]. }
  pose proof (reachable_keeps_balanced _ _ Hbal Hreach1) as Hbal1.
  destruct (callers p1 !! n) as [[h prog]|] eqn:Hn.
  - destruct (in_acquire prog) eqn:Hprog.
    + exists p1. split; [done|]. right. split_and!; [done| |intros j Hj; apply Hrest; lia].
      intros j x Hj Hx. destruct (decide (j = n)) as [->|Hne].
      * rewrite Hn in Hx. injection Hx as <-. by left.
      * apply (Hfirst j); [lia|done].
    + destruct (drain_caller prog p1 n h Hbal1 Hlive1 Hn) as (p2 & Hreach2 & Hrest2 & Hend).
      { by rewrite Hprog. }
      exists p2. split; [by eapply reachable_trans|].
      destruct Hend as [Hexit2|(Hlive2 & r & Hr)]; [by left|]. right.
      split_and!; [done| |].
      * intros j x Hj Hx. destruct (decide (j = n)) as [->|Hne].
        -- rewrite Hr in Hx. injection Hx as <-. by right.
        -- rewrite (Hrest2 j Hne) in Hx. apply (Hfirst j); [lia|done].
      * intros j Hj. rewrite (Hrest2 j) by lia. apply Hrest. lia.
  - exists p1. split; [done|]. right. split_and!; [done| |intros j Hj; apply Hrest; lia].
    intros j x Hj Hx. destruct (decide (j = n)) as [->|Hne]; [congruence|].
    apply (Hfirst j); [lia|done].
Qed.

Lemma sum_held_zero (l : list Caller) :
  Forall (fun x => held x = 0%nat) l -> sum_list_with held l = 0%nat.
Proof. induction 1 as [|x l Hx _ IH]; [done|]. cbn [sum_list_with]. lia. Qed.

Lemma no_permits (p : Pool) :
  balanced p ->
  (forall j x, callers p !! j = Some x ->
     in_acquire (todo x) = true ∨ (held x = 0%nat ∧ returned (todo x) = true)) ->
  permits p = 0%nat.
Proof.
  intros (_ & _ & _ & _ & Hall) Hgood. unfold permits.
  apply sum_held_zero.
  { apply Forall_lookup_2. intros j x Hx.
    destruct (Hgood j x Hx) as [Hacq|[? _]]; [|done].
    pose proof (Forall_lookup_1 _ _ _ _ Hall Hx) as Hstep.
    unfold in_step in Hstep. by destruct x as [[|[|h]] [ | | | | ]]. }
Qed.

(** When nobody holds a permit, the callers in [Acquire] go through,
    one after the other. *)
Lemma drain_waiting (n : nat) (p : Pool) :
  1 <= maxConcurrentRequests ->
  balanced p -> exited p = false ->
  (forall j x, callers p !! j = Some x ->
     in_acquire (todo x) = true ∨ (held x = 0%nat ∧ returned (todo x) = true)) ->
  exists p',
    reachable p p'
    ∧ (exited p' = true
       ∨ (exited p' = false
          ∧ (forall j x, (j < n)%nat -> callers p' !! j = Some x ->
               held x = 0%nat ∧ returned (todo x) = true)
          ∧ (forall j, (n <= j)%nat -> callers p' !! j = callers p !! j))).
Proof.
  intros Hcap Hbal Hlive Hgood. induction n as [|n IH].
  { exists p. split; [constructor|]. right. split_and!; [done| |done]. intros; lia. }
  destruct IH as (p1 & Hreach1 & [Hexit1|(Hlive1 & Hfirst & Hrest)]).
  { exists p1. split; [done|by left]. }
  pose proof (reachable_keeps_balanced _ _ Hbal Hreach1) as Hbal1.
  assert (Hgood1 : forall j x, callers p1 !! j = Some x ->
            in_acquire (todo x) = true ∨ (held x = 0%nat ∧ returned (todo x) = true)).
  { intros j x Hx. destruct (decide (j < n)%nat) as [Hj|Hj].
    - right. by apply (Hfirst j).
    - rewrite Hrest in Hx by lia. by apply (Hgood j). }
  pose proof (no_permits p1 Hbal1 Hgood1) as Hzero.
  pose proof Hbal1 as (Hsize1 & Hcur1 & _).
  destruct (callers p1 !! n) as [[h prog]|] eqn:Hn.
  - destruct (drain_caller prog p1 n h Hbal1 Hlive1 Hn) as (p2 & Hreach2 & Hrest2 & Hend).
    { intros _. lia. }
    exists p2. split; [by eapply reachable_trans|].
    destruct Hend as [Hexit2|(Hlive2 & r & Hr)]; [by left|]. right.
    split_and!; [done| |].
    + intros j x Hj Hx. destruct (decide (j = n)) as [->|Hne].
      * rewrite Hr in Hx. by injection Hx as <-.
      * rewrite (Hrest2 j Hne) in Hx. apply (Hfirst j); [lia|done].
    + intros j Hj. rewrite (Hrest2 j) by lia. apply Hrest. lia.
  - exists p1. split; [done|]. right. split_and!; [done| |intros j Hj; apply Hrest; lia].
    intros j x Hj Hx. destruct (decide (j = n)) as [->|Hne]; [congruence|].
    apply (Hfirst j); [lia|done].
Qed.

(** X11: no permit is lost and nobody is left behind.  From any state
    the callers of the operations [ops] on one client can reach, with at
    least one permit configured, they can go on until every one of them
    has returned, and then no permit is out; or until the process has
    exited, which only happens when TLS is configured. *)
Theorem gate_drains (address : string) (ops : list (Context * Operation)) (p : Pool) :
  1 <= maxConcurrentRequests ->
  reachable (arrive address ops) p ->
  exists p',
    reachable p p'
    ∧ length (callers p') = length ops
    ∧ (exited p' = true -> tls_configured)
    ∧ (exited p' = true
       ∨ (Forall (fun x => held x = 0%nat ∧ returned (todo x) = true) (callers p')
          ∧ semaphore.cur (sema (c (world p'))) = 0)).
Proof.
  intros Hcap Hreach.
  pose proof (reachable_balanced _ _ _ Hreach) as Hbal.
  assert (Hgoal : exists p',
    reachable p p'
    ∧ (exited p' = true
       ∨ (Forall (fun x => held x = 0%nat ∧ returned (todo x) = true) (callers p')
          ∧ semaphore.cur (sema (c (world p'))) = 0))).
  { destruct (exited p) eqn:Hlive; [exists p; split; [constructor|by left]|].
    destruct (drain_running (length (callers p)) p Hbal Hlive)
      as (p1 & Hreach1 & [Hexit1|(Hlive1 & Hfirst1 & _)]).
    { exists p1. split; [done|by left]. }
    pose proof (reachable_keeps_balanced _ _ Hbal Hreach1) as Hbal1.
    pose proof (reachable_length _ _ Hreach1) as Hlen1.
    destruct (drain_waiting (length (callers p)) p1 Hcap Hbal1 Hlive1)
      as (p2 & Hreach2 & Hend).
    { intros j x Hx. apply (Hfirst1 j); [|done].
      rewrite <- Hlen1. by eapply lookup_lt_Some. }
    exists p2. split; [by eapply reachable_trans|].
    destruct Hend as [Hexit2|(Hlive2 & Hfirst2 & _)]; [by left|]. right.
    pose proof (reachable_keeps_balanced _ _ Hbal1 Hreach2) as Hbal2.
    pose proof (reachable_length _ _ Hreach2) as Hlen2.
    assert (Hall : forall j x, callers p2 !! j = Some x ->
              held x = 0%nat ∧ returned (todo x) = true).
    { intros j x Hx. apply (Hfirst2 j); [|done].
      rewrite <- Hlen1, <- Hlen2. by eapply lookup_lt_Some. }
    split; [by apply Forall_lookup_2|].
    destruct Hbal2 as (_ & -> & _). rewrite (no_permits p2); [done| |].
    - by eapply reachable_keeps_balanced.
    - intros j x Hx. right. by apply (Hall j). }
  destruct Hgoal as (p' & Hreach' & Hend). exists p'.
  pose proof (reachable_keeps_balanced _ _ Hbal Hreach') as (_ & _ & _ & Hexit & _).
  split_and!; try done.
  rewrite (reachable_length _ _ Hreach'), (reachable_length _ _ Hreach).
  unfold arrive. cbn. by rewrite length_fmap.
Qed.

End Drain.

Lemma gate_drains_witness :
  let ops := replicate 40 (Background, OpGet "/clickhouse") in
  let p0 := arrive (H := defaults) (H0 := Samples.env_timeouts) "zk1:2181" ops in
  let p := enter_first (H0 := Samples.env_timeouts) 32 p0 in
  1 <= maxConcurrentRequests (Globals := defaults)
  ∧ reachable (H0 := Samples.env_timeouts) p0 p
  ∧ exists p',
      reachable (H0 := Samples.env_timeouts) p p'
      ∧ length (callers p') = 40%nat
      ∧ exited p' = false
      ∧ semaphore.cur (sema (c (world p'))) = 0.
Proof.
  intros ops p0 p.
  assert (Hcap : 1 <= maxConcurrentRequests (Globals := defaults)) by (vm_compute; discriminate).
  assert (Hreach : reachable (H0 := Samples.env_timeouts) p0 p)
    by (apply enter_first_reachable; [constructor|reflexivity]).
  split_and!; [exact Hcap|exact Hreach|].
  destruct (gate_drains (H := defaults) (H0 := Samples.env_timeouts)
              "zk1:2181" ops p Hcap Hreach)
    as (p' & Hreach' & Hlen & Hexit & Hend).
  exists p'.
  assert (Hlive : exited p' = false).
  { destruct (exited p'); [|reflexivity]. by destruct (Hexit eq_refl) as [Hcert _]. }
  split_and!; [exact Hreach'|exact Hlen|exact Hlive|].
  destruct Hend as [Hexited|[_ Hzero]]; [congruence|exact Hzero].
Defined.

End GateMore.
